(** * conftracker: the deadline enrichment and ordering of [main.py]

    A shallow embedding of [main.py]: the configuration loader
    [load_conferences], the date helpers [parse_date] and [days_until], the
    enrichment [enrich_conference_data] with its [sort_key], the
    [/api/conferences] handler and the middleware [add_security_headers];
    and of the script [update_deadlines.py]: the guard and the clean-up of
    [fetch_webpage] and the arguments of [main].

    The program is embedded twice.  In [Main] Python values are trees
    ([Py.value]); a [dict] is an association list in insertion order,
    because the order of a mapping's items decides ties in Python's stable
    [list.sort].  In [Heap] lists and dicts are objects of a heap, referred
    to by address, which tells a copy from its original; the heap model is
    proved to do what the model on trees does ([heap_enrich_refines]).

    Exceptions are a sum type.  [datetime.now()] is an effect: the n-th call
    reads [clock n], and every function that calls it threads the number of
    readings made so far.  Strings are sequences of 8-bit characters; among
    those the decimal digits are exactly [0]..[9], so [\d] of Python's [re]
    is modelled exactly on them.  The keys of a [dict] are strings. *)

From Stdlib Require Import ZArith List String Ascii Bool Lia Permutation Sorted.
From stdpp Require Import base list.
Import ListNotations.

Set Default Proof Using "Type".
Set Warnings "-register-all".
Open Scope string_scope.
Open Scope Z_scope.

(** ** Python values, exceptions and dictionaries *)

Module Py.

Inductive exn :=
| ValueError | TypeError | AttributeError | KeyError
| OSError | YAMLError
| SystemError.

Inductive result (A : Type) :=
| Ok (a : A)
| Raise (e : exn).
Arguments Ok {A} a.
Arguments Raise {A} e.

(** The values a YAML document of this application holds, and those
    [enrich_conference_data] adds to them. *)
Inductive value :=
| VNone
| VBool (b : bool)
| VInt (n : Z)
| VStr (s : string)
| VList (l : list value)
| VDict (d : list (string * value)).

(** [bool(v)]: [None], [False], [0], the empty string, list and dict are
    false. *)
Definition truthy (v : value) : bool :=
  match v with
  | VNone => false
  | VBool b => b
  | VInt n => negb (n =? 0)
  | VStr s => negb (s =? "")%string
  | VList l => match l with [] => false | _ => true end
  | VDict d => match d with [] => false | _ => true end
  end.

Section Dict.
Context {V : Type}.

(** [d.get(k)]. *)
Fixpoint dict_get (k : string) (d : list (string * V)) : option V :=
  match d with
  | [] => None
  | (k', v) :: d' => if (k =? k')%string then Some v else dict_get k d'
  end.

(** [d[k] = v]: an existing key keeps its position, a new one goes to the
    end. *)
Fixpoint dict_set (k : string) (v : V) (d : list (string * V))
  : list (string * V) :=
  match d with
  | [] => [(k, v)]
  | (k', v') :: d' =>
      if (k =? k')%string then (k, v) :: d' else (k', v') :: dict_set k v d'
  end.
End Dict.

(** [x.get(k, default)] on an arbitrary value: only a dict has [get]. *)
Definition get_default (x : value) (k : string) (default : value)
  : result value :=
  match x with
  | VDict d => Ok (match dict_get k d with Some v => v | None => default end)
  | _ => Raise AttributeError
  end.

(** [x[k]] with a string key. *)
Definition subscript (x : value) (k : string) : result value :=
  match x with
  | VDict d => match dict_get k d with Some v => Ok v | None => Raise KeyError end
  | _ => Raise TypeError
  end.

(** [x.items()]. *)
Definition items (x : value) : result (list (string * value)) :=
  match x with
  | VDict d => Ok d
  | _ => Raise AttributeError
  end.

(** [x.copy()]: a shallow copy; as a tree it is the same value.  Lists and
    dicts have the method, the other values do not. *)
Definition copy (x : value) : result value :=
  match x with
  | VDict d => Ok (VDict d)
  | VList l => Ok (VList l)
  | _ => Raise AttributeError
  end.

(** [x[k] = v] with a string key: a dict stores, a list wants an integer
    index, the other values do not support item assignment. *)
Definition setitem (x : value) (k : string) (v : value) : result value :=
  match x with
  | VDict d => Ok (VDict (dict_set k v d))
  | _ => Raise TypeError
  end.

(** [for e in x]: the elements visited. *)
Definition iterate (x : value) : result (list value) :=
  match x with
  | VList l => Ok l
  | VDict d => Ok (map (fun kv => VStr (fst kv)) d)
  | VStr s => Ok (map (fun c => VStr (String c EmptyString)) (list_ascii_of_string s))
  | _ => Raise TypeError
  end.

End Py.
Import Py.

(** ** The state and exception monad of the handlers *)

(** A computation takes a state and leaves a state, also when it raises:
    what was read or stored before an exception stays so. *)
Definition ST (S A : Type) : Type := S -> result A * S.

Definition ret {S A} (a : A) : ST S A := fun s => (Ok a, s).
Definition raise {S A} (e : exn) : ST S A := fun s => (Raise e, s).
Definition bind {S A B} (m : ST S A) (k : A -> ST S B) : ST S B :=
  fun s => match m s with
           | (Ok a, s') => k a s'
           | (Raise e, s') => (Raise e, s')
           end.
Definition lift {S A} (r : result A) : ST S A := fun s => (r, s).

Declare Scope py_scope.
Delimit Scope py_scope with py.
Notation "'let*' x ':=' m 'in' k" := (bind m (fun x => k))
  (at level 10, x name, m at level 100, k at level 200) : py_scope.

(** In the model on values the state is the number of calls of
    [datetime.now()] made so far. *)
Definition M (A : Type) : Type := ST nat A.

(** ** [datetime]: the parts of CPython's type the program uses *)

Module Datetime.

Record datetime := mkdatetime {
  year : Z; month : Z; day : Z;
  hour : Z; minute : Z; second : Z; microsecond : Z }.

Record timedelta := mktimedelta {
  days : Z; seconds : Z; microseconds : Z }.

Definition is_leap (y : Z) : bool :=
  (y mod 4 =? 0) && (negb (y mod 100 =? 0) || (y mod 400 =? 0)).

Definition days_before_year (y : Z) : Z :=
  let y' := y - 1 in y' * 365 + y' / 4 - y' / 100 + y' / 400.

Definition DAYS_IN_MONTH : list Z :=
  [-1; 31; 28; 31; 30; 31; 30; 31; 31; 30; 31; 30; 31].

Definition DAYS_BEFORE_MONTH : list Z :=
  [-1; 0; 31; 59; 90; 120; 151; 181; 212; 243; 273; 304; 334].

Definition days_in_month (y m : Z) : Z :=
  if (m =? 2) && is_leap y then 29 else nth (Z.to_nat m) DAYS_IN_MONTH 0.

Definition days_before_month (y m : Z) : Z :=
  nth (Z.to_nat m) DAYS_BEFORE_MONTH 0
  + (if (2 <? m) && is_leap y then 1 else 0).

Definition ymd2ord (y m d : Z) : Z :=
  days_before_year y + days_before_month y m + d.

Definition toordinal (t : datetime) : Z :=
  ymd2ord (year t) (month t) (day t).

(** The checks of the [datetime] constructor on the date fields. *)
Definition check_date_fields (y m d : Z) : bool :=
  (1 <=? y) && (y <=? 9999) && (1 <=? m) && (m <=? 12)
  && (1 <=? d) && (d <=? days_in_month y m).

Definition check_time_fields (h mi s us : Z) : bool :=
  (0 <=? h) && (h <=? 23) && (0 <=? mi) && (mi <=? 59)
  && (0 <=? s) && (s <=? 59) && (0 <=? us) && (us <=? 999999).

(** A value the [datetime] type can hold. *)
Definition valid (t : datetime) : bool :=
  check_date_fields (year t) (month t) (day t)
  && check_time_fields (hour t) (minute t) (second t) (microsecond t).

(** [timedelta(days, seconds, microseconds)] on integers: the carries of
    the constructor, with Python's floor [divmod]. *)
Definition new_timedelta (d s us : Z) : timedelta :=
  let s1 := s + us / 1000000 in
  {| days := d + s1 / 86400;
     seconds := s1 mod 86400;
     microseconds := us mod 1000000 |}.

Definition seconds_of_day (t : datetime) : Z :=
  second t + minute t * 60 + hour t * 3600.

(** [a - b] of two naive datetimes. *)
Definition sub (a b : datetime) : timedelta :=
  new_timedelta (toordinal a - toordinal b)
                (seconds_of_day a - seconds_of_day b)
                (microsecond a - microsecond b).

(** *** [strptime(s, "%Y-%m-%d")]

    [_strptime] compiles the format to the regular expression
    [(?P<Y>\d\d\d\d)-(?P<m>1[0-2]|0[1-9]|[1-9])-(?P<d>3[0-1]|[1-2]\d|0[1-9]|[1-9]| [1-9])],
    matches it at the start of the string, rejects a match that leaves
    text over, and builds the date from the three groups.  A parser of a
    group returns its matches in the order the backtracking matcher tries
    them. *)

Definition is_digit (c : ascii) : bool :=
  let n := nat_of_ascii c in (48 <=? n)%nat && (n <=? 57)%nat.

Definition digit (c : ascii) : Z := Z.of_nat (nat_of_ascii c) - 48.

Definition in_range (lo hi : Z) (c : ascii) : bool :=
  is_digit c && (lo <=? digit c) && (digit c <=? hi).

Definition parser (A : Type) : Type := string -> list (A * string).

Definition re_Y : parser Z := fun s =>
  match s with
  | String a (String b (String c (String d r))) =>
      if is_digit a && is_digit b && is_digit c && is_digit d
      then [(digit a * 1000 + digit b * 100 + digit c * 10 + digit d, r)]
      else []
  | _ => []
  end.

(** One alternative of two characters, each in a range of digits. *)
Definition two (lo1 hi1 lo2 hi2 : Z) : parser Z := fun s =>
  match s with
  | String a (String b r) =>
      if in_range lo1 hi1 a && in_range lo2 hi2 b
      then [(digit a * 10 + digit b, r)] else []
  | _ => []
  end.

Definition one (lo hi : Z) : parser Z := fun s =>
  match s with
  | String a r => if in_range lo hi a then [(digit a, r)] else []
  | _ => []
  end.

Definition space_one (lo hi : Z) : parser Z := fun s =>
  match s with
  | String a r => if Ascii.eqb a " "%char then one lo hi r else []
  | _ => []
  end.

Definition alt {A} (p q : parser A) : parser A := fun s => (p s ++ q s)%list.

Definition re_m : parser Z :=
  alt (two 1 1 0 2) (alt (two 0 0 1 9) (one 1 9)).

Definition re_d : parser Z :=
  alt (two 3 3 0 1)
    (alt (two 1 2 0 9) (alt (two 0 0 1 9) (alt (one 1 9) (space_one 1 9)))).

Definition dash : parser unit := fun s =>
  match s with
  | String a r => if Ascii.eqb a "-"%char then [(tt, r)] else []
  | _ => []
  end.

Definition seq {A B} (p : parser A) (k : A -> parser B) : parser B :=
  fun s => flat_map (fun ar => k (fst ar) (snd ar)) (p s).

(** All matches of the whole expression, the first being the one [re.match]
    reports. *)
Definition format_regex : parser (Z * Z * Z) :=
  seq re_Y (fun y => seq dash (fun _ => seq re_m (fun m =>
  seq dash (fun _ => seq re_d (fun d s => [((y, m, d), s)]))))).

Definition strptime_ymd (s : string) : result datetime :=
  match format_regex s with
  | [] => Raise ValueError              (* does not match the format *)
  | ((y, m, d), rest) :: _ =>
      if negb (rest =? "")%string then Raise ValueError (* unconverted data *)
      else if check_date_fields y m d
           then Ok (mkdatetime y m d 0 0 0 0)
           else Raise ValueError        (* year, month or day out of range *)
  end.

End Datetime.
Import Datetime.

(** ** Python's stable [list.sort(key=...)] *)

(** The keys are computed first, in list order, and an exception of the key
    function leaves the sort; the elements are then ordered by [<] on the
    keys alone, equal keys keeping their order.  A stable sort has one
    result, so an insertion sort stands for CPython's merge sort. *)
Module ListSort.
Section Keyed.
Context {A K : Type}.
Variable lt : K -> K -> bool.

Fixpoint insert_keyed (x : K * A) (l : list (K * A)) : list (K * A) :=
  match l with
  | [] => [x]
  | y :: l' => if lt (fst y) (fst x) then y :: insert_keyed x l' else x :: l
  end.

Definition sort_keyed (l : list (K * A)) : list (K * A) :=
  fold_right insert_keyed [] l.

Fixpoint decorate (key : A -> result K) (l : list A) : result (list (K * A)) :=
  match l with
  | [] => Ok []
  | x :: l' =>
      match key x with
      | Raise e => Raise e
      | Ok k => match decorate key l' with
                | Raise e => Raise e
                | Ok kl => Ok ((k, x) :: kl)
                end
      end
  end.

Definition list_sort (key : A -> result K) (l : list A) : result (list A) :=
  match decorate key l with
  | Raise e => Raise e
  | Ok kl => Ok (map snd (sort_keyed kl))
  end.
End Keyed.
End ListSort.
Import ListSort.

(** The keys [sort_key] returns: an [int], or [float('inf')]. *)
Inductive skey :=
| Fin (n : Z)
| Inf.

Definition skey_lt (a b : skey) : bool :=
  match a, b with
  | Fin x, Fin y => x <? y
  | Fin _, Inf => true
  | Inf, _ => false
  end.

(** ** [main.py] *)

(** A path is the list of its components. *)
Definition path := list string.

Fixpoint is_relative_to (p base : path) {struct base} : bool :=
  match base, p with
  | [], _ => true
  | b :: base', c :: p' => (b =? c)%string && is_relative_to p' base'
  | _ :: _, [] => false
  end.

Module Main.
Section Program.
(** The directory of [main.py], the files of the machine (a path that
    cannot be opened has no content), and PyYAML's [safe_load]. *)
Variable app_dir : path.
Variable fs : path -> option string.
Variable safe_load : string -> result value.
(** The n-th call of [datetime.now()] returns [clock n]. *)
Variable clock : nat -> datetime.

Definition datetime_now : M datetime := fun n => (Ok (clock n), S n).

Definition open_read (p : path) : result string :=
  match fs p with
  | Some text => Ok text
  | None => Raise OSError
  end.

Definition load_conferences : result value :=
  let config_path := (app_dir ++ ["data"; "conferences.yaml"])%list in
  if negb (is_relative_to config_path app_dir) then Raise ValueError
  else
    match open_read config_path with
    | Raise e => Raise e
    | Ok f =>
        match safe_load f with
        | Raise e => Raise e
        | Ok data => get_default data "conferences" (VList [])
        end
    end.

(** [datetime.strptime(date_str, "%Y-%m-%d")]: the first argument must be
    a [str]. *)
Definition strptime (date_str : value) : result datetime :=
  match date_str with
  | VStr s => strptime_ymd s
  | _ => Raise TypeError
  end.

Definition parse_date (date_str : value) : result (option datetime) :=
  if negb (truthy date_str) then Ok None
  else match strptime date_str with
       | Ok d => Ok (Some d)
       | Raise e => Raise e
       end.

Definition days_until (date_str : value) : M (option Z) :=
  (if negb (truthy date_str) then ret None
   else
     let* deadline := lift (parse_date date_str) in
     let* today := datetime_now in
     match deadline with
     | Some d => ret (Some (days (sub d today)))
     | None => raise TypeError
     end)%py.

(** The dict appended to [all_deadlines]. *)
Definition deadline_entry (deadline_type : string) (date_str : value) (d : Z)
  : value :=
  VDict [("type", VStr deadline_type); ("date", date_str); ("days", VInt d)].

(** The loop over [conf.get("deadlines", {}).items()]. *)
Fixpoint collect_deadlines (its : list (string * value))
    (all_deadlines : list value) : M (list value) :=
  match its with
  | [] => ret all_deadlines
  | (deadline_type, date_str) :: its' =>
      (let* d := days_until date_str in
       match d with
       | Some n =>
           collect_deadlines its'
             (all_deadlines ++ [deadline_entry deadline_type date_str n])%list
       | None => collect_deadlines its' all_deadlines
       end)%py
  end.

(** An operand of [<] next to an [int]: an [int] or a [bool]. *)
Definition as_int (v : value) : result Z :=
  match v with
  | VInt n => Ok n
  | VBool b => Ok (if b then 1 else 0)
  | _ => Raise TypeError
  end.

(** [lambda x: x["days"]], as a key that [<] compares and that [sort_key]
    compares with [0].  The lists sorted by it hold the entries the loop has
    made, whose [days] are integers. *)
Definition days_key (x : value) : result Z :=
  match subscript x "days" with
  | Ok v => as_int v
  | Raise e => Raise e
  end.

Definition opt_int (o : option Z) : value :=
  match o with Some n => VInt n | None => VNone end.

(** The body of the loop over [conferences]; it returns [conf_copy]. *)
Definition enrich_one (conf : value) : M value :=
  (let* conf_copy := lift (copy conf) in
   let* dl := lift (get_default conf "deadlines" (VDict [])) in
   let* its := lift (items dl) in
   let* all_deadlines := collect_deadlines its [] in
   let* all_deadlines := lift (list_sort Z.ltb days_key all_deadlines) in
   let* conf_copy := lift (setitem conf_copy "all_deadlines" (VList all_deadlines)) in
   let* conf_copy :=
     lift (setitem conf_copy "next_deadline"
             (match all_deadlines with x :: _ => x | [] => VNone end)) in
   let* cd := lift (get_default conf "conference_date" VNone) in
   let* conference_days := days_until cd in
   let* conf_copy :=
     lift (setitem conf_copy "conference_days" (opt_int conference_days)) in
   ret conf_copy)%py.

Fixpoint enrich_loop (confs : list value) (enriched : list value)
  : M (list value) :=
  match confs with
  | [] => ret enriched
  | conf :: confs' =>
      (let* conf_copy := enrich_one conf in
       enrich_loop confs' (enriched ++ [conf_copy])%list)%py
  end.

Definition sort_key (conf : value) : result skey :=
  match subscript conf "next_deadline" with
  | Raise e => Raise e
  | Ok next_deadline =>
      if negb (truthy next_deadline) then Ok Inf
      else
        match days_key next_deadline with
        | Raise e => Raise e
        | Ok d => if d <? 0 then Ok (Fin (10000 + Z.abs d)) else Ok (Fin d)
        end
  end.

Definition enrich_conference_data (conferences : value) : M value :=
  (let* today := datetime_now in
   let* confs := lift (iterate conferences) in
   let* enriched := enrich_loop confs [] in
   let* enriched := lift (list_sort skey_lt sort_key enriched) in
   ret (VList enriched))%py.

(** [GET /api/conferences]. *)
Definition get_conferences : M value :=
  (let* conferences := lift load_conferences in
   enrich_conference_data conferences)%py.

End Program.
End Main.
Import Main.

Definition fixed_clock (now : datetime) : nat -> datetime := fun _ => now.

(** ** The methods of [str] the middleware and the script use *)

Module Str.

(** [c.isspace()] on an 8-bit character. *)
Definition is_space (c : ascii) : bool :=
  let n := nat_of_ascii c in
  ((9 <=? n)%nat && (n <=? 13)%nat) || ((28 <=? n)%nat && (n <=? 32)%nat)
  || (n =? 133)%nat || (n =? 160)%nat.

(** The line boundaries of [str.splitlines] among the 8-bit characters. *)
Definition is_linebreak (c : ascii) : bool :=
  let n := nat_of_ascii c in
  ((10 <=? n)%nat && (n <=? 13)%nat) || ((28 <=? n)%nat && (n <=? 30)%nat)
  || (n =? 133)%nat.

Definition CR : ascii := ascii_of_nat 13.
Definition LF : ascii := ascii_of_nat 10.

(** [s.splitlines()]: a carriage return followed by a line feed is one
    boundary, and a boundary at the end opens no further line. *)
Fixpoint splitlines (s : string) : list string :=
  match s with
  | EmptyString => []
  | String c s' =>
      if is_linebreak c then
        match s' with
        | String c' s'' =>
            if Ascii.eqb c CR && Ascii.eqb c' LF
            then EmptyString :: splitlines s''
            else EmptyString :: splitlines s'
        | EmptyString => EmptyString :: splitlines s'
        end
      else
        match splitlines s' with
        | [] => [String c EmptyString]
        | line :: lines => String c line :: lines
        end
  end.

Fixpoint lstrip (s : string) : string :=
  match s with
  | EmptyString => EmptyString
  | String c s' => if is_space c then lstrip s' else s
  end.

Fixpoint rstrip (s : string) : string :=
  match s with
  | EmptyString => EmptyString
  | String c s' =>
      match rstrip s' with
      | EmptyString => if is_space c then EmptyString else String c EmptyString
      | r => String c r
      end
  end.

(** [s.strip()]. *)
Definition strip (s : string) : string := lstrip (rstrip s).

(** [s.split(sep)] for the separator of two spaces: the occurrences are
    taken from the left and do not overlap. *)
Fixpoint split_two_spaces (s : string) : list string :=
  match s with
  | EmptyString => [EmptyString]
  | String c s' =>
      let keep :=
        match split_two_spaces s' with
        | [] => [String c EmptyString]
        | piece :: pieces => String c piece :: pieces
        end in
      match s' with
      | String c' s'' =>
          if Ascii.eqb c " " && Ascii.eqb c' " "
          then EmptyString :: split_two_spaces s''
          else keep
      | EmptyString => keep
      end
  end.

(** [sep.join(l)]. *)
Fixpoint join (sep : string) (l : list string) : string :=
  match l with
  | [] => EmptyString
  | [x] => x
  | x :: l' => x ++ sep ++ join sep l'
  end.

(** [s[:n]]. *)
Fixpoint take (n : nat) (s : string) : string :=
  match n, s with
  | O, _ => EmptyString
  | _, EmptyString => EmptyString
  | S n', String c s' => String c (take n' s')
  end.

(** [str.lower()] on the 8-bit characters: the letters [A]..[Z] and the
    capital letters of Latin-1. *)
Definition lower_char (c : ascii) : ascii :=
  let n := nat_of_ascii c in
  if ((65 <=? n)%nat && (n <=? 90)%nat)
     || ((192 <=? n)%nat && (n <=? 222)%nat && negb (n =? 215)%nat)
  then ascii_of_nat (n + 32) else c.

Fixpoint lower (s : string) : string :=
  match s with
  | EmptyString => EmptyString
  | String c s' => String (lower_char c) (lower s')
  end.

(** [sub in s]. *)
Fixpoint contains (sub s : string) : bool :=
  String.prefix sub s
  || match s with
     | EmptyString => false
     | String _ s' => contains sub s'
     end.

End Str.

(** ** The middleware of [main.py] *)

Module Starlette.

(** The raw headers of a response: names in lower case, in order, a name
    may occur more than once. *)
Definition raw_headers := list (string * string).

Fixpoint remove_name (k : string) (l : raw_headers) : raw_headers :=
  match l with
  | [] => []
  | (k', v') :: l' =>
      if (k' =? k)%string then remove_name k l' else (k', v') :: remove_name k l'
  end.

(** The entries of [l] with the first one of the name [k] overwritten and
    the later ones removed; [None] when there is none. *)
Fixpoint replace_name (k v : string) (l : raw_headers) : option raw_headers :=
  match l with
  | [] => None
  | (k', v') :: l' =>
      if (k' =? k)%string then Some ((k, v) :: remove_name k l')
      else match replace_name k v l' with
           | Some r => Some ((k', v') :: r)
           | None => None
           end
  end.

(** [MutableHeaders.__setitem__]: the name is put in lower case; the first
    entry of that name takes the value and the other entries of it are
    deleted; a name that has no entry is appended. *)
Definition headers_setitem (key value : string) (l : raw_headers) : raw_headers :=
  let set_key := Str.lower key in
  match replace_name set_key value l with
  | Some l' => l'
  | None => (l ++ [(set_key, value)])%list
  end.

(** A response: its status, its raw headers and its body. *)
Record response (Body : Type) := mkresponse {
  status_code : Z;
  headers : raw_headers;
  body : Body }.
Arguments mkresponse {Body}.
Arguments status_code {Body}.
Arguments headers {Body}.
Arguments body {Body}.

(** [response.headers[key] = value]. *)
Definition set_header {Body} (key value : string) (r : response Body)
  : response Body :=
  mkresponse (status_code r) (headers_setitem key value (headers r)) (body r).

Section Middleware.
Context {S Request Body : Type}.

(** [add_security_headers(request, call_next)]. *)
Definition add_security_headers (request : Request)
    (call_next : Request -> ST S (response Body)) : ST S (response Body) :=
  (let* response := call_next request in
   let response := set_header "X-Content-Type-Options" "nosniff" response in
   let response := set_header "X-Frame-Options" "DENY" response in
   let response := set_header "X-XSS-Protection" "1; mode=block" response in
   let response :=
     set_header "Referrer-Policy" "strict-origin-when-cross-origin" response in
   let response :=
     set_header "Content-Security-Policy"
       "default-src 'self'; style-src 'unsafe-inline' 'self'; script-src 'self'"
       response in
   ret response)%py.

End Middleware.
End Starlette.

(** ** The same program on a heap of objects

    Lists and dicts are objects of a heap and a value refers to them by
    address, so that a store through one reference is seen through every
    other: this model tells [conf_copy] from [conf].  The heap is the list
    of the objects allocated so far, an address is a position in it. *)

Module Heap.

Definition addr := nat.

Inductive hval :=
| HNone
| HBool (b : bool)
| HInt (n : Z)
| HStr (s : string)
| HRef (a : addr).

Inductive obj :=
| OList (l : list hval)
| ODict (d : list (string * hval)).

Record state := mkstate { heap : list obj; ticks : nat }.

Definition H (A : Type) : Type := ST state A.

(** A new object gets the next address. *)
Definition alloc (o : obj) : H addr := fun s =>
  (Ok (length (heap s)), mkstate (heap s ++ [o])%list (ticks s)).

(** No value of a Python program refers to an address that was never
    allocated; the model answers [SystemError] there. *)
Definition load (a : addr) : H obj := fun s =>
  match heap s !! a with
  | Some o => (Ok o, s)
  | None => (Raise SystemError, s)
  end.

Definition store (a : addr) (o : obj) : H unit := fun s =>
  (Ok tt, mkstate (<[a := o]> (heap s)) (ticks s)).

Definition truthy (v : hval) : H bool :=
  match v with
  | HNone => ret false
  | HBool b => ret b
  | HInt n => ret (negb (n =? 0))
  | HStr s => ret (negb (s =? "")%string)
  | HRef a =>
      (let* o := load a in
       ret match o with
           | OList [] | ODict [] => false
           | _ => true
           end)%py
  end.

Definition copy (x : hval) : H hval :=
  match x with
  | HRef a => (let* o := load a in let* a' := alloc o in ret (HRef a'))%py
  | _ => raise AttributeError
  end.

Definition get_default (x : hval) (k : string) (default : hval) : H hval :=
  match x with
  | HRef a =>
      (let* o := load a in
       match o with
       | ODict d => ret (match dict_get k d with Some v => v | None => default end)
       | OList _ => raise AttributeError
       end)%py
  | _ => raise AttributeError
  end.

Definition subscript (x : hval) (k : string) : H hval :=
  match x with
  | HRef a =>
      (let* o := load a in
       match o with
       | ODict d =>
           match dict_get k d with Some v => ret v | None => raise KeyError end
       | OList _ => raise TypeError
       end)%py
  | _ => raise TypeError
  end.

(** The loops of the program store nothing into the object they iterate
    (every store of [enrich_conference_data] goes to an object it has
    allocated itself), so the items are read once. *)
Definition items (x : hval) : H (list (string * hval)) :=
  match x with
  | HRef a =>
      (let* o := load a in
       match o with
       | ODict d => ret d
       | OList _ => raise AttributeError
       end)%py
  | _ => raise AttributeError
  end.

Definition iterate (x : hval) : H (list hval) :=
  match x with
  | HRef a =>
      (let* o := load a in
       match o with
       | OList l => ret l
       | ODict d => ret (map (fun kv => HStr (fst kv)) d)
       end)%py
  | HStr s =>
      ret (map (fun c => HStr (String c EmptyString)) (list_ascii_of_string s))
  | _ => raise TypeError
  end.

Definition setitem (x : hval) (k : string) (v : hval) : H unit :=
  match x with
  | HRef a =>
      (let* o := load a in
       match o with
       | ODict d => store a (ODict (dict_set k v d))
       | OList _ => raise TypeError
       end)%py
  | _ => raise TypeError
  end.

Definition append (x : hval) (v : hval) : H unit :=
  match x with
  | HRef a =>
      (let* o := load a in
       match o with
       | OList l => store a (OList (l ++ [v])%list)
       | ODict _ => raise AttributeError
       end)%py
  | _ => raise AttributeError
  end.

Fixpoint decorate {K} (key : hval -> H K) (l : list hval) : H (list (K * hval)) :=
  match l with
  | [] => ret []
  | x :: l' =>
      (let* k := key x in
       let* kl := decorate key l' in
       ret ((k, x) :: kl))%py
  end.

(** [x.sort(key=...)], in place. *)
Definition sort {K} (lt : K -> K -> bool) (key : hval -> H K) (x : hval)
  : H unit :=
  match x with
  | HRef a =>
      (let* o := load a in
       match o with
       | OList l =>
           let* kl := decorate key l in
           store a (OList (map snd (sort_keyed lt kl)))
       | ODict _ => raise AttributeError
       end)%py
  | _ => raise AttributeError
  end.

Section Main.
Variable clock : nat -> datetime.

Definition datetime_now : H datetime := fun s =>
  (Ok (clock (ticks s)), mkstate (heap s) (S (ticks s))).

Definition strptime (date_str : hval) : result datetime :=
  match date_str with
  | HStr s => strptime_ymd s
  | _ => Raise TypeError
  end.

Definition parse_date (date_str : hval) : H (option datetime) :=
  (let* b := truthy date_str in
   if negb b then ret None
   else let* d := lift (strptime date_str) in ret (Some d))%py.

Definition days_until (date_str : hval) : H (option Z) :=
  (let* b := truthy date_str in
   if negb b then ret None
   else
     let* deadline := parse_date date_str in
     let* today := datetime_now in
     match deadline with
     | Some d => ret (Some (days (sub d today)))
     | None => raise TypeError
     end)%py.

Fixpoint collect_deadlines (its : list (string * hval)) (all_deadlines : hval)
  : H unit :=
  match its with
  | [] => ret tt
  | (deadline_type, date_str) :: its' =>
      (let* d := days_until date_str in
       match d with
       | Some n =>
           let* e := alloc (ODict [("type", HStr deadline_type);
                                   ("date", date_str); ("days", HInt n)]) in
           let* _ := append all_deadlines (HRef e) in
           collect_deadlines its' all_deadlines
       | None => collect_deadlines its' all_deadlines
       end)%py
  end.

Definition as_int (v : hval) : H Z :=
  match v with
  | HInt n => ret n
  | HBool b => ret (if b then 1 else 0)
  | _ => raise TypeError
  end.

Definition days_key (x : hval) : H Z :=
  (let* v := subscript x "days" in as_int v)%py.

Definition opt_int (o : option Z) : hval :=
  match o with Some n => HInt n | None => HNone end.

Definition enrich_one (conf : hval) : H hval :=
  (let* conf_copy := copy conf in
   let* a := alloc (OList []) in
   let all_deadlines := HRef a in
   let* e := alloc (ODict []) in
   let* dl := get_default conf "deadlines" (HRef e) in
   let* its := items dl in
   let* _ := collect_deadlines its all_deadlines in
   let* _ := sort Z.ltb days_key all_deadlines in
   let* _ := setitem conf_copy "all_deadlines" all_deadlines in
   let* l := iterate all_deadlines in
   let* _ := setitem conf_copy "next_deadline"
               (match l with x :: _ => x | [] => HNone end) in
   let* cd := get_default conf "conference_date" HNone in
   let* conference_days := days_until cd in
   let* _ := setitem conf_copy "conference_days" (opt_int conference_days) in
   ret conf_copy)%py.

Fixpoint enrich_loop (confs : list hval) (enriched : hval) : H unit :=
  match confs with
  | [] => ret tt
  | conf :: confs' =>
      (let* conf_copy := enrich_one conf in
       let* _ := append enriched conf_copy in
       enrich_loop confs' enriched)%py
  end.

Definition sort_key (conf : hval) : H skey :=
  (let* next_deadline := subscript conf "next_deadline" in
   let* b := truthy next_deadline in
   if negb b then ret Inf
   else
     let* d := days_key next_deadline in
     if d <? 0 then ret (Fin (10000 + Z.abs d)) else ret (Fin d))%py.

Definition enrich_conference_data (conferences : hval) : H hval :=
  (let* a := alloc (OList []) in
   let enriched := HRef a in
   let* today := datetime_now in
   let* confs := iterate conferences in
   let* _ := enrich_loop confs enriched in
   let* _ := sort skey_lt sort_key enriched in
   ret enriched)%py.
End Main.

End Heap.


(** * [update_deadlines.py]

    A run of the script prints lines and requests pages; it ends by
    returning, by [sys.exit] or by an exception.  The installed packages, the
    files of the machine, the web and the model are parameters. *)

Module Script.

Record world := mkworld {
  stdout : list string;      (* the lines printed so far *)
  requests : list string }.  (* the URLs requested so far *)

Inductive failure :=
| SystemExit (code : Z)
| Exception (message : string).

Inductive outcome (A : Type) :=
| Return (a : A)
| Fail (f : failure).
Arguments Return {A} a.
Arguments Fail {A} f.

Definition IO (A : Type) : Type := world -> outcome A * world.

Definition ret {A} (a : A) : IO A := fun w => (Return a, w).
Definition bind {A B} (m : IO A) (k : A -> IO B) : IO B :=
  fun w => match m w with
           | (Return a, w') => k a w'
           | (Fail f, w') => (Fail f, w')
           end.

Definition print (line : string) : IO unit :=
  fun w => (Return tt, mkworld (stdout w ++ [line]) (requests w)).

(** [sys.exit(code)] raises [SystemExit]. *)
Definition exit {A} (code : Z) : IO A := fun w => (Fail (SystemExit code), w).

(** [try: m except Exception as e: handler(e)]: [SystemExit] is not an
    [Exception] and passes. *)
Definition try_except {A} (m : IO A) (handler : string -> IO A) : IO A :=
  fun w => match m w with
           | (Fail (Exception e), w') => handler e w'
           | r => r
           end.

Declare Scope script_scope.
Delimit Scope script_scope with script.
Notation "'let*' x ':=' m 'in' k" := (bind m (fun x => k))
  (at level 10, x name, m at level 100, k at level 200) : script_scope.
Notation "m ';;' k" := (bind m (fun _ => k))
  (at level 100, k at level 200, right associativity) : script_scope.

Definition nl : string := String Str.LF EmptyString.

Fixpoint repeat_string (s : string) (n : nat) : string :=
  match n with
  | O => EmptyString
  | S n' => s ++ repeat_string s n'
  end.

Definition startswith (s : string) (prefixes : list string) : bool :=
  existsb (fun p => String.prefix p s) prefixes.

(** [l.index(x)] of an element that is in the list. *)
Fixpoint index (x : string) (l : list string) : nat :=
  match l with
  | [] => O
  | y :: l' => if (y =? x)%string then O else S (index x l')
  end.

Definition blocked_hosts : list string :=
  ["localhost"; "127.0.0.1"; "0.0.0.0"; "169.254"; "192.168"; "10."; "172.16"].

Section Program.
(** Whether [requests] and [bs4] are installed. *)
Variable HAS_SCRAPING : bool.
(** [requests.get], [raise_for_status] and the text BeautifulSoup leaves of
    the page without its script, style, nav, footer and header elements; a
    failure is an exception with its message. *)
Variable page_text : string -> string + string.
(** [Path(p).exists()], the names [Path(p).glob("*.gguf")] yields, in its
    order, and the home directory's [.cache/llama-models]. *)
Variable path_exists : string -> bool.
Variable glob_gguf : string -> list string.
Variable cache_dir : string.
(** [extract_with_llama], the call of the model. *)
Variable extract_with_llama : string -> string -> string -> IO string.
Variable argv : list string.

Definition download_model : IO unit :=
  (print "Recommended models for this task:" ;;
   print (nl ++ "1. Llama 3.2 3B (Recommended - good quality, ~2GB)") ;;
   print "   https://huggingface.co/bartowski/Llama-3.2-3B-Instruct-GGUF" ;;
   print "   Download: Llama-3.2-3B-Instruct-Q4_K_M.gguf" ;;
   print (nl ++ "2. Llama 3.2 1B (Faster, smaller - ~1GB)") ;;
   print "   https://huggingface.co/bartowski/Llama-3.2-1B-Instruct-GGUF" ;;
   print "   Download: Llama-3.2-1B-Instruct-Q4_K_M.gguf" ;;
   print (nl ++ "Save the .gguf file to: ./models/") ;;
   print "Then run: uv run python update_deadlines.py https://conference-url")%script.

Definition find_model : option string :=
  let search_paths := ["models"; cache_dir; "."] in
  hd_error
    (flat_map (fun search_path =>
                 if negb (path_exists search_path) then []
                 else glob_gguf search_path)
       search_paths).

(** The text of the page, cleaned of its white space. *)
Definition clean_text (text : string) : string :=
  let lines := map Str.strip (Str.splitlines text) in
  let chunks :=
    flat_map (fun line => map Str.strip (Str.split_two_spaces line)) lines in
  let text := Str.join " " (List.filter (fun chunk => negb (chunk =? "")%string) chunks) in
  Str.take 3000 text.

Definition requests_get (url : string) : IO string :=
  fun w =>
    let w' := mkworld (stdout w) (requests w ++ [url]) in
    match page_text url with
    | inl text => (Return text, w')
    | inr e => (Fail (Exception e), w')
    end.

Definition fetch_webpage (url : string) : IO string :=
  (if negb HAS_SCRAPING then
     print "Error: requests and beautifulsoup4 not installed." ;;
     print "Install with: uv pip install requests beautifulsoup4" ;;
     exit 1
   else if negb (startswith url ["http://"; "https://"]) then
     print "Error: URL must start with http:// or https://" ;;
     exit 1
   else if existsb (fun blocked => Str.contains blocked (Str.lower url))
             blocked_hosts then
     print "Error: Cannot fetch from local/internal addresses" ;;
     exit 1
   else
     print "Fetching webpage..." ;;
     let* text := requests_get url in
     ret (clean_text text))%script.

Definition usage : IO unit :=
  (print "Usage: uv run python update_deadlines.py <conference_url> [options]" ;;
   print (nl ++ "Example:") ;;
   print "  uv run python update_deadlines.py https://neurips.cc" ;;
   print (nl ++ "Options:") ;;
   print "  --download-model     Show model download instructions" ;;
   print "  --model-path PATH    Use specific model file" ;;
   print (nl ++ "Setup:") ;;
   print "  1. Install dependencies: uv pip install llama-cpp-python requests beautifulsoup4" ;;
   print "  2. Download a model: python update_deadlines.py --download-model")%script.

Definition in_argv (x : string) : bool := existsb (String.eqb x) argv.

Definition main : IO unit :=
  (if in_argv "--download-model" then
     download_model ;; exit 0
   else if (length argv <? 2)%nat || startswith (nth 1 argv "") ["--"] then
     usage ;; exit 1
   else
     let url := nth 1 argv "" in
     let model_path :=
       if in_argv "--model-path" then
         let idx := index "--model-path" argv in
         if (idx + 1 <? length argv)%nat then Some (nth (idx + 1) argv "")
         else None
       else find_model in
     match model_path with
     | Some p =>
         if negb (p =? "")%string && path_exists p then
           let* text :=
             try_except (fetch_webpage url)
               (fun e => print ("Error fetching webpage: " ++ e) ;; exit 1) in
           try_except
             (let* result := extract_with_llama url text p in
              print (nl ++ repeat_string "=" 70) ;;
              print "SUGGESTED YAML (review before adding to conferences.yaml):" ;;
              print (repeat_string "=" 70) ;;
              print result ;;
              print (repeat_string "=" 70) ;;
              print (nl ++ "Note: LLM output may need manual review and correction.") ;;
              print "Check dates carefully before adding to conferences.yaml")
             (fun e =>
                print ("Error extracting with LLM: " ++ e) ;;
                print (nl ++ "Fallback: Search the content manually for keywords:") ;;
                print "  deadline, submission, abstract, paper, camera-ready" ;;
                exit 1)
         else
           print "Error: No GGUF model found." ;;
           print (nl ++ "Run: python update_deadlines.py --download-model") ;;
           print "to see download instructions." ;;
           exit 1
     | None =>
         print "Error: No GGUF model found." ;;
         print (nl ++ "Run: python update_deadlines.py --download-model") ;;
         print "to see download instructions." ;;
         exit 1
     end)%script.

End Program.
End Script.

(** ** Words of the specification *)

(** The time that separates two moments, in microseconds. *)
Definition us_per_day : Z := 86400 * 1000000.

Definition total_us (t : datetime) : Z :=
  (toordinal t * 86400 + seconds_of_day t) * 1000000 + microsecond t.

(** The [days] field of an entry of [all_deadlines]. *)
Definition entry_days (e : value) : option Z :=
  match e with
  | VDict d => match dict_get "days" d with Some (VInt n) => Some n | _ => None end
  | _ => None
  end.

(** The days-remaining of the nearest deadline of an enriched record. *)
Definition next_days (r : value) : option Z :=
  match r with
  | VDict d =>
      match dict_get "next_deadline" d with
      | Some e => entry_days e
      | None => None
      end
  | _ => None
  end.

(** An enriched record without a nearest deadline. *)
Definition no_next (r : value) : bool :=
  match r with
  | VDict d => match dict_get "next_deadline" d with Some VNone => true | _ => false end
  | _ => false
  end.


(** The items of the [deadlines] mapping of a record, none when the record
    has no such key. *)
Definition deadlines_of (r : value) : list (string * value) :=
  match r with
  | VDict d => match dict_get "deadlines" d with Some (VDict its) => its | _ => [] end
  | _ => []
  end.

(** The entries of the deadlines that have a date, at the moment [now], in
    the order of the mapping. *)
Definition dated_entries (now : datetime) (its : list (string * value))
  : list value :=
  flat_map (fun kv =>
    if truthy (snd kv) then
      match strptime (snd kv) with
      | Ok d => [deadline_entry (fst kv) (snd kv) (days (sub d now))]
      | Raise _ => []
      end
    else []) its.

(** A date field as the configuration file has it: absent or a string. *)
Definition date_field (v : value) : bool :=
  match v with VNone | VStr _ => true | _ => false end.

(** A conference record: a mapping whose [deadlines], when present, is a
    mapping of date fields and whose [conference_date], when present, is a
    date field.  Other keys are free. *)
Definition wf_conference (v : value) : bool :=
  match v with
  | VDict d =>
      match dict_get "deadlines" d with
      | None => true
      | Some (VDict its) => forallb (fun kv => date_field (snd kv)) its
      | Some _ => false
      end
      && match dict_get "conference_date" d with
         | None => true
         | Some c => date_field c
         end
  | _ => false
  end.

(** A date field that is absent (or the empty string, which [if not
    date_str] treats alike) or that [strptime] accepts. *)
Definition date_ok (v : value) : bool :=
  negb (truthy v) || match strptime v with Ok _ => true | Raise _ => false end.

Definition dates_ok (conf : value) : bool :=
  forallb (fun kv => date_ok (snd kv)) (deadlines_of conf)
  && match conf with
     | VDict d => match dict_get "conference_date" d with
                  | Some c => date_ok c
                  | None => true
                  end
     | _ => true
     end.

(** The strict reading of "YYYY-MM-DD form": four digits, a dash, two
    digits, a dash, two digits. *)
Definition is_yyyy_mm_dd (s : string) : bool :=
  match list_ascii_of_string s with
  | [y1; y2; y3; y4; h1; m1; m2; h2; d1; d2] =>
      is_digit y1 && is_digit y2 && is_digit y3 && is_digit y4
      && Ascii.eqb h1 "-" && is_digit m1 && is_digit m2
      && Ascii.eqb h2 "-" && is_digit d1 && is_digit d2
  | _ => false
  end.

(** The scenario of the specification. *)
Definition conf_A : value :=
  VDict [("name", VStr "A"); ("deadlines", VDict [("paper", VStr "2099-01-01")])].
Definition conf_B : value :=
  VDict [("name", VStr "B"); ("deadlines", VDict [("paper", VStr "2000-01-01")])].
Definition conf_C : value :=
  VDict [("name", VStr "C"); ("deadlines", VDict [])].

Definition name_of (r : value) : value :=
  match r with
  | VDict d => match dict_get "name" d with Some n => n | None => VNone end
  | _ => VNone
  end.

Definition names_of (r : result value) : result (list value) :=
  match r with
  | Ok (VList l) => Ok (map name_of l)
  | Ok _ => Raise TypeError
  | Raise e => Raise e
  end.

(** The entries [collect_deadlines] appends when every date parses: the
    k-th dated deadline is measured at the k-th reading of the clock. *)
Fixpoint entries_from (clock : nat -> datetime) (n : nat)
    (its : list (string * value)) : list value :=
  match its with
  | [] => []
  | (k, v) :: its' =>
      if truthy v then
        match strptime v with
        | Ok d => deadline_entry k v (days (sub d (clock n)))
                  :: entries_from clock (S n) its'
        | Raise _ => entries_from clock n its'
        end
      else entries_from clock n its'
  end.

Definition is_entry (e : value) : Prop :=
  exists k v n, e = deadline_entry k v n.

(** [conf_copy] after the three stores. *)
Definition enriched_record (d : list (string * value)) (entries : list value)
    (conference_days : value) : value :=
  VDict (dict_set "conference_days" conference_days
          (dict_set "next_deadline" (hd VNone entries)
            (dict_set "all_deadlines" (VList entries) d))).

(** A record as the loop leaves it. *)
Definition is_enriched (r : value) : Prop :=
  exists d entries c, r = enriched_record d entries c /\ Forall is_entry entries.

(** The key of an enriched record, from its nearest deadline. *)
Definition key_of_days (o : option Z) : skey :=
  match o with
  | None => Inf
  | Some d => if d <? 0 then Fin (10000 + Z.abs d) else Fin d
  end.




(** A computation whose outcome does not depend on how often the clock was
    read before. *)
Definition steady {A} (m : M A) : Prop := forall n1 n2, fst (m n1) = fst (m n2).

(** Records and moments of the examples. *)


Definition now_2026 : datetime := mkdatetime 2026 11 4 9 30 0 0.

Definition conf_D : value :=
  VDict [("name", VStr "D"); ("deadlines", VDict [("paper", VStr "2010-06-15")])].

Definition conf_PF : value :=
  VDict [("name", VStr "PF");
         ("deadlines", VDict [("abstract", VStr "2000-01-01");
                              ("paper", VStr "2099-01-01")])].

(** A machine with the configuration file and a parser that knows two
    documents. *)
Definition demo_dir : path := ["srv"; "conftracker"].

Definition demo_fs (text : string) : path -> option string := fun p =>
  if List.list_eq_dec String.string_dec p ["srv"; "conftracker"; "data"; "conferences.yaml"]
  then Some text else None.

Definition demo_safe_load (text : string) : result value :=
  if (text =? "conferences: [{name: C}]")%string
  then Ok (VDict [("conferences", VList [VDict [("name", VStr "C")]])])
  else if (text =? "title: none")%string then Ok (VDict [("title", VStr "none")])
  else if (text =? "")%string then Ok VNone
  else Raise YAMLError.

(** ** Words of the further properties *)

(** The time of day, in microseconds since midnight. *)
Definition time_of_day_us (t : datetime) : Z :=
  seconds_of_day t * 1000000 + microsecond t.

(** The character of a decimal digit. *)
Definition digit_char (n : Z) : ascii := ascii_of_nat (Z.to_nat (48 + n)).

Definition pad2 (n : Z) : string :=
  String (digit_char (n / 10)) (String (digit_char (n mod 10)) "").

Definition pad4 (n : Z) : string :=
  String (digit_char (n / 1000))
    (String (digit_char (n / 100 mod 10))
       (String (digit_char (n / 10 mod 10)) (String (digit_char (n mod 10)) ""))).

(** [date(y, m, d).isoformat()]: the form [YYYY-MM-DD], with leading
    zeros. *)
Definition isoformat (y m d : Z) : string :=
  pad4 y ++ "-" ++ pad2 m ++ "-" ++ pad2 d.

(** A parser that takes between [lo] and [hi] characters off the text. *)
Definition consumes {A} (lo hi : nat) (p : parser A) : Prop :=
  forall s a r, In (a, r) (p s) ->
    (String.length r + lo <= String.length s <= String.length r + hi)%nat.







(** Equality of the keys of [sort_key]. *)
Definition skey_eqb (a b : skey) : bool :=
  match a, b with
  | Fin x, Fin y => x =? y
  | Inf, Inf => true
  | _, _ => false
  end.

(** The records of a list whose key is [k], in the order of the list. *)
Definition with_key (k : skey) (l : list value) : list value :=
  List.filter (fun r => skey_eqb (key_of_days (next_days r)) k) l.

(** The entries of a list whose days-remaining is [k], in the order of the
    list. *)
Definition with_days (k : Z) (l : list value) : list value :=
  List.filter (fun e => match entry_days e with Some n => n =? k | None => false end) l.

(** The keys the enrichment stores. *)
Definition derived_key (k : string) : bool :=
  (k =? "all_deadlines")%string || (k =? "next_deadline")%string
  || (k =? "conference_days")%string.

(** An enriched record next to the record it was made from: a mapping with
    the same value under every key that is not a derived one. *)
Definition keeps_fields (conf r : value) : Prop :=
  exists d d', conf = VDict d /\ r = VDict d'
    /\ forall k, derived_key k = false -> dict_get k d' = dict_get k d.

(** The [conference_days] of a record at the moment [now]. *)
Definition conference_days_at (now : datetime) (conf : value) : value :=
  match conf with
  | VDict d =>
      match dict_get "conference_date" d with
      | Some v =>
          if truthy v then
            match strptime v with
            | Ok t => VInt (days (sub t now))
            | Raise _ => VNone
            end
          else VNone
      | None => VNone
      end
  | _ => VNone
  end.


(** The headers the middleware sets, as the response carries them. *)
Definition security_headers : list (string * string) :=
  [("x-content-type-options", "nosniff");
   ("x-frame-options", "DENY");
   ("x-xss-protection", "1; mode=block");
   ("referrer-policy", "strict-origin-when-cross-origin");
   ("content-security-policy",
    "default-src 'self'; style-src 'unsafe-inline' 'self'; script-src 'self'")].

(** The entries of the name [k], in order. *)
Definition entries_of (k : string) (l : Starlette.raw_headers) : Starlette.raw_headers :=
  List.filter (fun kv => (fst kv =? k)%string) l.

Definition security_name (k : string) : bool :=
  existsb (fun kv => (fst kv =? k)%string) security_headers.

(** The entries of the other names, in order. *)
Definition other_headers (l : Starlette.raw_headers) : Starlette.raw_headers :=
  List.filter (fun kv => negb (security_name (fst kv))) l.

(** *** The text [fetch_webpage] returns *)

(** No two spaces in a row. *)
Fixpoint single_spaced (s : string) : bool :=
  match s with
  | EmptyString => true
  | String c s' =>
      match s' with
      | String c' _ => negb (Ascii.eqb c " " && Ascii.eqb c' " ")
      | EmptyString => true
      end && single_spaced s'
  end.

(** No line boundary. *)
Fixpoint no_linebreak (s : string) : bool :=
  match s with
  | EmptyString => true
  | String c s' => negb (Str.is_linebreak c) && no_linebreak s'
  end.

(** The first character, if any, is not white space. *)
Definition head_ok (s : string) : bool :=
  match s with
  | EmptyString => true
  | String c _ => negb (Str.is_space c)
  end.

(** The last character, if any, is not white space. *)
Fixpoint last_ok (s : string) : bool :=
  match s with
  | EmptyString => true
  | String c EmptyString => negb (Str.is_space c)
  | String _ s' => last_ok s'
  end.

(** The characters of a text that are not white space, in order. *)
Fixpoint non_space (s : string) : list ascii :=
  match s with
  | EmptyString => []
  | String c s' => if Str.is_space c then non_space s' else c :: non_space s'
  end.

(** The text [sub] occurs in the text [s]. *)
Definition occurs_in (sub s : string) : Prop := exists a b, s = a ++ sub ++ b.

(** A URL the guard of [fetch_webpage] refuses. *)
Definition refused (url : string) : Prop :=
  (forall rest, url <> "http://" ++ rest /\ url <> "https://" ++ rest)
  \/ exists blocked,
       In blocked Script.blocked_hosts /\ occurs_in blocked (Str.lower url).

(** A run that ends by [sys.exit(code)] and has requested nothing. *)
Definition exits (code : Z) (w : Script.world)
    (r : Script.outcome unit * Script.world) : Prop :=
  fst r = Script.Fail (Script.SystemExit code)
  /\ Script.requests (snd r) = Script.requests w.

(** Further records and documents of the examples. *)
Definition conf_same_day : value :=
  VDict [("name", VStr "S");
         ("deadlines", VDict [("paper", VStr "2099-01-01");
                              ("abstract", VStr "2099-1-1");
                              ("workshop", VStr "2027-03-01")])].

Definition conf_near : value :=
  VDict [("name", VStr "N");
         ("deadlines", VDict [("paper", VStr "2027-01-15")]);
         ("conference_date", VStr "2027-07-01")].

Definition conf_E : value :=
  VDict [("name", VStr "E"); ("deadlines", VDict [])].

(** A parser that knows the document whose [conferences] is [null]. *)
Definition null_safe_load (text : string) : result value :=
  if (text =? "conferences:")%string then Ok (VDict [("conferences", VNone)])
  else Raise ValueError.

(** A handler whose response sets a security header itself, twice. *)
Definition demo_call_next (request : unit)
  : ST nat (Starlette.response string) :=
  fun s =>
    (Ok (Starlette.mkresponse 200
           [("content-type", "application/json");
            ("x-frame-options", "SAMEORIGIN");
            ("set-cookie", "a=1");
            ("x-frame-options", "ALLOWALL");
            ("set-cookie", "b=2")]
           "[]"), s).

(** The web of the examples has one page, and the machine one model. *)
Definition demo_page (url : string) : string + string :=
  inl ("  Call for  papers " ++ Script.nl ++ Script.nl
       ++ " Deadline:   2027-01-01 ").

Definition demo_world : Script.world := Script.mkworld [] [].

Definition demo_llama (url text model_path : string) : Script.IO string :=
  Script.ret "- name: X".


(** ** Words for the heap *)

Module HeapSpec.
Import Heap.

(** A reference to an object allocated after the heap [h0]. *)
Definition fresh (h0 : list obj) (v : hval) : Prop :=
  exists a, v = HRef a /\ (length h0 <= a)%nat.

(** A value that is no reference to an object of [h0]: a store through it
    leaves [h0] alone. *)
Definition outside (h0 : list obj) (v : hval) : Prop :=
  forall a, v = HRef a -> (length h0 <= a)%nat.

(** [m] leaves the objects of [h0] as they are, and its result has [Q]. *)
Definition keeps (h0 : list obj) {A} (m : H A) (Q : A -> Prop) : Prop :=
  forall s, h0 `prefix_of` heap s ->
    h0 `prefix_of` heap (snd (m s)) /\ (forall a, fst (m s) = Ok a -> Q a).

(** Computations that only read. *)
Definition readonly {A} (m : H A) : Prop := forall s, snd (m s) = s.

(** The list [enriched] holds copies only, through the whole loop. *)
Definition copies_at (h0 : list obj) (a0 : addr) (s : state) : Prop :=
  h0 `prefix_of` heap s
  /\ exists l, heap s !! a0 = Some (OList l) /\ Forall (fresh h0) l.

(** A heap with the scenario of the specification: the list of the
    conferences at address 0, the records and their deadlines after it. *)
Definition scenario_heap : list obj :=
  [ OList [HRef 1%nat; HRef 3%nat; HRef 5%nat];
    ODict [("name", HStr "A"); ("deadlines", HRef 2%nat)];
    ODict [("paper", HStr "2099-01-01")];
    ODict [("name", HStr "B"); ("deadlines", HRef 4%nat)];
    ODict [("paper", HStr "2000-01-01")];
    ODict [("name", HStr "C"); ("deadlines", HRef 6%nat)];
    ODict [] ].

(** What of a heap a reader may look at. *)
Definition view : Type := addr -> option obj.

Definition full (h : list obj) : view := fun a => h !! a.

(** The heap without the objects at the addresses [A] holds for. *)
Definition masked (A : addr -> bool) (h : list obj) : view :=
  fun a => if A a then None else h !! a.

(** The value a heap value stands for in the view [L], followed through
    references to the depth [fuel]; none when a reference leaves the view
    or the depth is not enough. *)
Fixpoint reify_in (L : view) (fuel : nat) (v : hval) : option value :=
  match v with
  | HNone => Some VNone
  | HBool b => Some (VBool b)
  | HInt n => Some (VInt n)
  | HStr s => Some (VStr s)
  | HRef a =>
      match fuel with
      | O => None
      | S fuel' =>
          match L a with
          | None => None
          | Some (OList l) => option_map VList (mapM (reify_in L fuel') l)
          | Some (ODict d) =>
              option_map VDict
                (mapM (fun kv =>
                         option_map (pair (fst kv)) (reify_in L fuel' (snd kv)))
                      d)
          end
      end
  end.

(** [v] stands for the value [t]. *)
Definition rep (L : view) (v : hval) (t : value) : Prop :=
  exists fuel, reify_in L fuel v = Some t.

(** The items of a dict object and of the dict they stand for. *)
Definition drel (L : view) (d : list (string * hval))
    (dt : list (string * value)) : Prop :=
  Forall2 (fun kv kt => fst kv = fst kt /\ rep L (snd kv) (snd kt)) d dt.

(** [L'] shows what [L] shows. *)
Definition sub_view (L L' : view) : Prop :=
  forall a o, L a = Some o -> L' a = Some o.

(** Results that correspond: related values, or the same exception. *)
Definition sim_res {A B} (R : A -> B -> Prop) (r : result A) (r' : result B)
  : Prop :=
  match r, r' with
  | Ok a, Ok b => R a b
  | Raise e, Raise e' => e = e'
  | _, _ => False
  end.

(** [mh] on the heap does what [mt] does on values: from a heap with [P]
    and the same count of clock readings both return, with [Q] on what they
    return and on the heap left, or both raise the same exception; the
    clock has been read as often. *)
Definition sim {A B} (P : list obj -> Prop) (mh : H A) (mt : M B)
    (Q : A -> B -> list obj -> Prop) : Prop :=
  forall s, P (heap s) ->
    ticks (snd (mh s)) = snd (mt (ticks s))
    /\ sim_res (fun a b => Q a b (heap (snd (mh s))))
         (fst (mh s)) (fst (mt (ticks s))).

(** The heap [h] holds what [L] shows. *)
Definition below (L : view) (h : list obj) : Prop := sub_view L (full h).

(** The entry of a deadline, as an object. *)
Definition entry_obj (k sd : string) (n : Z) : obj :=
  ODict [("type", HStr k); ("date", HStr sd); ("days", HInt n)].

(** A reference to an entry allocated by this call, and the entry. *)
Definition entry_rel (h0 h : list obj) (r : hval) (t : value) : Prop :=
  exists e k sd n,
    r = HRef e /\ (length h0 + 3 <= e)%nat /\ h !! e = Some (entry_obj k sd n)
    /\ t = deadline_entry k (VStr sd) n.

(** The heap while a record is enriched: [conf_copy], at the first new
    address, holds [dc]; [all_deadlines], at the next, holds [refs],
    references to the entries [ents]. *)
Definition during (h0 : list obj) (dc : list (string * hval)) (refs : list hval)
    (ents : list value) (h : list obj) : Prop :=
  h0 `prefix_of` h
  /\ h !! length h0 = Some (ODict dc)
  /\ h !! S (length h0) = Some (OList refs)
  /\ (length h0 + 3 <= length h)%nat
  /\ Forall2 (entry_rel h0 h) refs ents.

(** A value of [conf_copy] and the value it stands for, whatever the heap
    becomes while the record is enriched. *)
Definition vrel (A : addr -> bool) (h0 : list obj) (refs : list hval)
    (ents : list value) (v : hval) (t : value) : Prop :=
  forall h dc, during h0 dc refs ents h -> rep (masked A h) v t.

(** The items of [conf_copy] and of the dict they stand for. *)
Definition crel (A : addr -> bool) (h0 : list obj) refs ents
    (dc : list (string * hval)) (dtc : list (string * value)) : Prop :=
  Forall2 (fun kv kt => fst kv = fst kt /\ vrel A h0 refs ents (snd kv) (snd kt))
    dc dtc.

(** The heap while the records are enriched: the list [enriched], at the
    first new address, holds references to the copies made so far, which
    stand for the records [acc] without a look at that list. *)
Definition enriching (h0 : list obj) (acc : list value) (h : list obj) : Prop :=
  h0 `prefix_of` h
  /\ exists refs,
       h !! length h0 = Some (OList refs)
       /\ Forall2 (rep (masked (fun b => Nat.eqb b (length h0)) h)) refs acc.

(** Two runs on the heap whose outcomes are the same: the same exception,
    or two lists that stand for one value in the heap the second run
    leaves. *)
Definition same_output (r1 r2 : result hval * state) : Prop :=
  sim_res (fun v1 v2 =>
             exists t, rep (full (heap (snd r2))) v1 t
                       /\ rep (full (heap (snd r2))) v2 t)
    (fst r1) (fst r2).
End HeapSpec.

(** * Proofs *)

Arguments sub : simpl never.
Arguments days : simpl never.
Arguments strptime_ymd : simpl never.
Arguments deadline_entry : simpl never.

(** ** The monad *)

Lemma bind_inv {S A B} (m : ST S A) (k : A -> ST S B) s r s' :
  bind m k s = (r, s') ->
  (exists a s1, m s = (Ok a, s1) /\ k a s1 = (r, s'))
  \/ (exists e, m s = (Raise e, s') /\ r = Raise e).
Proof.
  unfold bind. destruct (m s) as [[a|e] s1]; intros E.
  - left. eauto.
  - right. inversion E; subst. eauto.
Qed.

Lemma bind_ok_inv {S A B} (m : ST S A) (k : A -> ST S B) s b s' :
  bind m k s = (Ok b, s') ->
  exists a s1, m s = (Ok a, s1) /\ k a s1 = (Ok b, s').
Proof.
  intros E. apply bind_inv in E as [E | (e & _ & E)]; [exact E | discriminate].
Qed.

Lemma lift_ok_inv {S A} (r : result A) (s s' : S) a :
  lift r s = (Ok a, s') -> r = Ok a /\ s' = s.
Proof. unfold lift. intros E. inversion E; subst. auto. Qed.

Lemma ret_ok_inv {S A} (x a : A) (s s' : S) :
  ret x s = (Ok a, s') -> a = x /\ s' = s.
Proof. unfold ret. intros E. inversion E; subst. auto. Qed.

(** Steps through the binds of a computation that is known to return. *)
Ltac step_ok H a E :=
  let s := fresh "s" in apply bind_ok_inv in H as (a & s & E & H).

Ltac step_lift H a E :=
  step_ok H a E; apply lift_ok_inv in E as [E ->].

(** ** Dictionaries *)

Lemma dict_get_set_eq {V} k (v : V) d : dict_get k (dict_set k v d) = Some v.
Proof.
  induction d as [|[k' v'] d IH]; simpl.
  - now rewrite String.eqb_refl.
  - destruct (k =? k')%string eqn:E; simpl.
    + now rewrite String.eqb_refl.
    + now rewrite E.
Qed.

Lemma dict_get_set_ne {V} k k' (v : V) d :
  k <> k' -> dict_get k (dict_set k' v d) = dict_get k d.
Proof.
  intros Hne. induction d as [|[k0 v0] d IH]; simpl.
  - apply String.eqb_neq in Hne. now rewrite Hne.
  - destruct (k' =? k0)%string eqn:E; simpl.
    + apply String.eqb_eq in E. subst k0.
      apply String.eqb_neq in Hne. now rewrite Hne.
    + destruct (k =? k0)%string; [reflexivity | exact IH].
Qed.

(** ** The stable sort *)

Section SortFacts.
Context {A K : Type}.
Variable lt : K -> K -> bool.
Hypothesis lt_asym : forall a b, lt a b = true -> lt b a = false.
Hypothesis ge_trans :
  forall a b c, lt b a = false -> lt c b = false -> lt c a = false.

(** [a] may stand before [b]. *)
Definition key_le (x y : K * A) : Prop := lt (fst y) (fst x) = false.

Lemma insert_keyed_perm x (l : list (K * A)) :
  Permutation (insert_keyed lt x l) (x :: l).
Proof.
  induction l as [|y l IH]; simpl; [reflexivity|].
  destruct (lt (fst y) (fst x)); [|reflexivity].
  rewrite IH. apply perm_swap.
Qed.

Lemma sort_keyed_perm (l : list (K * A)) : Permutation (sort_keyed lt l) l.
Proof.
  induction l as [|x l IH]; simpl; [reflexivity|].
  rewrite insert_keyed_perm. now constructor.
Qed.

Lemma insert_keyed_sorted x (l : list (K * A)) :
  StronglySorted key_le l -> StronglySorted key_le (insert_keyed lt x l).
Proof using lt_asym ge_trans.
  induction 1 as [|y l Hl IH Hy]; simpl.
  - repeat constructor.
  - destruct (lt (fst y) (fst x)) eqn:E.
    + constructor; [exact IH|].
      rewrite insert_keyed_perm. constructor; [|exact Hy].
      unfold key_le. now apply lt_asym.
    + constructor; [now constructor|].
      constructor; [exact E|].
      eapply Forall_impl; [exact Hy|].
      intros z Hz. unfold key_le in *. eapply ge_trans; eassumption.
Qed.

Lemma sort_keyed_sorted (l : list (K * A)) :
  StronglySorted key_le (sort_keyed lt l).
Proof using lt_asym ge_trans.
  induction l; simpl; [constructor | now apply insert_keyed_sorted].
Qed.

Lemma decorate_inv (key : A -> result K) l kl :
  decorate key l = Ok kl ->
  map snd kl = l /\ Forall (fun kx => key (snd kx) = Ok (fst kx)) kl.
Proof.
  revert kl. induction l as [|x l IH]; simpl; intros kl E.
  - inversion E; subst. split; constructor.
  - destruct (key x) as [k|] eqn:Ek; [|discriminate].
    destruct (decorate key l) as [kl'|]; [|discriminate].
    inversion E; subst. destruct (IH _ eq_refl) as [IH1 IH2].
    split; simpl; [now rewrite IH1 | now constructor].
Qed.

Lemma decorate_total (key : A -> result K) l :
  Forall (fun x => exists k, key x = Ok k) l -> exists kl, decorate key l = Ok kl.
Proof.
  induction 1 as [|x l [k Hk] _ [kl IH]]; simpl; [eauto|].
  rewrite Hk, IH. eauto.
Qed.

(** The order [list.sort] establishes, on the elements. *)
Definition sorted_by (key : A -> result K) (x y : A) : Prop :=
  exists kx ky, key x = Ok kx /\ key y = Ok ky /\ lt ky kx = false.

Lemma list_sort_perm (key : A -> result K) (l l' : list A) :
  list_sort lt key l = Ok l' -> Permutation l' l.
Proof.
  unfold list_sort. destruct (decorate key l) as [kl|] eqn:E; [|discriminate].
  intros E'. inversion E'; subst. apply decorate_inv in E as [E _].
  rewrite <- E. apply Permutation_map, sort_keyed_perm.
Qed.

Lemma list_sort_sorted (key : A -> result K) (l l' : list A) :
  list_sort lt key l = Ok l' -> StronglySorted (sorted_by key) l'.
Proof using lt_asym ge_trans.
  unfold list_sort. destruct (decorate key l) as [kl|] eqn:E; [|discriminate].
  intros E'. inversion E'; subst. apply decorate_inv in E as [_ E].
  assert (Hf : Forall (fun kx => key (snd kx) = Ok (fst kx)) (sort_keyed lt kl)).
  { rewrite sort_keyed_perm. exact E. }
  pose proof (sort_keyed_sorted kl) as Hs.
  induction Hs as [|x l0 Hl IH Hx]; simpl; [constructor|].
  inversion Hf as [|? ? Hkx Hf']; subst.
  constructor; [now apply IH|].
  rewrite Forall_map.
  rewrite Forall_forall in Hx, Hf'. apply Forall_forall. intros y Hy.
  exists (fst x), (fst y). repeat split; auto. now apply Hx.
Qed.

Lemma list_sort_total (key : A -> result K) (l : list A) :
  Forall (fun x => exists k, key x = Ok k) l -> exists l', list_sort lt key l = Ok l'.
Proof.
  intros Hl. destruct (decorate_total key l Hl) as [kl E].
  unfold list_sort. rewrite E. eauto.
Qed.
End SortFacts.

(** ** Orders on the keys *)

Lemma Zltb_asym a b : (a <? b) = true -> (b <? a) = false.
Proof. intros H. apply Z.ltb_lt in H. apply Z.ltb_ge. lia. Qed.

Lemma Zltb_ge_trans a b c :
  (b <? a) = false -> (c <? b) = false -> (c <? a) = false.
Proof. rewrite !Z.ltb_ge. lia. Qed.

Lemma skey_lt_asym a b : skey_lt a b = true -> skey_lt b a = false.
Proof.
  destruct a, b; simpl; try congruence. apply Zltb_asym.
Qed.

Lemma skey_lt_ge_trans a b c :
  skey_lt b a = false -> skey_lt c b = false -> skey_lt c a = false.
Proof.
  destruct a, b, c; simpl; try congruence. apply Zltb_ge_trans.
Qed.

(** ** Days between two moments *)

Lemma days_sub_floor a b :
  days (sub a b) = (total_us a - total_us b) / us_per_day.
Proof.
  unfold sub, new_timedelta, total_us, us_per_day. cbn [days].
  set (d := toordinal a - toordinal b).
  set (s := seconds_of_day a - seconds_of_day b).
  set (u := microsecond a - microsecond b).
  replace ((toordinal a * 86400 + seconds_of_day a) * 1000000 + microsecond a
           - ((toordinal b * 86400 + seconds_of_day b) * 1000000 + microsecond b))
    with ((d * 86400 + s) * 1000000 + u) by (unfold d, s, u; ring).
  rewrite (Z.mul_comm 86400 1000000), <- Z.div_div by lia.
  rewrite Z.div_add_l by lia.
  replace (d * 86400 + s + u / 1000000) with (d * 86400 + (s + u / 1000000)) by ring.
  now rewrite Z.div_add_l by lia.
Qed.

Lemma strptime_ymd_nonempty s d : strptime_ymd s = Ok d -> truthy (VStr s) = true.
Proof. destruct s; [discriminate | reflexivity]. Qed.

(** [days_until] reads the clock once, and only for a date that parses. *)
Lemma days_until_spec clock v n :
  days_until clock v n =
    if negb (truthy v) then (Ok None, n)
    else match strptime v with
         | Ok d => (Ok (Some (days (sub d (clock n)))), S n)
         | Raise e => (Raise e, n)
         end.
Proof.
  unfold days_until, parse_date.
  destruct (negb (truthy v)); [reflexivity|].
  unfold bind, lift, datetime_now, ret. now destruct (strptime v).
Qed.

(** C3 as the specification states it fails: a deadline at the next midnight,
    seen at noon, is strictly in the future and its days-remaining is [0],
    which is not positive. *)
Lemma days_until_future_not_positive :
  valid (mkdatetime 2099 1 1 12 0 0 0) = true
  /\ strptime_ymd "2099-01-02" = Ok (mkdatetime 2099 1 2 0 0 0 0)
  /\ total_us (mkdatetime 2099 1 1 12 0 0 0)
     < total_us (mkdatetime 2099 1 2 0 0 0 0)
  /\ fst (days_until (fixed_clock (mkdatetime 2099 1 1 12 0 0 0))
            (VStr "2099-01-02") 0%nat) = Ok (Some 0)
  /\ ~ 0 < 0.
Proof. repeat split; try reflexivity. lia. Qed.

(** C3, amended: for a deadline date strictly in the future, days-remaining
    is the floor of the time between the current moment and the midnight
    that begins the deadline date, counted in days; it is not negative, and
    it is positive exactly when the deadline is a full day away or more. *)
Theorem days_until_future clock s d n :
  strptime_ymd s = Ok d ->
  total_us (clock n) < total_us d ->
  let floor_days := (total_us d - total_us (clock n)) / us_per_day in
  fst (days_until clock (VStr s) n) = Ok (Some floor_days)
  /\ 0 <= floor_days
  /\ (0 < floor_days <-> us_per_day <= total_us d - total_us (clock n)).
Proof.
  intros Hs Hlt floor_days.
  rewrite days_until_spec, (strptime_ymd_nonempty _ _ Hs).
  cbn [negb strptime]. rewrite Hs. cbn [fst].
  rewrite days_sub_floor. fold floor_days.
  assert (Hpos : 0 < us_per_day) by (unfold us_per_day; lia).
  split; [reflexivity|]. split.
  - apply Z.div_pos; lia.
  - unfold floor_days. split; intros H.
    + destruct (Z_lt_le_dec (total_us d - total_us (clock n)) us_per_day) as [Hs'|]; [|assumption].
      rewrite Z.div_small in H by lia. lia.
    + apply Z.div_str_pos. lia.
Qed.

Lemma days_until_future_witness :
  fst (days_until (fixed_clock (mkdatetime 2026 11 4 9 30 0 0))
         (VStr "2099-01-01") 0%nat) = Ok (Some 26355).
Proof.
  apply (days_until_future (fixed_clock (mkdatetime 2026 11 4 9 30 0 0))
           "2099-01-01" (mkdatetime 2099 1 1 0 0 0 0) 0%nat).
  - reflexivity.
  - vm_compute. reflexivity.
Defined.

(** ** The loop over the deadlines of a record *)


Lemma entries_from_fixed now n its :
  entries_from (fixed_clock now) n its = dated_entries now its.
Proof.
  revert n. induction its as [|[k v] its IH]; intros n; simpl; [reflexivity|].
  destruct (truthy v); [|apply IH].
  destruct (strptime v); [|apply IH].
  simpl. now rewrite IH.
Qed.

Lemma entries_from_shape clock n its : Forall is_entry (entries_from clock n its).
Proof.
  revert n. induction its as [|[k v] its IH]; intros n; simpl; [constructor|].
  destruct (truthy v); [|apply IH].
  destruct (strptime v); [|apply IH].
  constructor; [|apply IH]. unfold is_entry. eauto.
Qed.

Lemma collect_deadlines_ok clock its acc n l n' :
  collect_deadlines clock its acc n = (Ok l, n') ->
  l = (acc ++ entries_from clock n its)%list
  /\ forallb (fun kv => date_ok (snd kv)) its = true.
Proof.
  revert acc n. induction its as [|[k v] its IH]; intros acc n; simpl.
  - intros E. apply ret_ok_inv in E as [-> _]. now rewrite app_nil_r.
  - unfold bind. rewrite days_until_spec. unfold date_ok.
    destruct (truthy v); simpl.
    + destruct (strptime v) as [d|e]; [|discriminate].
      intros E. apply IH in E as [-> E]. split; [|exact E].
      now rewrite <- app_assoc.
    + apply IH.
Qed.

Lemma collect_deadlines_total clock its acc n :
  forallb (fun kv => date_ok (snd kv)) its = true ->
  exists n', collect_deadlines clock its acc n
             = (Ok (acc ++ entries_from clock n its)%list, n').
Proof.
  revert acc n. induction its as [|[k v] its IH]; intros acc n; simpl.
  - intros _. exists n. unfold ret. now rewrite app_nil_r.
  - unfold bind. rewrite days_until_spec. unfold date_ok.
    destruct (truthy v); simpl.
    + destruct (strptime v) as [d|e]; [|discriminate].
      intros E. destruct (IH (acc ++ [deadline_entry k v (days (sub d (clock n)))])%list
                             (S n) E) as [n' E'].
      exists n'. rewrite E'. now rewrite <- app_assoc.
    + apply IH.
Qed.

(** On date fields the only failure is a string that [strptime] rejects. *)
Lemma date_field_strptime v :
  date_field v = true -> date_ok v = false -> strptime v = Raise ValueError.
Proof.
  unfold date_ok. destruct v; try discriminate; simpl.
  intros _. destruct (negb (s =? "")%string); simpl; [|discriminate].
  unfold strptime_ymd.
  destruct (format_regex s) as [|[[[y m] d] rest] ?]; [reflexivity|].
  destruct (negb (rest =? "")%string); [reflexivity|].
  destruct (check_date_fields y m d); [discriminate | reflexivity].
Qed.

Lemma date_not_ok_truthy v : date_ok v = false -> truthy v = true.
Proof. unfold date_ok. destruct (truthy v); [reflexivity | discriminate]. Qed.

Lemma days_until_fails clock v n :
  date_field v = true -> date_ok v = false ->
  days_until clock v n = (Raise ValueError, n).
Proof.
  intros Hf Hn. rewrite days_until_spec, (date_not_ok_truthy _ Hn).
  simpl. now rewrite (date_field_strptime _ Hf Hn).
Qed.

Lemma collect_deadlines_fails clock its acc n :
  forallb (fun kv => date_field (snd kv)) its = true ->
  forallb (fun kv => date_ok (snd kv)) its = false ->
  exists n', collect_deadlines clock its acc n = (Raise ValueError, n').
Proof.
  revert acc n. induction its as [|[k v] its IH]; intros acc n; simpl;
    [discriminate|].
  intros Hf Hn. apply andb_prop in Hf as [Hv Hf].
  unfold bind. destruct (date_ok v) eqn:Ev; simpl in Hn.
  - rewrite days_until_spec. unfold date_ok in Ev.
    destruct (truthy v); simpl in *.
    + destruct (strptime v); [|discriminate]. now apply IH.
    + now apply IH.
  - rewrite (days_until_fails _ _ _ Hv Ev). eauto.
Qed.

(** ** One record *)


Lemma hd_match (l : list value) :
  match l with x :: _ => x | [] => VNone end = hd VNone l.
Proof. now destruct l. Qed.

Lemma days_key_entry e : is_entry e -> exists n, days_key e = Ok n /\ entry_days e = Some n.
Proof. intros (k & v & n & ->). exists n. split; reflexivity. Qed.

Lemma sort_entries_total l :
  Forall is_entry l -> exists l', list_sort Z.ltb days_key l = Ok l'.
Proof.
  intros Hl. apply list_sort_total.
  eapply Forall_impl; [exact Hl|]. intros e He.
  destruct (days_key_entry e He) as (n & Hn & _). eauto.
Qed.

Lemma enrich_one_ok clock conf n r n' :
  enrich_one clock conf n = (Ok r, n') ->
  exists d entries cdays,
    conf = VDict d
    /\ list_sort Z.ltb days_key (entries_from clock n (deadlines_of conf)) = Ok entries
    /\ r = enriched_record d entries cdays
    /\ dates_ok conf = true.
Proof.
  unfold enrich_one. intros E.
  step_lift E conf_copy Ecopy.
  step_lift E dl Eget.
  step_lift E its Eits.
  step_ok E l Ecoll. apply collect_deadlines_ok in Ecoll as [-> Hok].
  step_lift E entries Esort.
  step_lift E copy1 Eset1.
  step_lift E copy2 Eset2.
  step_lift E cd Ecd.
  step_ok E cdays Edays.
  step_lift E copy3 Eset3.
  apply ret_ok_inv in E as [-> ->].
  destruct conf as [| | | | |d]; try discriminate.
  simpl in Ecopy, Eget, Ecd.
  inversion Ecopy; subst conf_copy. inversion Eget; subst dl.
  inversion Ecd; subst cd. clear Ecopy Eget Ecd.
  simpl in Eset1. inversion Eset1; subst copy1. clear Eset1.
  simpl in Eset2. inversion Eset2; subst copy2. clear Eset2.
  simpl in Eset3. inversion Eset3; subst copy3. clear Eset3.
  assert (Hits : its = deadlines_of (VDict d)).
  { simpl. destruct (dict_get "deadlines" d) as [[| | | | |its']|];
      simpl in Eits; try discriminate; now inversion Eits. }
  subst its. exists d, entries, (opt_int cdays).
  split; [reflexivity|]. split; [exact Esort|]. split.
  - unfold enriched_record. now rewrite hd_match.
  - unfold dates_ok. rewrite Hok. simpl.
    rewrite days_until_spec in Edays. unfold date_ok.
    destruct (dict_get "conference_date" d) as [c|]; [|reflexivity].
    destruct (truthy c); simpl in *; [|reflexivity].
    now destruct (strptime c).
Qed.

Lemma bind_ok {S A B} (m : ST S A) (k : A -> ST S B) s a s1 :
  m s = (Ok a, s1) -> bind m k s = k a s1.
Proof. unfold bind. now intros ->. Qed.

Lemma bind_raise {S A B} (m : ST S A) (k : A -> ST S B) s e s1 :
  m s = (Raise e, s1) -> bind m k s = (Raise e, s1).
Proof. unfold bind. now intros ->. Qed.

Lemma bind_lift {S A B} (r : result A) (k : A -> ST S B) s :
  bind (lift r) k s = match r with Ok a => k a s | Raise e => (Raise e, s) end.
Proof. unfold bind, lift. now destruct r. Qed.

(** The fields of an enriched record. *)
Lemma enriched_all_deadlines d entries c :
  subscript (enriched_record d entries c) "all_deadlines" = Ok (VList entries).
Proof.
  unfold enriched_record, subscript.
  rewrite !dict_get_set_ne by discriminate. now rewrite dict_get_set_eq.
Qed.

Lemma enriched_next_deadline d entries c :
  subscript (enriched_record d entries c) "next_deadline" = Ok (hd VNone entries).
Proof.
  unfold enriched_record, subscript.
  rewrite dict_get_set_ne by discriminate. now rewrite dict_get_set_eq.
Qed.

Lemma enriched_deadlines d entries c :
  deadlines_of (enriched_record d entries c) = deadlines_of (VDict d).
Proof.
  unfold enriched_record, deadlines_of.
  now rewrite !dict_get_set_ne by discriminate.
Qed.

Lemma subscript_dict_get d k v :
  subscript (VDict d) k = Ok v -> dict_get k d = Some v.
Proof. simpl. destruct (dict_get k d); intros E; now inversion E. Qed.

Lemma sorted_entries_shape clock n its entries :
  list_sort Z.ltb days_key (entries_from clock n its) = Ok entries ->
  Forall is_entry entries.
Proof.
  intros E. apply list_sort_perm in E. rewrite E. apply entries_from_shape.
Qed.


Lemma enrich_one_enriched clock conf n r n' :
  enrich_one clock conf n = (Ok r, n') -> is_enriched r.
Proof.
  intros E. apply enrich_one_ok in E as (d & entries & c & _ & Es & -> & _).
  exists d, entries, c. split; [reflexivity|]. eapply sorted_entries_shape, Es.
Qed.


Lemma sort_key_enriched r :
  is_enriched r ->
  sort_key r = Ok (key_of_days (next_days r))
  /\ (next_days r = None <-> no_next r = true).
Proof.
  intros (d & entries & c & -> & He).
  unfold sort_key, next_days, no_next.
  pose proof (enriched_next_deadline d entries c) as Hn.
  rewrite Hn. apply subscript_dict_get in Hn.
  unfold enriched_record in *. rewrite Hn.
  destruct He as [|e entries He _]; simpl; [split; [reflexivity | tauto]|].
  destruct He as (k & v & n & ->). unfold deadline_entry. simpl.
  split; [now destruct (n <? 0) | split; discriminate].
Qed.

Lemma sort_enriched_total l :
  Forall is_enriched l -> exists l', list_sort skey_lt sort_key l = Ok l'.
Proof.
  intros Hl. apply list_sort_total.
  eapply Forall_impl; [exact Hl|]. intros r Hr.
  destruct (sort_key_enriched r Hr) as [E _]. eauto.
Qed.

Ltac run_lift := rewrite bind_lift; cbn beta iota.

Lemma items_deadlines d :
  wf_conference (VDict d) = true ->
  items (match dict_get "deadlines" d with Some v => v | None => VDict [] end)
  = Ok (deadlines_of (VDict d))
  /\ forallb (fun kv => date_field (snd kv)) (deadlines_of (VDict d)) = true.
Proof.
  intros Hwf. apply andb_prop in Hwf as [Hwd _]. unfold deadlines_of.
  destruct (dict_get "deadlines" d) as [[| | | | |its]|]; try discriminate;
    split; try reflexivity; exact Hwd.
Qed.

Lemma enrich_one_total clock conf n :
  wf_conference conf = true -> dates_ok conf = true ->
  exists r n', enrich_one clock conf n = (Ok r, n').
Proof.
  destruct conf as [| | | | |d]; try discriminate.
  intros Hwf Hok. destruct (items_deadlines d Hwf) as [Hdl _].
  unfold dates_ok in Hok. apply andb_prop in Hok as [Hod Hoc].
  unfold enrich_one. run_lift. cbn [copy]. cbn beta iota.
  run_lift. cbn [get_default]. cbn beta iota.
  run_lift. rewrite Hdl.
  destruct (collect_deadlines_total clock (deadlines_of (VDict d)) [] n Hod)
    as [n1 Ec].
  rewrite (bind_ok _ _ _ _ _ Ec). cbn [app].
  destruct (sort_entries_total _ (entries_from_shape clock n (deadlines_of (VDict d))))
    as [entries Es].
  run_lift. rewrite Es.
  run_lift. cbn [setitem]. cbn beta iota.
  run_lift. cbn [setitem]. cbn beta iota.
  run_lift. cbn [get_default]. cbn beta iota.
  set (cd := match dict_get "conference_date" d with Some v => v | None => VNone end).
  assert (Hcd : date_ok cd = true).
  { unfold cd. now destruct (dict_get "conference_date" d). }
  unfold bind at 1. rewrite days_until_spec. unfold date_ok in Hcd.
  destruct (truthy cd); simpl in *.
  - destruct (strptime cd); [|discriminate]. run_lift. unfold ret. eauto.
  - run_lift. unfold ret. eauto.
Qed.

Lemma enrich_one_fails clock conf n :
  wf_conference conf = true -> dates_ok conf = false ->
  exists n', enrich_one clock conf n = (Raise ValueError, n').
Proof.
  destruct conf as [| | | | |d]; try discriminate.
  intros Hwf Hok. destruct (items_deadlines d Hwf) as [Hdl Hfd].
  apply andb_prop in Hwf as [_ Hwc].
  unfold dates_ok in Hok.
  unfold enrich_one. run_lift. cbn [copy]. cbn beta iota.
  run_lift. cbn [get_default]. cbn beta iota.
  run_lift. rewrite Hdl.
  destruct (forallb (fun kv => date_ok (snd kv)) (deadlines_of (VDict d))) eqn:Hod.
  - destruct (collect_deadlines_total clock (deadlines_of (VDict d)) [] n Hod)
      as [n1 Ec].
    rewrite (bind_ok _ _ _ _ _ Ec). cbn [app].
    destruct (sort_entries_total _ (entries_from_shape clock n (deadlines_of (VDict d))))
      as [entries Es].
    run_lift. rewrite Es.
    run_lift. cbn [setitem]. cbn beta iota.
    run_lift. cbn [setitem]. cbn beta iota.
    run_lift. cbn [get_default]. cbn beta iota.
    simpl in Hok.
    destruct (dict_get "conference_date" d) as [c|]; [|discriminate].
    exists n1. apply bind_raise. now apply days_until_fails.
  - destruct (collect_deadlines_fails clock _ [] n Hfd Hod) as [n1 Ec].
    exists n1. now apply bind_raise.
Qed.

(** ** The loop over the records *)

Lemma enrich_loop_ok clock confs acc n out n' :
  enrich_loop clock confs acc n = (Ok out, n') ->
  exists rs, out = (acc ++ rs)%list
    /\ Forall2 (fun conf r => exists m m', enrich_one clock conf m = (Ok r, m'))
         confs rs.
Proof.
  revert acc n. induction confs as [|conf confs IH]; intros acc n; simpl; intros E.
  - apply ret_ok_inv in E as [-> _]. exists []. now rewrite app_nil_r.
  - step_ok E r Er. apply IH in E as (rs & -> & Hrs).
    exists (r :: rs). split; [now rewrite <- app_assoc|].
    constructor; eauto.
Qed.

Lemma enrich_loop_total clock confs acc n :
  forallb wf_conference confs = true -> forallb dates_ok confs = true ->
  exists out n', enrich_loop clock confs acc n = (Ok out, n').
Proof.
  revert acc n. induction confs as [|conf confs IH]; intros acc n; simpl.
  - intros _ _. unfold ret. eauto.
  - intros Hw Ho. apply andb_prop in Hw as [Hw1 Hw2].
    apply andb_prop in Ho as [Ho1 Ho2].
    destruct (enrich_one_total clock conf n Hw1 Ho1) as (r & n1 & Er).
    rewrite (bind_ok _ _ _ _ _ Er). now apply IH.
Qed.

Lemma enrich_loop_fails clock confs acc n :
  forallb wf_conference confs = true -> forallb dates_ok confs = false ->
  exists n', enrich_loop clock confs acc n = (Raise ValueError, n').
Proof.
  revert acc n. induction confs as [|conf confs IH]; intros acc n; simpl;
    [discriminate|].
  intros Hw Ho. apply andb_prop in Hw as [Hw1 Hw2].
  destruct (dates_ok conf) eqn:Ho1; simpl in Ho.
  - destruct (enrich_one_total clock conf n Hw1 Ho1) as (r & n1 & Er).
    rewrite (bind_ok _ _ _ _ _ Er). now apply IH.
  - destruct (enrich_one_fails clock conf n Hw1 Ho1) as (n1 & Er).
    exists n1. now apply bind_raise.
Qed.

Lemma enrich_loop_length clock confs acc n out n' :
  enrich_loop clock confs acc n = (Ok out, n') ->
  length out = (length acc + length confs)%nat.
Proof.
  intros E. apply enrich_loop_ok in E as (rs & -> & Hrs).
  rewrite length_app. f_equal. symmetry. eapply Forall2_length, Hrs.
Qed.

(** ** The whole enrichment *)

Lemma enrich_ok clock conferences n v n' :
  enrich_conference_data clock conferences n = (Ok v, n') ->
  exists confs rs out,
    iterate conferences = Ok confs
    /\ Forall2 (fun conf r => exists m m', enrich_one clock conf m = (Ok r, m'))
         confs rs
    /\ list_sort skey_lt sort_key rs = Ok out
    /\ v = VList out.
Proof.
  unfold enrich_conference_data. intros E.
  step_ok E today Et.
  step_lift E confs Ei.
  step_ok E rs Er. apply enrich_loop_ok in Er as (rs' & -> & Hrs).
  step_lift E out Es.
  apply ret_ok_inv in E as [-> _].
  exists confs, rs', out. auto.
Qed.

Lemma enrich_records clock conferences n out n' :
  enrich_conference_data clock conferences n = (Ok (VList out), n') ->
  StronglySorted (sorted_by skey_lt sort_key) out
  /\ Forall (fun r => is_enriched r
               /\ exists conf m m', enrich_one clock conf m = (Ok r, m')) out.
Proof.
  intros E. apply enrich_ok in E as (confs & rs & out' & _ & Hrs & Es & Ev).
  inversion Ev; subst out'. split.
  - eapply list_sort_sorted; eauto using skey_lt_asym, skey_lt_ge_trans.
  - rewrite (list_sort_perm _ _ _ _ Es).
    clear Es. induction Hrs as [|conf r confs rs (m & m' & Hr) _ IH];
      [constructor|]. constructor; [|exact IH].
    split; [eapply enrich_one_enriched, Hr | eauto].
Qed.

Lemma enrich_total clock confs n :
  forallb wf_conference confs = true -> forallb dates_ok confs = true ->
  exists out, fst (enrich_conference_data clock (VList confs) n) = Ok (VList out)
              /\ length out = length confs.
Proof.
  intros Hwf Hd. unfold enrich_conference_data.
  rewrite (bind_ok _ _ n (clock n) (S n)) by reflexivity.
  run_lift. cbn [iterate]. cbn beta iota.
  destruct (enrich_loop_total clock confs [] (S n) Hwf Hd) as (rs & n1 & Er).
  rewrite (bind_ok _ _ _ _ _ Er).
  pose proof (enrich_loop_length _ _ _ _ _ _ Er) as Hlen.
  apply enrich_loop_ok in Er as (rs' & -> & Hrs). simpl in *.
  assert (Hen : Forall is_enriched rs').
  { clear Hlen Hwf Hd. induction Hrs as [|c r cs rs0 (m & m' & Hr) _ IH];
      [constructor|].
    constructor; [eapply enrich_one_enriched, Hr | exact IH]. }
  destruct (sort_enriched_total rs' Hen) as [out Es].
  run_lift. rewrite Es. unfold ret. simpl.
  exists out. split; [reflexivity|].
  now rewrite (Permutation_length (list_sort_perm _ _ _ _ Es)).
Qed.

Lemma enrich_fails clock confs n :
  forallb wf_conference confs = true -> forallb dates_ok confs = false ->
  fst (enrich_conference_data clock (VList confs) n) = Raise ValueError.
Proof.
  intros Hwf Hd. unfold enrich_conference_data.
  rewrite (bind_ok _ _ n (clock n) (S n)) by reflexivity.
  run_lift. cbn [iterate]. cbn beta iota.
  destruct (enrich_loop_fails clock confs [] (S n) Hwf Hd) as (n1 & Er).
  now rewrite (bind_raise _ _ _ _ _ Er).
Qed.

(** ** Sorted lists *)

Lemma StronglySorted_lookup {A} (R : A -> A -> Prop) (l : list A) i j x y :
  StronglySorted R l -> l !! i = Some x -> l !! j = Some y -> (i < j)%nat -> R x y.
Proof.
  intros Hs. revert i j. induction Hs as [|a l Hs IH Ha]; intros i j Hi Hj Hij.
  - discriminate.
  - destruct j as [|j]; [lia|]. destruct i as [|i]; simpl in *.
    + inversion Hi; subst. rewrite Forall_forall in Ha. apply Ha.
      eapply list_elem_of_lookup_2, Hj.
    + eapply IH; eauto. lia.
Qed.


(** Where the key of one element is below the key of another, the first
    stands before the second after [list.sort]. *)
Lemma sorted_lt_index {A K} (lt : K -> K -> bool) (key : A -> result K)
    (l : list A) i j a b ka kb :
  (forall k k', lt k k' = true -> lt k' k = false) ->
  StronglySorted (sorted_by lt key) l ->
  l !! i = Some a -> l !! j = Some b ->
  key a = Ok ka -> key b = Ok kb -> lt ka kb = true -> (i < j)%nat.
Proof.
  intros Hasym Hs Hi Hj Ha Hb Hlt.
  destruct (Nat.lt_trichotomy i j) as [H | [H | H]]; [exact H | |].
  - subst j. rewrite Hi in Hj. inversion Hj; subst b.
    rewrite Ha in Hb. inversion Hb; subst kb.
    pose proof (Hasym _ _ Hlt). congruence.
  - pose proof (StronglySorted_lookup _ _ _ _ _ _ Hs Hj Hi H)
      as (kb' & ka' & Hb' & Ha' & Hge).
    rewrite Ha in Ha'. rewrite Hb in Hb'. inversion Ha'; inversion Hb'; subst.
    congruence.
Qed.

(** ** C4: the deadlines of a record *)

Lemma dated_entries_length now its :
  forallb (fun kv => date_ok (snd kv)) its = true ->
  length (dated_entries now its)
  = length (List.filter (fun kv => truthy (snd kv)) its).
Proof.
  induction its as [|[k v] its IH]; simpl; [reflexivity|].
  intros H. apply andb_prop in H as [Hv H]. unfold date_ok in Hv.
  rewrite length_app, (IH H).
  destruct (truthy v); simpl in *; [|reflexivity].
  now destruct (strptime v).
Qed.










(** ** C5: the tier of the passed deadlines *)

(** C5: of two enriched records whose nearest deadlines have both passed, the
    one whose nearest deadline passed fewer days ago stands before the
    other. *)
Theorem passed_tier_monotone clock conferences n out n' i j r1 r2 d1 d2 :
  enrich_conference_data clock conferences n = (Ok (VList out), n') ->
  out !! i = Some r1 -> out !! j = Some r2 ->
  next_days r1 = Some d1 -> next_days r2 = Some d2 ->
  d1 < 0 -> d2 < 0 -> Z.abs d1 < Z.abs d2 ->
  (i < j)%nat.
Proof.
  intros E Hi Hj H1 H2 Hd1 Hd2 Habs.
  apply enrich_records in E as [Hs Hf].
  rewrite Forall_forall in Hf.
  destruct (Hf r1 (list_elem_of_lookup_2 _ _ _ Hi)) as [Hr1 _].
  destruct (Hf r2 (list_elem_of_lookup_2 _ _ _ Hj)) as [Hr2 _].
  destruct (sort_key_enriched r1 Hr1) as [K1 _].
  destruct (sort_key_enriched r2 Hr2) as [K2 _].
  rewrite H1 in K1. rewrite H2 in K2. simpl in K1, K2.
  apply Z.ltb_lt in Hd1, Hd2. rewrite Hd1 in K1. rewrite Hd2 in K2.
  eapply (sorted_lt_index skey_lt sort_key out i j r1 r2);
    eauto using skey_lt_asym.
  simpl. apply Z.ltb_lt. lia.
Qed.


Lemma passed_tier_monotone_witness :
  names_of (fst (enrich_conference_data (fixed_clock now_2026)
                   (VList [conf_B; conf_D]) 0%nat))
  = Ok [VStr "D"; VStr "B"]
  /\ (0 < 1)%nat.
Proof.
  split; [vm_compute; reflexivity|].
  eapply (passed_tier_monotone (fixed_clock now_2026) (VList [conf_B; conf_D])
            0%nat _ _ 0%nat 1%nat _ _ (-5987) (-9805)).
  - vm_compute. reflexivity.
  - reflexivity.
  - reflexivity.
  - vm_compute. reflexivity.
  - vm_compute. reflexivity.
  - lia.
  - lia.
  - simpl. lia.
Defined.

(** ** C7: dates that do not parse *)

(** C7 as the specification states it fails: the date [2099-1-1] is present
    and is not in YYYY-MM-DD form, and the enrichment returns; [strptime]
    takes a month and a day of one digit. *)
Lemma short_date_is_accepted :
  truthy (VStr "2099-1-1") = true
  /\ is_yyyy_mm_dd "2099-1-1" = false
  /\ fst (enrich_conference_data (fixed_clock now_2026)
            (VList [VDict [("name", VStr "S");
                           ("deadlines", VDict [("paper", VStr "2099-1-1")])]])
            0%nat)
     = Ok (VList [enriched_record
                    [("name", VStr "S");
                     ("deadlines", VDict [("paper", VStr "2099-1-1")])]
                    [deadline_entry "paper" (VStr "2099-1-1") 26355]
                    VNone]).
Proof. repeat split; vm_compute; reflexivity. Qed.

(** C7, amended: on a list of conference records the enrichment raises
    [ValueError], and returns no list, exactly when a date that is present,
    of a deadline or of the conference, is one that [strptime] with
    [%Y-%m-%d] rejects; when it rejects none, the enrichment returns a list
    with one record for each record given. *)
Theorem enrich_raises_iff_date_rejected clock confs n :
  forallb wf_conference confs = true ->
  (forallb dates_ok confs = true ->
   exists out, fst (enrich_conference_data clock (VList confs) n) = Ok (VList out)
               /\ length out = length confs)
  /\ (forallb dates_ok confs = false ->
      fst (enrich_conference_data clock (VList confs) n) = Raise ValueError).
Proof.
  intros Hwf. split; intros Hd; [now apply enrich_total | now apply enrich_fails].
Qed.

Lemma enrich_raises_iff_date_rejected_witness :
  (exists out,
     fst (enrich_conference_data (fixed_clock now_2026)
            (VList [conf_A; conf_B; conf_C]) 0%nat) = Ok (VList out)
     /\ length out = 3%nat)
  /\ fst (enrich_conference_data (fixed_clock now_2026)
            (VList [conf_A;
                    VDict [("name", VStr "E");
                           ("deadlines", VDict [("paper", VStr "01/02/2099")])]])
            0%nat) = Raise ValueError.
Proof.
  split.
  - apply (enrich_raises_iff_date_rejected (fixed_clock now_2026)
             [conf_A; conf_B; conf_C] 0%nat); reflexivity.
  - apply (enrich_raises_iff_date_rejected (fixed_clock now_2026)
             [conf_A;
              VDict [("name", VStr "E");
                     ("deadlines", VDict [("paper", VStr "01/02/2099")])]]
             0%nat); reflexivity.
Defined.

(** ** A fixed moment *)


Lemma steady_ret {A} (a : A) : steady (ret a).
Proof. intros n1 n2. reflexivity. Qed.

Lemma steady_lift {A} (r : result A) : steady (lift r).
Proof. intros n1 n2. reflexivity. Qed.

Lemma steady_bind {A B} (m : M A) (k : A -> M B) :
  steady m -> (forall a, steady (k a)) -> steady (bind m k).
Proof.
  intros Hm Hk n1 n2. unfold bind. specialize (Hm n1 n2).
  destruct (m n1) as [[a1|e1] s1], (m n2) as [[a2|e2] s2]; simpl in Hm;
    try discriminate; inversion Hm; subst; [apply Hk | reflexivity].
Qed.

Lemma steady_now now : steady (datetime_now (fixed_clock now)).
Proof. intros n1 n2. reflexivity. Qed.

Lemma steady_days_until now v : steady (days_until (fixed_clock now) v).
Proof.
  intros n1 n2. rewrite !days_until_spec.
  destruct (negb (truthy v)); [reflexivity|]. now destruct (strptime v).
Qed.

Lemma steady_collect now its acc : steady (collect_deadlines (fixed_clock now) its acc).
Proof.
  revert acc. induction its as [|[k v] its IH]; intros acc; simpl.
  - apply steady_ret.
  - apply steady_bind; [apply steady_days_until|].
    intros [d|]; apply IH.
Qed.

Lemma steady_enrich_one now conf : steady (enrich_one (fixed_clock now) conf).
Proof.
  unfold enrich_one.
  repeat first
    [ apply steady_ret | apply steady_lift | apply steady_collect
    | apply steady_days_until
    | apply steady_bind; [|intros ?] ].
Qed.

Lemma steady_enrich_loop now confs acc :
  steady (enrich_loop (fixed_clock now) confs acc).
Proof.
  revert acc. induction confs as [|c confs IH]; intros acc; simpl.
  - apply steady_ret.
  - apply steady_bind; [apply steady_enrich_one | intros r; apply IH].
Qed.

Lemma steady_enrich now conferences :
  steady (enrich_conference_data (fixed_clock now) conferences).
Proof.
  unfold enrich_conference_data.
  repeat first
    [ apply steady_ret | apply steady_lift | apply steady_now
    | apply steady_enrich_loop
    | apply steady_bind; [|intros ?] ].
Qed.

(** With a clock that moves the outcome does depend on the reading. *)
Example moving_clock_differs :
  fst (enrich_conference_data
         (fun n => mkdatetime 2026 11 (4 + Z.of_nat n) 9 30 0 0)
         (VList [conf_A]) 0%nat)
  <> fst (enrich_conference_data
            (fun n => mkdatetime 2026 11 (4 + Z.of_nat n) 9 30 0 0)
            (VList [conf_A]) 5%nat).
Proof. vm_compute. discriminate. Qed.

(** ** C1: the three tiers *)

Lemma enrich_key_order clock conferences n out n' i j r1 r2 :
  enrich_conference_data clock conferences n = (Ok (VList out), n') ->
  out !! i = Some r1 -> out !! j = Some r2 ->
  skey_lt (key_of_days (next_days r1)) (key_of_days (next_days r2)) = true ->
  (i < j)%nat.
Proof.
  intros E Hi Hj Hlt.
  apply enrich_records in E as [Hs Hf].
  rewrite Forall_forall in Hf.
  destruct (Hf r1 (list_elem_of_lookup_2 _ _ _ Hi)) as [Hr1 _].
  destruct (Hf r2 (list_elem_of_lookup_2 _ _ _ Hj)) as [Hr2 _].
  destruct (sort_key_enriched r1 Hr1) as [K1 _].
  destruct (sort_key_enriched r2 Hr2) as [K2 _].
  eapply (sorted_lt_index skey_lt sort_key out i j r1 r2);
    eauto using skey_lt_asym.
Qed.

(** X11: a record without a dated deadline stands after every record with
    one, whatever the deadlines of the two are. *)
Lemma undated_tier_last clock conferences n out n' i j r1 r2 d :
  enrich_conference_data clock conferences n = (Ok (VList out), n') ->
  out !! i = Some r1 -> out !! j = Some r2 ->
  next_days r1 = Some d -> next_days r2 = None ->
  (i < j)%nat.
Proof.
  intros E Hi Hj H1 H2. eapply enrich_key_order; eauto.
  rewrite H1, H2. simpl. now destruct (d <? 0).
Qed.

(** X12: two records with upcoming nearest deadlines stand in ascending
    order of days-remaining, however far away the deadlines are. *)
Lemma upcoming_tier_ascending clock conferences n out n' i j r1 r2 d1 d2 :
  enrich_conference_data clock conferences n = (Ok (VList out), n') ->
  out !! i = Some r1 -> out !! j = Some r2 ->
  next_days r1 = Some d1 -> next_days r2 = Some d2 ->
  0 <= d1 -> d1 < d2 ->
  (i < j)%nat.
Proof.
  intros E Hi Hj H1 H2 Hd1 Hd2. eapply enrich_key_order; eauto.
  rewrite H1, H2. simpl.
  assert (E1 : (d1 <? 0) = false) by (apply Z.ltb_ge; lia).
  assert (E2 : (d2 <? 0) = false) by (apply Z.ltb_ge; lia).
  rewrite E1, E2. simpl. apply Z.ltb_lt. lia.
Qed.

(** An upcoming nearest deadline stands before a passed one as long as its
    days-remaining is below the offset [10000] plus the days passed. *)
Lemma upcoming_before_passed_below_offset
    clock conferences n out n' i j r1 r2 d1 d2 :
  enrich_conference_data clock conferences n = (Ok (VList out), n') ->
  out !! i = Some r1 -> out !! j = Some r2 ->
  next_days r1 = Some d1 -> next_days r2 = Some d2 ->
  0 <= d1 -> d2 < 0 -> d1 < 10000 + Z.abs d2 ->
  (i < j)%nat.
Proof.
  intros E Hi Hj H1 H2 Hd1 Hd2 Hoff. eapply enrich_key_order; eauto.
  rewrite H1, H2. simpl.
  assert (E1 : (d1 <? 0) = false) by (apply Z.ltb_ge; lia).
  assert (E2 : (d2 <? 0) = true) by (apply Z.ltb_lt; lia).
  rewrite E1, E2. simpl. apply Z.ltb_lt. lia.
Qed.

(** C1 fails on the code: on the 4th of November 2026 the scenario of the
    specification, [A] with a deadline in 2099, [B] with one in 2000 and [C]
    with none, is returned in the order [B], [A], [C].  The key of [A] is its
    26355 days, the key of [B] is 10000 + 9805. *)
Theorem scenario_order_in_2026 :
  names_of (fst (enrich_conference_data (fixed_clock now_2026)
                   (VList [conf_A; conf_B; conf_C]) 0%nat))
  = Ok [VStr "B"; VStr "A"; VStr "C"].
Proof. vm_compute. reflexivity. Qed.

(** ** C2: the nearest deadline of a record *)


(** C2 fails on the code: of a deadline that has passed and one to come,
    [next_deadline] is the one that has passed. *)
Theorem next_deadline_of_past_and_future :
  fst (enrich_conference_data (fixed_clock now_2026) (VList [conf_PF]) 0%nat)
  = Ok (VList [enriched_record
                 [("name", VStr "PF");
                  ("deadlines", VDict [("abstract", VStr "2000-01-01");
                                       ("paper", VStr "2099-01-01")])]
                 [deadline_entry "abstract" (VStr "2000-01-01") (-9805);
                  deadline_entry "paper" (VStr "2099-01-01") 26355]
                 VNone])
  /\ subscript
       (enriched_record
          [("name", VStr "PF");
           ("deadlines", VDict [("abstract", VStr "2000-01-01");
                                ("paper", VStr "2099-01-01")])]
          [deadline_entry "abstract" (VStr "2000-01-01") (-9805);
           deadline_entry "paper" (VStr "2099-01-01") 26355]
          VNone) "next_deadline"
     = Ok (deadline_entry "abstract" (VStr "2000-01-01") (-9805)).
Proof. split; vm_compute; reflexivity. Qed.

(** The same for every record and every moment: whichever of the two comes
    first in the mapping, the entry of the passed deadline is the nearest. *)
Lemma next_deadline_is_the_passed_one now conf n r n' k1 s1 t1 k2 s2 t2 :
  enrich_one (fixed_clock now) conf n = (Ok r, n') ->
  strptime_ymd s1 = Ok t1 -> strptime_ymd s2 = Ok t2 ->
  days (sub t1 now) < 0 -> 0 < days (sub t2 now) ->
  deadlines_of conf = [(k1, VStr s1); (k2, VStr s2)]
  \/ deadlines_of conf = [(k2, VStr s2); (k1, VStr s1)] ->
  subscript r "next_deadline"
  = Ok (deadline_entry k1 (VStr s1) (days (sub t1 now))).
Proof.
  intros E P1 P2 Hpast Hfut Hd.
  apply enrich_one_ok in E as (d & entries & c & -> & Es & -> & _).
  rewrite enriched_next_deadline. f_equal.
  rewrite entries_from_fixed in Es.
  pose proof (strptime_ymd_nonempty _ _ P1) as T1.
  pose proof (strptime_ymd_nonempty _ _ P2) as T2.
  assert (L1 : (days (sub t2 now) <? days (sub t1 now)) = false)
    by (apply Z.ltb_ge; lia).
  assert (L2 : (days (sub t1 now) <? days (sub t2 now)) = true)
    by (apply Z.ltb_lt; lia).
  destruct Hd as [Hd | Hd]; rewrite Hd in Es;
    unfold dated_entries in Es; cbn [flat_map fst snd strptime app] in Es;
    rewrite T1, T2, P1, P2 in Es;
    unfold list_sort, deadline_entry in Es; cbn in Es;
    rewrite ?L1, ?L2 in Es; inversion Es; reflexivity.
Qed.

(** ** C6 and C10: the configuration loader *)

Lemma is_relative_to_app (base rest : path) :
  is_relative_to (base ++ rest)%list base = true.
Proof.
  induction base as [|b base IH]; simpl; [reflexivity|].
  now rewrite String.eqb_refl.
Qed.

(** The path check of the loader never fires. *)
Lemma load_conferences_unfold app_dir fs safe_load :
  load_conferences app_dir fs safe_load =
    match fs (app_dir ++ ["data"; "conferences.yaml"])%list with
    | None => Raise OSError
    | Some text =>
        match safe_load text with
        | Raise e => Raise e
        | Ok data => get_default data "conferences" (VList [])
        end
    end.
Proof.
  unfold load_conferences, open_read. rewrite is_relative_to_app. simpl.
  now destruct (fs _).
Qed.

(** C6: the loader returns what the document holds under [conferences] when
    the document is a mapping with that key, the empty list when the mapping
    has no such key, and raises when the file cannot be opened or the parser
    rejects it. *)
Theorem load_conferences_cases app_dir fs safe_load :
  let config_path := (app_dir ++ ["data"; "conferences.yaml"])%list in
  (forall text d v,
      fs config_path = Some text -> safe_load text = Ok (VDict d) ->
      dict_get "conferences" d = Some v ->
      load_conferences app_dir fs safe_load = Ok v)
  /\ (forall text d,
      fs config_path = Some text -> safe_load text = Ok (VDict d) ->
      dict_get "conferences" d = None ->
      load_conferences app_dir fs safe_load = Ok (VList []))
  /\ (fs config_path = None ->
      load_conferences app_dir fs safe_load = Raise OSError)
  /\ (forall text e,
      fs config_path = Some text -> safe_load text = Raise e ->
      load_conferences app_dir fs safe_load = Raise e).
Proof.
  intros config_path. rewrite load_conferences_unfold. fold config_path.
  repeat split.
  - intros text d v -> -> Hv. simpl. now rewrite Hv.
  - intros text d -> -> Hv. simpl. now rewrite Hv.
  - now intros ->.
  - now intros text e -> ->.
Qed.


Lemma load_conferences_cases_witness :
  load_conferences demo_dir (demo_fs "conferences: [{name: C}]") demo_safe_load
  = Ok (VList [VDict [("name", VStr "C")]])
  /\ load_conferences demo_dir (demo_fs "title: none") demo_safe_load
     = Ok (VList [])
  /\ load_conferences demo_dir (fun _ => None) demo_safe_load = Raise OSError
  /\ load_conferences demo_dir (demo_fs "{") demo_safe_load = Raise YAMLError.
Proof.
  split; [|split; [|split]].
  - eapply (proj1 (load_conferences_cases demo_dir
                     (demo_fs "conferences: [{name: C}]") demo_safe_load));
      reflexivity.
  - eapply (proj1 (proj2 (load_conferences_cases demo_dir
                            (demo_fs "title: none") demo_safe_load)));
      reflexivity.
  - apply (proj1 (proj2 (proj2 (load_conferences_cases demo_dir
                                  (fun _ => None) demo_safe_load)))).
    reflexivity.
  - eapply (proj2 (proj2 (proj2 (load_conferences_cases demo_dir
                                   (demo_fs "{") demo_safe_load))));
      reflexivity.
Defined.

(** C10: when the parser returns [None] for the document the loader raises
    [AttributeError]; whenever the loader returns a value, the document is a
    mapping, and the value is the one under [conferences] or, when the
    mapping has no such key, the empty list. *)
Theorem load_conferences_empty_document app_dir fs safe_load :
  let config_path := (app_dir ++ ["data"; "conferences.yaml"])%list in
  (forall text,
      fs config_path = Some text -> safe_load text = Ok VNone ->
      load_conferences app_dir fs safe_load = Raise AttributeError)
  /\ (forall v,
      load_conferences app_dir fs safe_load = Ok v ->
      exists text d,
        fs config_path = Some text /\ safe_load text = Ok (VDict d)
        /\ (dict_get "conferences" d = Some v
            \/ (dict_get "conferences" d = None /\ v = VList []))).
Proof.
  intros config_path. rewrite load_conferences_unfold. fold config_path.
  split.
  - now intros text -> ->.
  - intros v. destruct (fs config_path) as [text|]; [|discriminate].
    destruct (safe_load text) as [[| | | | |d]|] eqn:El; try discriminate.
    simpl. intros E. exists text, d.
    split; [reflexivity|]. split; [exact El|].
    destruct (dict_get "conferences" d) as [v'|]; inversion E; subst; auto.
Qed.

Lemma load_conferences_empty_document_witness :
  load_conferences demo_dir (demo_fs "") demo_safe_load = Raise AttributeError.
Proof.
  eapply (proj1 (load_conferences_empty_document demo_dir (demo_fs "")
                   demo_safe_load)); reflexivity.
Defined.

(** ** C9: the objects of the caller *)

Module HeapFacts.
Import Heap HeapSpec.


Lemma fresh_outside h0 v : fresh h0 v -> outside h0 v.
Proof. intros (a & -> & Ha) b E. now inversion E; subst. Qed.

Lemma keeps_ret h0 {A} (a : A) (Q : A -> Prop) : Q a -> keeps h0 (ret a) Q.
Proof. intros Ha s Hs. split; [exact Hs|]. intros b E. now inversion E; subst. Qed.

Lemma keeps_raise h0 {A} e (Q : A -> Prop) : keeps h0 (raise e) Q.
Proof. intros s Hs. split; [exact Hs | discriminate]. Qed.

Lemma keeps_lift h0 {A} (r : result A) (Q : A -> Prop) :
  (forall a, r = Ok a -> Q a) -> keeps h0 (lift r) Q.
Proof. intros Hr s Hs. split; [exact Hs | exact Hr]. Qed.

Lemma keeps_bind h0 {A B} (m : H A) (k : A -> H B) (P : A -> Prop) (Q : B -> Prop) :
  keeps h0 m P -> (forall a, P a -> keeps h0 (k a) Q) -> keeps h0 (bind m k) Q.
Proof.
  intros Hm Hk s Hs. unfold bind. destruct (Hm s Hs) as [H1 H2].
  destruct (m s) as [[a|e] s1]; simpl in *.
  - apply (Hk a (H2 a eq_refl) s1 H1).
  - split; [exact H1 | discriminate].
Qed.

Lemma keeps_alloc h0 o : keeps h0 (alloc o) (fun a => (length h0 <= a)%nat).
Proof.
  intros s Hs. unfold alloc. simpl. split.
  - etransitivity; [exact Hs|]. now apply prefix_app_r.
  - intros a E. inversion E; subst. now apply prefix_length.
Qed.

Lemma keeps_load h0 a : keeps h0 (load a) (fun _ => True).
Proof.
  intros s Hs. unfold load. destruct (heap s !! a); simpl; auto.
Qed.

Lemma prefix_insert (h0 h : list obj) a o :
  h0 `prefix_of` h -> (length h0 <= a)%nat -> h0 `prefix_of` <[a := o]> h.
Proof.
  intros [k ->] Ha. rewrite insert_app_r_alt by exact Ha.
  now apply prefix_app_r.
Qed.

Lemma keeps_store h0 a o :
  (length h0 <= a)%nat -> keeps h0 (store a o) (fun _ => True).
Proof.
  intros Ha s Hs. unfold store. simpl. split; [|auto].
  now apply prefix_insert.
Qed.

Lemma keeps_truthy h0 v : keeps h0 (truthy v) (fun _ => True).
Proof.
  destruct v; simpl; try (apply keeps_ret; exact I).
  eapply keeps_bind; [apply keeps_load|]. intros o _. now apply keeps_ret.
Qed.

Lemma keeps_copy h0 x : keeps h0 (copy x) (fresh h0).
Proof.
  destruct x; simpl; try apply keeps_raise.
  eapply keeps_bind; [apply keeps_load|]. intros o _.
  eapply keeps_bind; [apply keeps_alloc|]. intros a' Ha.
  apply keeps_ret. exists a'. auto.
Qed.

Lemma keeps_get_default h0 x k default :
  keeps h0 (get_default x k default) (fun _ => True).
Proof.
  destruct x; simpl; try apply keeps_raise.
  eapply keeps_bind; [apply keeps_load|]. intros [l|d] _.
  - apply keeps_raise.
  - now apply keeps_ret.
Qed.

Lemma keeps_subscript h0 x k : keeps h0 (subscript x k) (fun _ => True).
Proof.
  destruct x; simpl; try apply keeps_raise.
  eapply keeps_bind; [apply keeps_load|]. intros [l|d] _.
  - apply keeps_raise.
  - destruct (dict_get k d); [now apply keeps_ret | apply keeps_raise].
Qed.

Lemma keeps_items h0 x : keeps h0 (items x) (fun _ => True).
Proof.
  destruct x; simpl; try apply keeps_raise.
  eapply keeps_bind; [apply keeps_load|]. intros [l|d] _.
  - apply keeps_raise.
  - now apply keeps_ret.
Qed.

Lemma keeps_iterate h0 x : keeps h0 (iterate x) (fun _ => True).
Proof.
  destruct x; simpl; try apply keeps_raise; try (now apply keeps_ret).
  eapply keeps_bind; [apply keeps_load|]. intros [l|d] _; now apply keeps_ret.
Qed.

Lemma keeps_setitem h0 x k v :
  outside h0 x -> keeps h0 (setitem x k v) (fun _ => True).
Proof.
  intros Hx. destruct x; simpl; try apply keeps_raise.
  eapply keeps_bind; [apply keeps_load|]. intros [l|d] _.
  - apply keeps_raise.
  - apply keeps_store. now apply Hx.
Qed.

Lemma keeps_append h0 x v :
  outside h0 x -> keeps h0 (append x v) (fun _ => True).
Proof.
  intros Hx. destruct x; simpl; try apply keeps_raise.
  eapply keeps_bind; [apply keeps_load|]. intros [l|d] _.
  - apply keeps_store. now apply Hx.
  - apply keeps_raise.
Qed.

Lemma keeps_decorate h0 {K} (key : hval -> H K) l :
  (forall x, keeps h0 (key x) (fun _ => True)) ->
  keeps h0 (decorate key l) (fun _ => True).
Proof.
  intros Hkey. induction l as [|x l IH]; simpl.
  - now apply keeps_ret.
  - eapply keeps_bind; [apply Hkey|]. intros k _.
    eapply keeps_bind; [apply IH|]. intros kl _. now apply keeps_ret.
Qed.

Lemma keeps_sort h0 {K} (lt : K -> K -> bool) (key : hval -> H K) x :
  (forall y, keeps h0 (key y) (fun _ => True)) ->
  outside h0 x -> keeps h0 (sort lt key x) (fun _ => True).
Proof.
  intros Hkey Hx. destruct x; simpl; try apply keeps_raise.
  eapply keeps_bind; [apply keeps_load|]. intros [l|d] _.
  - eapply keeps_bind; [now apply keeps_decorate|]. intros kl _.
    apply keeps_store. now apply Hx.
  - apply keeps_raise.
Qed.

Section Program.
Variable clock : nat -> datetime.

Lemma keeps_now h0 : keeps h0 (datetime_now clock) (fun _ => True).
Proof. intros s Hs. simpl. auto. Qed.

Lemma keeps_parse_date h0 v : keeps h0 (parse_date v) (fun _ => True).
Proof.
  unfold parse_date.
  eapply keeps_bind; [apply keeps_truthy|]. intros b _.
  destruct (negb b); [now apply keeps_ret|].
  eapply (keeps_bind _ _ _ (fun _ => True)); [now apply keeps_lift|].
  intros d _. now apply keeps_ret.
Qed.

Lemma keeps_days_until h0 v : keeps h0 (days_until clock v) (fun _ => True).
Proof.
  unfold days_until.
  eapply keeps_bind; [apply keeps_truthy|]. intros b _.
  destruct (negb b); [now apply keeps_ret|].
  eapply keeps_bind; [apply keeps_parse_date|]. intros d _.
  eapply keeps_bind; [apply keeps_now|]. intros t _.
  destruct d; [now apply keeps_ret | apply keeps_raise].
Qed.

Lemma keeps_collect h0 its all_deadlines :
  outside h0 all_deadlines ->
  keeps h0 (collect_deadlines clock its all_deadlines) (fun _ => True).
Proof.
  intros Ha. induction its as [|[k v] its IH]; simpl.
  - now apply keeps_ret.
  - eapply keeps_bind; [apply keeps_days_until|]. intros [n|] _; [|exact IH].
    eapply keeps_bind; [apply keeps_alloc|]. intros e _.
    eapply keeps_bind; [now apply keeps_append|]. intros _ _. exact IH.
Qed.

Lemma keeps_as_int h0 v : keeps h0 (as_int v) (fun _ => True).
Proof. destruct v; simpl; try apply keeps_raise; now apply keeps_ret. Qed.

Lemma keeps_days_key h0 x : keeps h0 (days_key x) (fun _ => True).
Proof.
  unfold days_key. eapply keeps_bind; [apply keeps_subscript|].
  intros v _. apply keeps_as_int.
Qed.

(** One record: every store goes to [conf_copy], to [all_deadlines] or to
    a new entry, and the result is the new [conf_copy]. *)
Lemma keeps_enrich_one h0 conf : keeps h0 (enrich_one clock conf) (fresh h0).
Proof.
  unfold enrich_one.
  eapply keeps_bind; [apply keeps_copy|]. intros conf_copy Hc.
  apply fresh_outside in Hc as Hco.
  eapply keeps_bind; [apply keeps_alloc|]. intros a Ha.
  assert (Hao : outside h0 (HRef a)).
  { intros b E. now inversion E; subst. }
  eapply keeps_bind; [apply keeps_alloc|]. intros e _.
  eapply keeps_bind; [apply keeps_get_default|]. intros dl _.
  eapply keeps_bind; [apply keeps_items|]. intros its _.
  eapply keeps_bind; [now apply keeps_collect|]. intros _ _.
  eapply keeps_bind; [apply keeps_sort; [apply keeps_days_key | exact Hao]|].
  intros _ _.
  eapply keeps_bind; [now apply keeps_setitem|]. intros _ _.
  eapply keeps_bind; [apply keeps_iterate|]. intros l _.
  eapply keeps_bind; [now apply keeps_setitem|]. intros _ _.
  eapply keeps_bind; [apply keeps_get_default|]. intros cd _.
  eapply keeps_bind; [apply keeps_days_until|]. intros cdays _.
  eapply keeps_bind; [now apply keeps_setitem|]. intros _ _.
  now apply keeps_ret.
Qed.


Lemma readonly_bind {A B} (m : H A) (k : A -> H B) :
  readonly m -> (forall a, readonly (k a)) -> readonly (bind m k).
Proof.
  intros Hm Hk s. unfold bind. specialize (Hm s).
  destruct (m s) as [[a|e] s1]; simpl in *; subst; [apply Hk | reflexivity].
Qed.

Lemma readonly_load a : readonly (load a).
Proof. intros s. unfold load. now destruct (heap s !! a). Qed.

Lemma readonly_truthy v : readonly (truthy v).
Proof.
  destruct v; simpl; try (intros ?; reflexivity).
  apply readonly_bind; [apply readonly_load | intros o s; reflexivity].
Qed.

Lemma readonly_subscript x k : readonly (subscript x k).
Proof.
  destruct x; simpl; try (intros ?; reflexivity).
  apply readonly_bind; [apply readonly_load|].
  intros [l|d] s; [reflexivity|]. now destruct (dict_get k d).
Qed.

Lemma readonly_days_key x : readonly (days_key x).
Proof.
  unfold days_key. apply readonly_bind; [apply readonly_subscript|].
  intros v s. now destruct v.
Qed.

Lemma readonly_sort_key x : readonly (sort_key x).
Proof.
  unfold sort_key. apply readonly_bind; [apply readonly_subscript|].
  intros nd. apply readonly_bind; [apply readonly_truthy|]. intros b.
  destruct (negb b); [intros s; reflexivity|].
  apply readonly_bind; [apply readonly_days_key|].
  intros d s. now destruct (d <? 0).
Qed.

Lemma readonly_decorate {K} (key : hval -> H K) l :
  (forall x, readonly (key x)) -> readonly (decorate key l).
Proof.
  intros Hk. induction l as [|x l IH]; simpl; [intros s; reflexivity|].
  apply readonly_bind; [apply Hk|]. intros k.
  apply readonly_bind; [apply IH|]. intros kl s. reflexivity.
Qed.

Lemma readonly_iterate x : readonly (iterate x).
Proof.
  destruct x; simpl; try (intros ?; reflexivity).
  apply readonly_bind; [apply readonly_load|].
  intros [l|d] s; reflexivity.
Qed.

Lemma decorate_elements {K} (key : hval -> H K) l s kl :
  fst (decorate key l s) = Ok kl -> map snd kl = l.
Proof.
  revert s kl. induction l as [|x l IH]; simpl; intros s kl E.
  - now inversion E.
  - unfold bind in E. destruct (key x s) as [[k|e] s1]; [|discriminate].
    specialize (IH s1).
    destruct (decorate key l s1) as [[kl'|e] s2]; [|discriminate].
    simpl in *. inversion E; subst. simpl. f_equal. now apply IH.
Qed.

Lemma append_at a0 v s l :
  heap s !! a0 = Some (OList l) ->
  append (HRef a0) v s
  = (Ok tt, mkstate (<[a0 := OList (l ++ [v])%list]> (heap s)) (ticks s)).
Proof. intros Hl. unfold append, bind, load. now rewrite Hl. Qed.


Lemma enrich_loop_copies h0 a0 confs s :
  (length h0 <= a0)%nat -> copies_at h0 a0 s ->
  copies_at h0 a0 (snd (enrich_loop clock confs (HRef a0) s)).
Proof.
  intros Ha0. revert s. induction confs as [|conf confs IH]; intros s Hs.
  - exact Hs.
  - destruct Hs as (Hp & l & Hl & Hf). simpl. unfold bind at 1.
    destruct (keeps_enrich_one (heap s) conf s) as [H1 H2]; [reflexivity|].
    destruct (enrich_one clock conf s) as [[v|e] s1]; simpl in H1, H2.
    + destruct (H2 v eq_refl) as (c & -> & Hc).
      assert (Hl1 : heap s1 !! a0 = Some (OList l))
        by (eapply prefix_lookup_Some; eassumption).
      rewrite (bind_ok _ _ _ _ _ (append_at a0 (HRef c) s1 l Hl1)).
      apply IH. cbn [heap]. split.
      * apply prefix_insert; [|exact Ha0]. now transitivity (heap s).
      * exists (l ++ [HRef c])%list. split.
        -- apply list_lookup_insert_eq. eapply lookup_lt_Some, Hl1.
        -- apply Forall_app. split; [exact Hf|]. constructor; [|constructor].
           exists c. split; [reflexivity|].
           apply prefix_length in Hp. lia.
    + simpl. split; [now transitivity (heap s)|].
      exists l. split; [|exact Hf]. eapply prefix_lookup_Some; eassumption.
Qed.

Lemma sort_copies h0 a0 s :
  (length h0 <= a0)%nat -> copies_at h0 a0 s ->
  copies_at h0 a0 (snd (sort skey_lt sort_key (HRef a0) s)).
Proof.
  intros Ha0 (Hp & l & Hl & Hf). cbn [sort]. unfold bind at 1, load.
  rewrite Hl. unfold bind.
  pose proof (readonly_decorate sort_key l readonly_sort_key s) as Hro.
  pose proof (decorate_elements sort_key l s) as Hel.
  destruct (decorate sort_key l s) as [[kl|e] s1]; simpl in Hro, Hel; subst s1.
  - cbn [store snd heap]. split; [now apply prefix_insert|].
    exists (map snd (sort_keyed skey_lt kl)). split.
    + apply list_lookup_insert_eq. eapply lookup_lt_Some, Hl.
    + rewrite (sort_keyed_perm skey_lt kl), (Hel kl eq_refl). exact Hf.
  - simpl. split; [exact Hp | eauto].
Qed.
End Program.
End HeapFacts.

(** The heap after the enrichment extends the heap before it; the list
    returned is the first object allocated. *)
Lemma enrich_frame clock conferences s :
  HeapSpec.copies_at (Heap.heap s) (length (Heap.heap s))
    (snd (Heap.enrich_conference_data clock conferences s))
  /\ forall v, fst (Heap.enrich_conference_data clock conferences s) = Ok v ->
               v = Heap.HRef (length (Heap.heap s)).
Proof.
  set (a0 := length (Heap.heap s)).
  set (post := fun r : result Heap.hval * Heap.state =>
         HeapSpec.copies_at (Heap.heap s) a0 (snd r)
         /\ forall v, fst r = Ok v -> v = Heap.HRef a0).
  change (post (Heap.enrich_conference_data clock conferences s)).
  unfold Heap.enrich_conference_data.
  unfold bind at 1. cbn [Heap.alloc]. fold a0.
  unfold bind at 1. cbn [Heap.datetime_now Heap.heap Heap.ticks].
  set (s1 := Heap.mkstate (Heap.heap s ++ [Heap.OList []])%list (S (Heap.ticks s))).
  assert (H1 : HeapSpec.copies_at (Heap.heap s) a0 s1).
  { split; [now apply prefix_app_r|]. exists []. split; [|constructor].
    unfold s1, a0. cbn [Heap.heap]. now rewrite list_lookup_middle. }
  unfold bind at 1.
  pose proof (HeapFacts.readonly_iterate conferences s1) as Hro.
  destruct (Heap.iterate conferences s1) as [[confs|e] s2]; simpl in Hro; subst s2;
    [|split; [exact H1 | discriminate]].
  unfold bind at 1.
  pose proof (HeapFacts.enrich_loop_copies clock (Heap.heap s) a0 confs s1
                (Nat.le_refl _) H1) as H2.
  destruct (Heap.enrich_loop clock confs (Heap.HRef a0) s1) as [[[]|e] s3];
    simpl in H2; [|split; [exact H2 | discriminate]].
  unfold bind at 1.
  pose proof (HeapFacts.sort_copies (Heap.heap s) a0 s3 (Nat.le_refl _) H2) as H3.
  destruct (Heap.sort skey_lt Heap.sort_key (Heap.HRef a0) s3) as [[[]|e] s4];
    simpl in H3; [|split; [exact H3 | discriminate]].
  split; [exact H3|]. intros v E. cbn in E. now inversion E.
Qed.

(** C9: the enrichment leaves every object that exists when it is called as
    it is, the list of conferences and the records in it among them, also
    when it raises; the list it returns is a new object and holds references
    to new objects only, the copies. *)
Theorem enrich_does_not_mutate clock conferences s :
  Heap.heap s `prefix_of`
    Heap.heap (snd (Heap.enrich_conference_data clock conferences s))
  /\ (forall a o, Heap.heap s !! a = Some o ->
        Heap.heap (snd (Heap.enrich_conference_data clock conferences s)) !! a
        = Some o)
  /\ (forall v, fst (Heap.enrich_conference_data clock conferences s) = Ok v ->
        v = Heap.HRef (length (Heap.heap s))
        /\ exists l,
             Heap.heap (snd (Heap.enrich_conference_data clock conferences s))
               !! length (Heap.heap s) = Some (Heap.OList l)
             /\ Forall (HeapSpec.fresh (Heap.heap s)) l).
Proof.
  destruct (enrich_frame clock conferences s) as [(Hp & l & Hl & Hf) Hv].
  split; [exact Hp|]. split.
  - intros a o Ha. eapply prefix_lookup_Some; eassumption.
  - intros v E. split; [now apply Hv | eauto].
Qed.

Lemma enrich_does_not_mutate_witness :
  Heap.heap (snd (Heap.enrich_conference_data (fixed_clock now_2026)
                    (Heap.HRef 0%nat) (Heap.mkstate HeapSpec.scenario_heap 0%nat)))
    !! 1%nat
  = Some (Heap.ODict [("name", Heap.HStr "A"); ("deadlines", Heap.HRef 2%nat)]).
Proof.
  apply (proj1 (proj2 (enrich_does_not_mutate (fixed_clock now_2026)
                         (Heap.HRef 0%nat)
                         (Heap.mkstate HeapSpec.scenario_heap 0%nat)))).
  reflexivity.
Defined.


(** ** The heap model and the model on values *)

Module HeapRep.
Import Heap HeapSpec.



Lemma option_map_Some {A B} (f : A -> B) o b :
  option_map f o = Some b -> exists a, o = Some a /\ b = f a.
Proof. destruct o; simpl; intros E; inversion E; eauto. Qed.

Lemma reify_step L L' f f' :
  (forall v t, reify_in L f v = Some t -> reify_in L' f' v = Some t) ->
  sub_view L L' ->
  forall v t, reify_in L (S f) v = Some t -> reify_in L' (S f') v = Some t.
Proof.
  intros IH HL v t. destruct v; simpl; auto.
  destruct (L a) as [o|] eqn:Ea; [|discriminate].
  rewrite (HL _ _ Ea). destruct o as [l|d]; intros E.
  - apply option_map_Some in E as (ts & E & ->).
    apply mapM_Some in E.
    assert (E' : mapM (reify_in L' f') l = Some ts).
    { apply mapM_Some. eapply Forall2_impl; [exact E|]. auto. }
    now rewrite E'.
  - apply option_map_Some in E as (ts & E & ->).
    apply mapM_Some in E.
    assert (E' : mapM (fun kv => option_map (pair (fst kv)) (reify_in L' f' (snd kv))) d
                 = Some ts).
    { apply mapM_Some. eapply Forall2_impl; [exact E|].
      intros kv kt H. apply option_map_Some in H as (t & H & ->).
      now rewrite (IH _ _ H). }
    now rewrite E'.
Qed.

Lemma reify_fuel_S L f v t :
  reify_in L f v = Some t -> reify_in L (S f) v = Some t.
Proof.
  revert v t. induction f as [|f IH]; intros v t.
  - destruct v; simpl; auto. discriminate.
  - apply reify_step; [exact IH | intros a o; auto].
Qed.

Lemma reify_fuel_le L f f' v t :
  (f <= f')%nat -> reify_in L f v = Some t -> reify_in L f' v = Some t.
Proof.
  induction 1; [auto|]. intros E. now apply reify_fuel_S, IHle.
Qed.

Lemma reify_sub_view L L' f v t :
  sub_view L L' -> reify_in L f v = Some t -> reify_in L' f v = Some t.
Proof.
  intros HL. revert v t. induction f as [|f IH]; intros v t.
  - destruct v; simpl; auto.
  - now apply reify_step.
Qed.

Lemma rep_sub_view L L' v t : sub_view L L' -> rep L v t -> rep L' v t.
Proof. intros HL [f E]. exists f. eapply reify_sub_view; eauto. Qed.

(** One fuel for the elements of a list. *)
Lemma rep_common_fuel {X Y} L (g : X -> hval) (g' : Y -> value) (l : list X) (ts : list Y)
    (R : X -> Y -> Prop) :
  Forall2 (fun x y => R x y /\ rep L (g x) (g' y)) l ts ->
  exists f, Forall2 (fun x y => R x y /\ reify_in L f (g x) = Some (g' y)) l ts.
Proof.
  induction 1 as [|x y l ts [HR [f Hf]] _ [f' IH]].
  - exists 0%nat. constructor.
  - exists (f `max` f')%nat. constructor.
    + split; [exact HR|]. eapply reify_fuel_le; [|exact Hf]. lia.
    + eapply Forall2_impl; [exact IH|]. intros x' y' [HR' H'].
      split; [exact HR'|]. eapply reify_fuel_le; [|exact H']. lia.
Qed.

Lemma rep_list_intro L a l ts :
  L a = Some (OList l) -> Forall2 (rep L) l ts -> rep L (HRef a) (VList ts).
Proof.
  intros Ea Hl.
  destruct (rep_common_fuel L id id l ts (fun _ _ => True)) as [f Hf].
  { eapply Forall2_impl; [exact Hl|]. simpl. auto. }
  exists (S f). simpl. rewrite Ea.
  assert (E : mapM (reify_in L f) l = Some ts).
  { apply mapM_Some. eapply Forall2_impl; [exact Hf|]. simpl. tauto. }
  now rewrite E.
Qed.

Lemma rep_dict_intro L a d dt :
  L a = Some (ODict d) -> drel L d dt -> rep L (HRef a) (VDict dt).
Proof.
  intros Ea Hd.
  destruct (rep_common_fuel L snd snd d dt (fun kv kt => fst kv = fst kt)) as [f Hf].
  { exact Hd. }
  exists (S f). simpl. rewrite Ea.
  assert (E : mapM (fun kv => option_map (pair (fst kv)) (reify_in L f (snd kv))) d
              = Some dt).
  { apply mapM_Some. eapply Forall2_impl; [exact Hf|].
    intros [k v] [k' t] [Hk Hv]. simpl in *. subst k'. now rewrite Hv. }
  now rewrite E.
Qed.

Lemma rep_ref_inv L a t :
  rep L (HRef a) t ->
  (exists l ts, L a = Some (OList l) /\ t = VList ts /\ Forall2 (rep L) l ts)
  \/ (exists d dt, L a = Some (ODict d) /\ t = VDict dt /\ drel L d dt).
Proof.
  intros [[|f] E]; simpl in E; [discriminate|].
  destruct (L a) as [[l|d]|]; [| |discriminate].
  - left. apply option_map_Some in E as (ts & E & ->). apply mapM_Some in E.
    exists l, ts. repeat split; auto.
    eapply Forall2_impl; [exact E|]. intros x y H. now exists f.
  - right. apply option_map_Some in E as (dt & E & ->). apply mapM_Some in E.
    exists d, dt. repeat split; auto.
    eapply Forall2_impl; [exact E|]. intros [k v] kt H. simpl in *.
    apply option_map_Some in H as (t & H & ->). simpl. split; [reflexivity|].
    now exists f.
Qed.

Lemma rep_scalar L v t :
  rep L v t ->
  match v with
  | HNone => t = VNone
  | HBool b => t = VBool b
  | HInt n => t = VInt n
  | HStr s => t = VStr s
  | HRef _ => True
  end.
Proof. intros [f E]. destruct v, f; simpl in E; try inversion E; auto. Qed.

Lemma rep_none L : rep L HNone VNone.
Proof. now exists 0%nat. Qed.
Lemma rep_int L n : rep L (HInt n) (VInt n).
Proof. now exists 0%nat. Qed.
Lemma rep_str L s : rep L (HStr s) (VStr s).
Proof. now exists 0%nat. Qed.

Lemma drel_get L d dt k :
  drel L d dt ->
  match dict_get k d, dict_get k dt with
  | Some v, Some t => rep L v t
  | None, None => True
  | _, _ => False
  end.
Proof.
  induction 1 as [|[k1 v] [k2 t] d dt [Hk Hv] _ IH]; simpl; [exact I|].
  simpl in Hk. subst k2. destruct (k =? k1)%string; [exact Hv | exact IH].
Qed.

End HeapRep.

Module HeapSim.
Import Heap HeapSpec HeapRep.




Lemma sim_bind {A B A' B'} P (mh : H A) (mt : M B) Q (kh : A -> H A') (kt : B -> M B') R :
  sim P mh mt Q -> (forall a b, sim (Q a b) (kh a) (kt b) R) ->
  sim P (bind mh kh) (bind mt kt) R.
Proof.
  intros Hm Hk s Hs. destruct (Hm s Hs) as [Ht Hr]. unfold bind.
  destruct (mh s) as [[a|e] s1], (mt (ticks s)) as [[b|e'] n1];
    simpl in *; try contradiction.
  - subst n1. now apply Hk.
  - auto.
Qed.

Lemma sim_left {C A B} P (mh : H C) (k : C -> H A) (mt : M B) (P' : C -> list obj -> Prop) Q :
  (forall s, P (heap s) ->
     exists c s', mh s = (Ok c, s') /\ ticks s' = ticks s /\ P' c (heap s')) ->
  (forall c, sim (P' c) (k c) mt Q) ->
  sim P (bind mh k) mt Q.
Proof.
  intros Hm Hk s Hs. destruct (Hm s Hs) as (c & s' & E & Ht & HP).
  unfold bind. rewrite E. destruct (Hk c s' HP) as [H1 H2].
  rewrite Ht in H1, H2. auto.
Qed.

Lemma sim_fix {A B} (P : list obj -> Prop) (mh : H A) (mt : M B) Q :
  (forall h, P h -> sim (fun h' => h' = h) mh mt Q) -> sim P mh mt Q.
Proof. intros H s Hs. now apply (H (heap s) Hs s). Qed.

Lemma sim_conseq {A B} (P P' : list obj -> Prop) (mh : H A) (mt : M B)
    (Q Q' : A -> B -> list obj -> Prop) :
  sim P mh mt Q -> (forall h, P' h -> P h) ->
  (forall a b h, Q a b h -> Q' a b h) -> sim P' mh mt Q'.
Proof.
  intros Hm HP HQ s Hs. destruct (Hm s (HP _ Hs)) as [H1 H2]. split; [exact H1|].
  destruct (fst (mh s)), (fst (mt (ticks s))); simpl in *; auto.
Qed.

Lemma sim_ret {A B} (P : list obj -> Prop) (a : A) (b : B) (Q : A -> B -> list obj -> Prop) :
  (forall h, P h -> Q a b h) -> sim P (ret a) (ret b) Q.
Proof. intros HQ s Hs. split; [reflexivity|]. simpl. auto. Qed.

(** A step that reads the heap, against a pure step on values. *)
Lemma sim_read {A B} (P : list obj -> Prop) (mh : H A) (rt : result B) (R : A -> B -> Prop) :
  (forall s, P (heap s) -> snd (mh s) = s /\ sim_res R (fst (mh s)) rt) ->
  sim P mh (lift rt) (fun a b h => P h /\ R a b).
Proof.
  intros Hm s Hs. destruct (Hm s Hs) as [H1 H2]. rewrite H1. split; [reflexivity|].
  simpl. destruct (fst (mh s)), rt; simpl in *; auto.
Qed.

(** With the frame of [mh], the heap it leaves extends the one it found. *)
Lemma sim_keeps {A B} h0 (mh : H A) (mt : M B) Q (K : A -> Prop) :
  sim (fun h => h = h0) mh mt Q -> keeps h0 mh K ->
  sim (fun h => h = h0) mh mt (fun a b h => Q a b h /\ h0 `prefix_of` h /\ K a).
Proof.
  intros Hm Hk s Hs. destruct (Hm s Hs) as [H1 H2]. split; [exact H1|].
  destruct (Hk s) as [K1 K2]; [now rewrite Hs|].
  destruct (fst (mh s)), (fst (mt (ticks s))); simpl in *; auto.
Qed.

(** *** The primitives *)

Lemma load_at s a o : heap s !! a = Some o -> load a s = (Ok o, s).
Proof. unfold load. now intros ->. Qed.

Lemma truthy_rep L v t s :
  rep L v t -> below L (heap s) -> Heap.truthy v s = (Ok (Py.truthy t), s).
Proof.
  intros Hr HL. destruct v.
  1-4: apply rep_scalar in Hr; subst t; reflexivity.
  apply rep_ref_inv in Hr as [(l & ts & Ea & -> & Hl) | (d & dt & Ea & -> & Hd)];
    simpl; unfold bind; rewrite (load_at _ _ _ (HL _ _ Ea)); unfold ret.
  - now destruct Hl.
  - now destruct Hd.
Qed.

Lemma subscript_rep L x tx k s :
  rep L x tx -> below L (heap s) ->
  snd (Heap.subscript x k s) = s
  /\ sim_res (rep L) (fst (Heap.subscript x k s)) (Py.subscript tx k).
Proof.
  intros Hr HL. destruct x.
  1-4: apply rep_scalar in Hr; subst tx; split; reflexivity.
  apply rep_ref_inv in Hr as [(l & ts & Ea & -> & Hl) | (d & dt & Ea & -> & Hd)];
    simpl; unfold bind; rewrite (load_at _ _ _ (HL _ _ Ea)).
  - split; reflexivity.
  - pose proof (drel_get L d dt k Hd) as Hg.
    destruct (dict_get k d), (dict_get k dt); try contradiction;
      split; simpl; auto.
Qed.

Lemma items_rep L x tx s :
  rep L x tx -> below L (heap s) ->
  snd (Heap.items x s) = s
  /\ sim_res (drel L) (fst (Heap.items x s)) (Py.items tx).
Proof.
  intros Hr HL. destruct x.
  1-4: apply rep_scalar in Hr; subst tx; split; reflexivity.
  apply rep_ref_inv in Hr as [(l & ts & Ea & -> & Hl) | (d & dt & Ea & -> & Hd)];
    simpl; unfold bind; rewrite (load_at _ _ _ (HL _ _ Ea)); split; simpl; auto.
Qed.

Lemma iterate_rep L x tx s :
  rep L x tx -> below L (heap s) ->
  snd (Heap.iterate x s) = s
  /\ sim_res (Forall2 (rep L)) (fst (Heap.iterate x s)) (Py.iterate tx).
Proof.
  intros Hr HL. destruct x as [| | |str|a].
  1-3: apply rep_scalar in Hr; subst tx; split; reflexivity.
  - apply rep_scalar in Hr; subst tx. split; [reflexivity|]. simpl.
    induction (list_ascii_of_string str); simpl; constructor;
      [apply rep_str | assumption].
  - apply rep_ref_inv in Hr as [(l & ts & Ea & -> & Hl) | (d & dt & Ea & -> & Hd)];
      simpl; unfold bind; rewrite (load_at _ _ _ (HL _ _ Ea));
      (split; [reflexivity|]); simpl.
    + exact Hl.
    + clear Ea.
      induction Hd as [|[k v] [k' t] d dt [Hk _] _ IH]; simpl; constructor; auto.
      simpl in Hk. subst k'. apply rep_str.
Qed.

Lemma strptime_rep L v t : rep L v t -> Heap.strptime v = Main.strptime t.
Proof.
  intros Hr. destruct v.
  1-4: apply rep_scalar in Hr; subst t; reflexivity.
  apply rep_ref_inv in Hr as [(l & ts & Ea & -> & Hl) | (d & dt & Ea & -> & Hd)];
    reflexivity.
Qed.

Section Program.
Variable clock : nat -> datetime.

Lemma parse_date_rep L v t s :
  rep L v t -> below L (heap s) -> Py.truthy t = true ->
  Heap.parse_date v s
  = (match Main.strptime t with Ok d => Ok (Some d) | Raise e => Raise e end, s).
Proof.
  intros Hr HL Et. unfold Heap.parse_date.
  rewrite (bind_ok _ _ _ _ _ (truthy_rep L v t s Hr HL)), Et. cbn [negb].
  unfold bind, lift, ret. rewrite (strptime_rep L v t Hr).
  now destruct (Main.strptime t).
Qed.

Lemma days_until_rep L v t s :
  rep L v t -> below L (heap s) ->
  Heap.days_until clock v s
  = (fst (Main.days_until clock t (ticks s)),
     mkstate (heap s) (snd (Main.days_until clock t (ticks s)))).
Proof.
  intros Hr HL. rewrite days_until_spec. unfold Heap.days_until.
  rewrite (bind_ok _ _ _ _ _ (truthy_rep L v t s Hr HL)).
  destruct (Py.truthy t) eqn:Et; cbn [negb]; [|now destruct s].
  destruct (Main.strptime t) as [d|e] eqn:Es.
  - rewrite (bind_ok _ _ s (Some d) s).
    + reflexivity.
    + rewrite (parse_date_rep L v t s Hr HL Et). now rewrite Es.
  - rewrite (bind_raise _ _ s e s).
    + now destruct s.
    + rewrite (parse_date_rep L v t s Hr HL Et). now rewrite Es.
Qed.

End Program.
End HeapSim.

Module HeapRecord.
Import Heap HeapSpec HeapRep HeapSim.


Lemma rep_str_inv L v s : rep L v (VStr s) -> v = HStr s.
Proof.
  intros Hr. destruct v.
  1-4: apply rep_scalar in Hr; congruence.
  apply rep_ref_inv in Hr as [(l & ts & _ & E & _) | (d & dt & _ & E & _)];
    discriminate.
Qed.

Lemma masked_full A h : sub_view (masked A h) (full h).
Proof. intros a o. unfold masked, full. now destruct (A a). Qed.

Lemma masked_prefix A h h' :
  h `prefix_of` h' -> sub_view (masked A h) (masked A h').
Proof.
  intros Hp a o. unfold masked. destruct (A a); [discriminate|].
  intros E. eapply prefix_lookup_Some; eassumption.
Qed.

Lemma masked_below A h h' : h `prefix_of` h' -> below (masked A h) h'.
Proof.
  intros Hp a o E. apply masked_full in E. eapply prefix_lookup_Some; eassumption.
Qed.


Section Record.
Variable clock : nat -> datetime.
Variable A : addr -> bool.
Variable h0 : list obj.
Hypothesis A_old : forall b, A b = true -> (b < length h0)%nat.

Let c := length h0.
Let L0 := masked A h0.

Local Abbreviation entry_rel := (HeapSpec.entry_rel h0).
Local Abbreviation during := (HeapSpec.during h0).
Local Abbreviation vrel := (HeapSpec.vrel A h0).
Local Abbreviation crel := (HeapSpec.crel A h0).



Lemma entry_rel_keep h h' r t :
  (forall e, (c + 3 <= e)%nat -> forall o, h !! e = Some o -> h' !! e = Some o) ->
  entry_rel h r t -> entry_rel h' r t.
Proof.
  intros Hk (e & k & sd & n & -> & He & Hl & ->).
  exists e, k, sd, n. repeat split; auto.
Qed.

Lemma during_alloc dc refs ents h o :
  during dc refs ents h -> during dc refs ents (h ++ [o]).
Proof.
  intros (Hp & Hc & Hl & Hlen & He). repeat split.
  - etransitivity; [exact Hp|]. now apply prefix_app_r.
  - now apply lookup_app_l_Some.
  - now apply lookup_app_l_Some.
  - rewrite length_app. lia.
  - eapply Forall2_impl; [exact He|]. intros r t. apply entry_rel_keep.
    intros e _ o' E. now apply lookup_app_l_Some.
Qed.

Lemma during_list dc refs ents refs' ents' h :
  during dc refs ents h ->
  Forall2 (entry_rel h) refs' ents' ->
  during dc refs' ents' (<[S c := OList refs']> h).
Proof.
  intros (Hp & Hc & Hl & Hlen & He) He'. repeat split.
  - apply HeapFacts.prefix_insert; [exact Hp | unfold c; lia].
  - rewrite list_lookup_insert_ne by lia. exact Hc.
  - apply list_lookup_insert_eq. lia.
  - rewrite length_insert. exact Hlen.
  - eapply Forall2_impl; [exact He'|]. intros r t. apply entry_rel_keep.
    intros e Hge o E. rewrite list_lookup_insert_ne by lia. exact E.
Qed.

Lemma during_dict dc dc' refs ents h :
  during dc refs ents h -> during dc' refs ents (<[c := ODict dc']> h).
Proof.
  intros (Hp & Hc & Hl & Hlen & He). repeat split.
  - apply HeapFacts.prefix_insert; [exact Hp | unfold c; lia].
  - apply list_lookup_insert_eq. lia.
  - rewrite list_lookup_insert_ne by lia. exact Hl.
  - rewrite length_insert. exact Hlen.
  - eapply Forall2_impl; [exact He|]. intros r t. apply entry_rel_keep.
    intros e Hge o E. rewrite list_lookup_insert_ne by lia. exact E.
Qed.

Lemma during_below dc refs ents h : during dc refs ents h -> below L0 h.
Proof. intros (Hp & _). now apply masked_below. Qed.

(** [days_until] on both sides. *)
Lemma sim_days_until (P : list obj -> Prop) v t :
  (forall h, P h -> below L0 h) -> rep L0 v t ->
  sim P (Heap.days_until clock v) (Main.days_until clock t)
    (fun r r' h => P h /\ r = r'
                   /\ (forall n, r = Some n -> exists sd, v = HStr sd /\ t = VStr sd)).
Proof.
  intros HP Hr s Hs. rewrite (days_until_rep clock L0 v t s Hr (HP _ Hs)).
  split; [reflexivity|]. cbn [fst snd heap].
  pose proof (days_until_spec clock t (ticks s)) as Hspec.
  destruct (Main.days_until clock t (ticks s)) as [[r|e] n'] eqn:E; simpl; [|reflexivity].
  split; [exact Hs|]. split; [reflexivity|].
  intros n ->. destruct (negb (Py.truthy t)); [discriminate|].
  destruct t; try discriminate. exists s0. split; [|reflexivity].
  now apply (rep_str_inv L0).
Qed.

(** The loop over the deadlines. *)
Lemma sim_collect its tits :
  drel L0 its tits ->
  forall refs ents dc,
    sim (during dc refs ents)
      (Heap.collect_deadlines clock its (HRef (S c)))
      (Main.collect_deadlines clock tits ents)
      (fun _ ents' h => exists refs', during dc refs' ents' h).
Proof.
  induction 1 as [|[k v] [k' t] its tits [Hk Hv] _ IH]; intros refs ents dc;
    simpl in *.
  - apply sim_ret. eauto.
  - subst k'. eapply sim_bind.
    + apply (sim_days_until (during dc refs ents)); [apply during_below | exact Hv].
    + intros r r'. apply sim_fix. intros h (Hd & <- & Hstr).
      destruct r as [n|].
      * destruct (Hstr n eq_refl) as (sd & -> & ->).
        eapply (sim_left _ _ _ _
                  (fun e h' => e = length h /\ h' = (h ++ [entry_obj k sd n])%list)).
        { intros s Hs.
          exists (length h), (mkstate (h ++ [entry_obj k sd n])%list (ticks s)).
          split; [unfold alloc; now rewrite Hs | auto]. }
        intros e.
        eapply (sim_left _ _ _ _
                  (fun _ h' => during dc (refs ++ [HRef e])%list
                                 (ents ++ [deadline_entry k (VStr sd) n])%list h')).
        { intros s [-> Hs]. pose proof (during_alloc _ _ _ _ (entry_obj k sd n) Hd) as Hd'.
          rewrite <- Hs in Hd'. destruct Hd' as (Hp & Hc & Hl & Hlen & He).
          eexists tt, _. split; [apply (HeapFacts.append_at _ _ _ _ Hl)|].
          split; [reflexivity|]. cbn [heap].
          apply (during_list dc refs ents); [repeat split; assumption|].
          apply Forall2_app; [exact He|]. constructor; [|constructor].
          exists (length h), k, sd, n. repeat split.
          - destruct Hd as (_ & _ & _ & Hlen' & _). exact Hlen'.
          - rewrite Hs. now rewrite list_lookup_middle. }
        intros _. exact (IH _ _ dc).
      * eapply sim_conseq; [apply (IH refs ents dc) | | auto]. intros h' ->. exact Hd.
Qed.


(** The keys of the entries, on both sides. *)
Lemma days_key_entry_obj s e k sd n :
  heap s !! e = Some (entry_obj k sd n) -> Heap.days_key (HRef e) s = (Ok n, s).
Proof.
  intros E. unfold Heap.days_key, Heap.subscript, bind, load. now rewrite E.
Qed.

Lemma decorate_entries s refs ents :
  Forall2 (entry_rel (heap s)) refs ents ->
  exists kl klt,
    Heap.decorate Heap.days_key refs s = (Ok kl, s)
    /\ ListSort.decorate Main.days_key ents = Ok klt
    /\ Forall2 (fun p q => fst p = fst q /\ entry_rel (heap s) (snd p) (snd q)) kl klt.
Proof.
  induction 1 as [|r t refs ents Hr _ (kl & klt & E1 & E2 & IH)].
  - exists [], []. repeat split. constructor.
  - pose proof Hr as (e & k & sd & n & -> & He & Hl & ->).
    exists ((n, HRef e) :: kl), ((n, deadline_entry k (VStr sd) n) :: klt).
    split; [|split].
    + cbn [Heap.decorate]. rewrite (bind_ok _ _ _ _ _ (days_key_entry_obj _ _ _ _ _ Hl)).
      now rewrite (bind_ok _ _ _ _ _ E1).
    + cbn [ListSort.decorate]. unfold Main.days_key at 1. cbn. now rewrite E2.
    + constructor; [split; [reflexivity | exact Hr] | exact IH].
Qed.

Lemma insert_keyed_rel {X Y K} (lt : K -> K -> bool) (R : X -> Y -> Prop)
    (p : K * X) (q : K * Y) l l' :
  fst p = fst q /\ R (snd p) (snd q) ->
  Forall2 (fun p q => fst p = fst q /\ R (snd p) (snd q)) l l' ->
  Forall2 (fun p q => fst p = fst q /\ R (snd p) (snd q))
    (insert_keyed lt p l) (insert_keyed lt q l').
Proof.
  intros Hpq. induction 1 as [|x y l l' Hxy Hl IH]; simpl.
  - constructor; [exact Hpq | constructor].
  - destruct Hpq as [Hk Hr]. destruct Hxy as [Hk' Hr'].
    rewrite <- Hk, <- Hk'. destruct (lt (fst x) (fst p)).
    + constructor; [now split | apply IH].
    + constructor; [now split|]. constructor; [now split | exact Hl].
Qed.

Lemma sort_keyed_rel {X Y K} (lt : K -> K -> bool) (R : X -> Y -> Prop)
    (l : list (K * X)) (l' : list (K * Y)) :
  Forall2 (fun p q => fst p = fst q /\ R (snd p) (snd q)) l l' ->
  Forall2 R (map snd (sort_keyed lt l)) (map snd (sort_keyed lt l')).
Proof.
  intros Hl.
  assert (Hs : Forall2 (fun p q => fst p = fst q /\ R (snd p) (snd q))
                 (sort_keyed lt l) (sort_keyed lt l')).
  { induction Hl as [|x y l l' Hxy _ IH]; simpl; [constructor|].
    now apply insert_keyed_rel. }
  induction Hs as [|x y k k' [_ Hxy] _ IH]; simpl; constructor; auto.
Qed.

Lemma sort_at {K} (lt : K -> K -> bool) (key : hval -> H K) s a l kl :
  heap s !! a = Some (OList l) -> Heap.decorate key l s = (Ok kl, s) ->
  Heap.sort lt key (HRef a) s
  = (Ok tt, mkstate (<[a := OList (map snd (sort_keyed lt kl))]> (heap s)) (ticks s)).
Proof.
  intros El Ed. unfold Heap.sort, bind, load. rewrite El, Ed. reflexivity.
Qed.

Lemma sim_sort_entries dc refs ents :
  sim (during dc refs ents)
    (Heap.sort Z.ltb Heap.days_key (HRef (S c)))
    (lift (list_sort Z.ltb Main.days_key ents))
    (fun _ ents' h => exists refs', during dc refs' ents' h).
Proof.
  intros s Hd. pose proof Hd as (Hp & Hc & Hl & Hlen & He).
  destruct (decorate_entries s refs ents He) as (kl & klt & E1 & E2 & Hk).
  rewrite (sort_at _ _ _ _ _ _ Hl E1). unfold lift, list_sort. rewrite E2.
  split; [reflexivity|]. cbn [fst snd heap sim_res].
  exists (map snd (sort_keyed Z.ltb kl)).
  apply (during_list dc refs ents); [exact Hd|]. now apply sort_keyed_rel.
Qed.

(** *** The stores into [conf_copy] *)

Lemma unmasked b : (c <= b)%nat -> A b = false.
Proof using A_old.
  intros Hb. destruct (A b) eqn:E; [|reflexivity]. apply A_old in E. unfold c in Hb. lia.
Qed.

Lemma entry_rel_rep h r t : entry_rel h r t -> rep (masked A h) r t.
Proof using A_old.
  intros (e & k & sd & n & -> & He & Hl & ->).
  eapply rep_dict_intro.
  - unfold masked. rewrite unmasked by lia. exact Hl.
  - repeat constructor; simpl; auto using rep_str, rep_int.
Qed.


Lemma vrel_old refs ents v t : rep L0 v t -> vrel refs ents v t.
Proof.
  intros Hr h dc (Hp & _). eapply rep_sub_view; [|exact Hr]. now apply masked_prefix.
Qed.

Lemma vrel_list refs ents : vrel refs ents (HRef (S c)) (VList ents).
Proof using A_old.
  intros h dc (Hp & Hc & Hl & Hlen & He). eapply rep_list_intro.
  - unfold masked. rewrite unmasked by lia. exact Hl.
  - eapply Forall2_impl; [exact He|]. apply entry_rel_rep.
Qed.

Lemma vrel_head refs ents :
  vrel refs ents (match refs with x :: _ => x | [] => HNone end)
    (match ents with x :: _ => x | [] => VNone end).
Proof using A_old.
  intros h dc (Hp & Hc & Hl & Hlen & He).
  destruct He; [apply rep_none | now apply entry_rel_rep].
Qed.

Lemma vrel_opt_int refs ents o : vrel refs ents (Heap.opt_int o) (Main.opt_int o).
Proof. intros h dc _. destruct o; [apply rep_int | apply rep_none]. Qed.

Lemma crel_old refs ents d dt : drel L0 d dt -> crel refs ents d dt.
Proof.
  intros Hd. eapply Forall2_impl; [exact Hd|].
  intros kv kt [Hk Hv]. split; [exact Hk | now apply vrel_old].
Qed.

Lemma crel_set refs ents dc dtc k v t :
  crel refs ents dc dtc -> vrel refs ents v t ->
  crel refs ents (dict_set k v dc) (dict_set k t dtc).
Proof.
  intros Hd Hv. induction Hd as [|[k1 v1] [k2 t1] d dt [Hk H1] Hd IH]; simpl.
  - constructor; [split; [reflexivity | exact Hv] | constructor].
  - simpl in Hk. subst k2. destruct (k =? k1)%string.
    + constructor; [split; [reflexivity | exact Hv] | exact Hd].
    + constructor; [split; [reflexivity | exact H1] | exact IH].
Qed.

Lemma crel_rep refs ents dc dtc h :
  during dc refs ents h -> crel refs ents dc dtc ->
  rep (masked A h) (HRef c) (VDict dtc).
Proof using A_old.
  intros Hd Hc. pose proof Hd as (_ & Hl & _). eapply rep_dict_intro.
  - unfold masked. rewrite unmasked by lia. exact Hl.
  - eapply Forall2_impl; [exact Hc|]. intros kv kt [Hk Hv].
    split; [exact Hk | now apply (Hv h dc)].
Qed.

Lemma setitem_at s a d k v :
  heap s !! a = Some (ODict d) ->
  Heap.setitem (HRef a) k v s
  = (Ok tt, mkstate (<[a := ODict (dict_set k v d)]> (heap s)) (ticks s)).
Proof. intros E. unfold Heap.setitem, bind, load. now rewrite E. Qed.

Lemma sim_setitem dc refs ents dtc k v t :
  sim (during dc refs ents)
    (Heap.setitem (HRef c) k v) (lift (Py.setitem (VDict dtc) k t))
    (fun _ t' h => t' = VDict (dict_set k t dtc)
                   /\ during (dict_set k v dc) refs ents h).
Proof.
  intros s Hd. pose proof Hd as (_ & Hc & _).
  rewrite (setitem_at _ _ _ _ _ Hc). split; [reflexivity|].
  cbn. split; [reflexivity|]. now apply (during_dict dc).
Qed.


(** *** A record *)

Lemma copy_at s a o :
  heap s !! a = Some o ->
  Heap.copy (HRef a) s
  = (Ok (HRef (length (heap s))), mkstate (heap s ++ [o])%list (ticks s)).
Proof. intros E. unfold Heap.copy, bind, load, alloc. now rewrite E. Qed.

Lemma alloc_at o s :
  alloc o s = (Ok (length (heap s)), mkstate (heap s ++ [o])%list (ticks s)).
Proof. reflexivity. Qed.

Lemma get_default_at_list s a l k dflt :
  heap s !! a = Some (OList l) ->
  Heap.get_default (HRef a) k dflt s = (Raise AttributeError, s).
Proof. intros E. unfold Heap.get_default, bind, load. now rewrite E. Qed.

Lemma get_default_at_dict s a d k dflt :
  heap s !! a = Some (ODict d) ->
  Heap.get_default (HRef a) k dflt s
  = (Ok (match dict_get k d with Some v => v | None => dflt end), s).
Proof. intros E. unfold Heap.get_default, bind, load. now rewrite E. Qed.

Lemma enrich_one_not_dict conf tconf s :
  rep L0 conf tconf -> heap s = h0 ->
  (forall dt, tconf <> VDict dt) ->
  fst (Heap.enrich_one clock conf s) = Raise AttributeError
  /\ ticks (snd (Heap.enrich_one clock conf s)) = ticks s
  /\ Main.enrich_one clock tconf (ticks s) = (Raise AttributeError, ticks s).
Proof.
  intros Hr Hs Hnd. destruct conf.
  1-4: apply rep_scalar in Hr; subst tconf; repeat split; reflexivity.
  apply rep_ref_inv in Hr as [(l & ts & Ea & -> & Hl) | (d & dt & Ea & -> & Hd)].
  - apply masked_full in Ea. unfold full in Ea. rewrite <- Hs in Ea.
    unfold Heap.enrich_one.
    rewrite (bind_ok _ _ _ _ _ (copy_at _ _ _ Ea)).
    rewrite (bind_ok _ _ _ _ _ (alloc_at _ _)).
    rewrite (bind_ok _ _ _ _ _ (alloc_at _ _)).
    erewrite bind_raise; cycle 1.
    { apply (get_default_at_list _ a l). cbn [heap].
      apply lookup_app_l_Some, lookup_app_l_Some. now apply lookup_app_l_Some. }
    repeat split; reflexivity.
  - now destruct (Hnd dt).
Qed.

Lemma items_at_dict s a d :
  heap s !! a = Some (ODict d) -> Heap.items (HRef a) s = (Ok d, s).
Proof. intros E. unfold Heap.items, bind, load. now rewrite E. Qed.

Lemma iterate_at_list s a l :
  heap s !! a = Some (OList l) -> Heap.iterate (HRef a) s = (Ok l, s).
Proof. intros E. unfold Heap.iterate, bind, load. now rewrite E. Qed.

Lemma sim_enrich_one_dict a d dt :
  h0 !! a = Some (ODict d) -> drel L0 d dt ->
  sim (fun h => h = h0) (Heap.enrich_one clock (HRef a))
    (Main.enrich_one clock (VDict dt))
    (fun v t h => rep (masked A h) v t).
Proof using A_old.
  intros Ea Hd. unfold Heap.enrich_one, Main.enrich_one.
  (* conf_copy = conf.copy() *)
  eapply (sim_bind _ _ _
            (fun v t h => v = HRef c /\ t = VDict dt /\ h = (h0 ++ [ODict d])%list)).
  { intros s Hs. rewrite <- Hs in Ea. rewrite (copy_at _ _ _ Ea), Hs.
    split; [reflexivity|]. cbn. auto. }
  intros conf_copy tcopy. apply sim_fix. intros h (-> & -> & ->).
  (* all_deadlines = [] and the default of get *)
  eapply (sim_left _ _ _ _
            (fun a1 h' => a1 = S c /\ h' = (h0 ++ [ODict d; OList []])%list)).
  { intros s Hs. eexists _, _. split; [apply alloc_at|]. cbn [heap ticks]. rewrite Hs.
    rewrite length_app, <- app_assoc. cbn. split; [|split]; auto. unfold c. lia. }
  intros a1. apply sim_fix. intros h (-> & ->).
  eapply (sim_left _ _ _ _
            (fun e h' => e = S (S c)
                         /\ h' = (h0 ++ [ODict d; OList []; ODict []])%list)).
  { intros s Hs. eexists _, _. split; [apply alloc_at|]. cbn [heap ticks]. rewrite Hs.
    rewrite length_app, <- app_assoc. cbn. split; [|split]; auto. unfold c. lia. }
  intros e. apply sim_fix. intros h (-> & ->).
  set (h3 := (h0 ++ [ODict d; OList []; ODict []])%list).
  assert (Hp3 : h0 `prefix_of` h3) by now apply prefix_app_r.
  assert (Hd3 : during d [] [] h3).
  { repeat split; auto.
    - unfold h3, c. now rewrite list_lookup_middle.
    - unfold h3, c. rewrite lookup_app_r by lia.
      now replace (S (length h0) - length h0)%nat with 1%nat by lia.
    - unfold h3, c. rewrite length_app. simpl. lia. }
  assert (Ha3 : h3 !! a = Some (ODict d)) by (eapply prefix_lookup_Some; eassumption).
  (* conf.get("deadlines", {}) *)
  eapply (sim_bind _ _ _
            (fun dl tdl h => h = h3 /\ (rep L0 dl tdl
                                        \/ (dl = HRef (S (S c)) /\ tdl = VDict [])))).
  { intros s Hs. rewrite <- Hs in Ha3. rewrite (get_default_at_dict _ _ _ _ _ Ha3).
    split; [reflexivity|]. cbn. split; [exact Hs|].
    pose proof (drel_get L0 d dt "deadlines" Hd) as Hg.
    destruct (dict_get "deadlines" d) as [v|], (dict_get "deadlines" dt) as [t|];
      try contradiction; auto. }
  intros dl tdl. apply sim_fix. intros h [-> Hdl].
  (* .items() *)
  eapply (sim_bind _ _ _ (fun its tits h => h = h3 /\ drel L0 its tits)).
  { destruct Hdl as [Hdl | [-> ->]].
    - apply (sim_read (fun h => h = h3) _ _ (drel L0)).
      intros s Hs. apply (items_rep L0 dl tdl); [exact Hdl|].
      rewrite Hs. now apply masked_below.
    - intros s Hs.
      assert (He : heap s !! S (S c) = Some (ODict [])).
      { rewrite Hs. unfold h3, c. rewrite lookup_app_r by lia.
        now replace (S (S (length h0)) - length h0)%nat with 2%nat by lia. }
      rewrite (items_at_dict _ _ _ He). split; [reflexivity|].
      cbn. split; [exact Hs | constructor]. }
  intros its tits. apply sim_fix. intros h [-> Hits].
  (* the loop over the deadlines *)
  eapply sim_bind.
  { eapply sim_conseq; [apply (sim_collect its tits Hits [] [] d) | |].
    - intros h ->. exact Hd3.
    - intros ? ? ? H. exact H. }
  intros [] ents. apply sim_fix. intros h (refs & Hdur).
  (* all_deadlines.sort(...) *)
  eapply sim_bind.
  { eapply sim_conseq; [apply (sim_sort_entries d refs ents) | |].
    - intros ? ->. exact Hdur.
    - intros ? ? ? H. exact H. }
  clear h refs ents Hdur.
  intros [] ents. apply sim_fix. intros h (refs & Hdur).
  (* conf_copy["all_deadlines"] = all_deadlines *)
  eapply sim_bind.
  { eapply sim_conseq;
      [apply (sim_setitem d refs ents dt "all_deadlines" (HRef (S c)) (VList ents)) | |].
    - intros ? ->. exact Hdur.
    - intros ? ? ? H. exact H. }
  intros [] tcopy1. apply sim_fix. intros h1 [-> Hdur1].
  (* all_deadlines[0] if all_deadlines else None *)
  eapply (sim_left _ _ _ _ (fun l h' => l = refs /\ h' = h1)).
  { intros s Hs. exists refs, s. split; [|auto].
    apply iterate_at_list. rewrite Hs. apply Hdur1. }
  intros l. apply sim_fix. intros h' [-> ->].
  eapply sim_bind.
  { eapply sim_conseq; [apply sim_setitem | |].
    - intros ? ->. exact Hdur1.
    - intros ? ? ? H. exact H. }
  intros [] tcopy2. apply sim_fix. intros h2 [-> Hdur2].
  (* conf.get("conference_date") *)
  assert (Ha2 : h2 !! a = Some (ODict d)).
  { eapply prefix_lookup_Some; [exact Ea | apply Hdur2]. }
  eapply (sim_bind _ _ _ (fun cd tcd h => h = h2 /\ rep L0 cd tcd)).
  { intros s Hs. rewrite <- Hs in Ha2. rewrite (get_default_at_dict _ _ _ _ _ Ha2).
    split; [reflexivity|]. cbn. split; [exact Hs|].
    pose proof (drel_get L0 d dt "conference_date" Hd) as Hg.
    destruct (dict_get "conference_date" d) as [v|],
             (dict_get "conference_date" dt) as [t|];
      try contradiction; [exact Hg | apply rep_none]. }
  intros cd tcd. apply sim_fix. intros h2' [-> Hcd].
  eapply sim_bind.
  { apply (sim_days_until (fun h => h = h2) cd tcd); [|exact Hcd].
    intros h2' ->. eapply during_below, Hdur2. }
  intros cdays cdays'. apply sim_fix. intros h2' (-> & <- & _).
  (* conf_copy["conference_days"] = ... *)
  eapply sim_bind.
  { eapply sim_conseq; [apply sim_setitem | |].
    - intros ? ->. exact Hdur2.
    - intros ? ? ? H. exact H. }
  intros [] tcopy3. apply sim_fix. intros h4 [-> Hdur4].
  apply sim_ret. intros h4' ->. eapply crel_rep; [exact Hdur4|].
  apply crel_set; [|apply vrel_opt_int].
  apply crel_set; [|apply vrel_head].
  apply crel_set; [|apply vrel_list].
  now apply crel_old.
Qed.

(** Every record, whatever it is. *)
Lemma sim_enrich_one conf tconf :
  rep L0 conf tconf ->
  sim (fun h => h = h0) (Heap.enrich_one clock conf) (Main.enrich_one clock tconf)
    (fun v t h => rep (masked A h) v t).
Proof using A_old.
  intros Hr.
  assert (Hcases : (exists a d dt, conf = HRef a /\ tconf = VDict dt
                                   /\ h0 !! a = Some (ODict d) /\ drel L0 d dt)
                   \/ (forall dt, tconf <> VDict dt)).
  { destruct conf.
    1-4: right; apply rep_scalar in Hr; subst tconf; discriminate.
    pose proof Hr as Hr'.
    apply rep_ref_inv in Hr' as [(l & ts & Ea & -> & Hl) | (d & dt & Ea & -> & Hd)].
    - right. discriminate.
    - left. exists a, d, dt. repeat split; auto. now apply masked_full in Ea. }
  destruct Hcases as [(a & d & dt & -> & -> & Ea & Hd) | Hnd].
  - exact (sim_enrich_one_dict a d dt Ea Hd).
  - intros s Hs.
    destruct (enrich_one_not_dict conf tconf s Hr Hs Hnd) as (E1 & E2 & E3).
    rewrite E1, E2, E3. split; reflexivity.
Qed.

End Record.
End HeapRecord.

Module HeapWhole.
Import Heap HeapSpec HeapRep HeapSim HeapRecord.


Section Whole.
Variable clock : nat -> datetime.

Lemma as_int_rep L v t s :
  rep L v t ->
  snd (Heap.as_int v s) = s /\ sim_res eq (fst (Heap.as_int v s)) (Main.as_int t).
Proof.
  intros Hr. destruct v.
  1-4: apply rep_scalar in Hr; subst t; split; reflexivity.
  apply rep_ref_inv in Hr as [(l & ts & _ & -> & _) | (d & dt & _ & -> & _)];
    split; reflexivity.
Qed.

Lemma read_eq {X} (m : H X) s : snd (m s) = s -> m s = (fst (m s), s).
Proof. intros E. rewrite <- E at 3. apply surjective_pairing. Qed.

Lemma days_key_rep L x t s :
  rep L x t -> below L (heap s) ->
  snd (Heap.days_key x s) = s
  /\ sim_res eq (fst (Heap.days_key x s)) (Main.days_key t).
Proof.
  intros Hr HL. unfold Heap.days_key, Main.days_key.
  destruct (subscript_rep L x t "days" s Hr HL) as [E1 E2]. apply read_eq in E1.
  destruct (fst (Heap.subscript x "days" s)) as [v|e];
    destruct (Py.subscript t "days") as [tv|e']; try contradiction.
  - rewrite (bind_ok _ _ _ _ _ E1). now apply (as_int_rep L).
  - rewrite (bind_raise _ _ _ _ _ E1). split; [reflexivity | exact E2].
Qed.

Lemma sort_key_rep L x t s :
  rep L x t -> below L (heap s) ->
  snd (Heap.sort_key x s) = s
  /\ sim_res eq (fst (Heap.sort_key x s)) (Main.sort_key t).
Proof.
  intros Hr HL. unfold Heap.sort_key, Main.sort_key.
  destruct (subscript_rep L x t "next_deadline" s Hr HL) as [E1 E2].
  apply read_eq in E1.
  destruct (fst (Heap.subscript x "next_deadline" s)) as [v|e];
    destruct (Py.subscript t "next_deadline") as [tv|e']; try contradiction.
  - rewrite (bind_ok _ _ _ _ _ E1).
    rewrite (bind_ok _ _ _ _ _ (truthy_rep L v tv s E2 HL)).
    destruct (negb (Py.truthy tv)); [split; [reflexivity | exact eq_refl]|].
    destruct (days_key_rep L v tv s E2 HL) as [D1 D2]. apply read_eq in D1.
    destruct (fst (Heap.days_key v s)) as [n|e];
      destruct (Main.days_key tv) as [n'|e']; try contradiction.
    + rewrite (bind_ok _ _ _ _ _ D1). simpl in D2. subst n'.
      destruct (n <? 0); split; [reflexivity | exact eq_refl | reflexivity | exact eq_refl].
    + rewrite (bind_raise _ _ _ _ _ D1). split; [reflexivity | exact D2].
  - rewrite (bind_raise _ _ _ _ _ E1). split; [reflexivity | exact E2].
Qed.

Lemma decorate_rep {K} L (kh : hval -> H K) (kt : value -> result K) refs out s :
  (forall x t, rep L x t ->
     snd (kh x s) = s /\ sim_res eq (fst (kh x s)) (kt t)) ->
  Forall2 (rep L) refs out ->
  snd (Heap.decorate kh refs s) = s
  /\ sim_res (Forall2 (fun p q => fst p = fst q /\ rep L (snd p) (snd q)))
       (fst (Heap.decorate kh refs s)) (ListSort.decorate kt out).
Proof.
  intros Hk. induction 1 as [|x t refs out Hx _ [IH1 IH2]]; simpl.
  - split; [reflexivity | constructor].
  - destruct (Hk x t Hx) as [E1 E2]. apply read_eq in E1. apply read_eq in IH1.
    destruct (fst (kh x s)) as [k|e]; destruct (kt t) as [k'|e']; try contradiction.
    + rewrite (bind_ok _ _ _ _ _ E1). simpl in E2. subst k'.
      destruct (fst (Heap.decorate kh refs s)) as [kl|e];
        destruct (ListSort.decorate kt out) as [klt|e']; try contradiction.
      * rewrite (bind_ok _ _ _ _ _ IH1). split; [reflexivity|].
        simpl. constructor; auto.
      * rewrite (bind_raise _ _ _ _ _ IH1). split; [reflexivity | exact IH2].
    + rewrite (bind_raise _ _ _ _ _ E1). split; [reflexivity | exact E2].
Qed.

Lemma sim_now (P : list obj -> Prop) :
  sim P (Heap.datetime_now clock) (Main.datetime_now clock)
    (fun a b h => P h /\ a = b).
Proof. intros s Hs. split; [reflexivity|]. cbn. auto. Qed.

Variable h0 : list obj.

Let a0 := length h0.
Let A0 : addr -> bool := fun b => Nat.eqb b a0.

Local Abbreviation enriching := (HeapSpec.enriching h0).


Lemma A0_old (h : list obj) :
  (a0 < length h)%nat -> forall b, A0 b = true -> (b < length h)%nat.
Proof. intros Hlt b E. apply Nat.eqb_eq in E. now subst b. Qed.

Lemma full_masked (h : list obj) :
  h0 `prefix_of` h -> sub_view (full h0) (masked A0 h).
Proof.
  intros Hp a o E. unfold full in E. unfold masked, A0.
  pose proof (lookup_lt_Some _ _ _ E) as Hlt.
  destruct (Nat.eqb_spec a a0) as [->|_]; [unfold a0 in Hlt; lia|].
  eapply prefix_lookup_Some; eassumption.
Qed.

Lemma masked_store (h : list obj) o :
  sub_view (masked A0 h) (masked A0 (<[a0 := o]> h)).
Proof.
  intros a o' E. unfold masked, A0 in *.
  destruct (Nat.eqb_spec a a0) as [->|Hne]; [discriminate|].
  now rewrite list_lookup_insert_ne by auto.
Qed.

Lemma sim_enrich_loop confs tconfs :
  Forall2 (rep (full h0)) confs tconfs ->
  forall acc,
    sim (enriching acc) (Heap.enrich_loop clock confs (HRef a0))
      (Main.enrich_loop clock tconfs acc)
      (fun _ out h => enriching out h).
Proof.
  induction 1 as [|conf tconf confs tconfs Hc _ IH]; intros acc; simpl.
  - apply sim_ret. auto.
  - apply sim_fix. intros h1 (Hp & refs & Hl & Hrefs).
    assert (Hlt : (a0 < length h1)%nat) by (eapply lookup_lt_Some, Hl).
    eapply sim_bind.
    { apply (sim_keeps h1 _ _ (fun v t h => rep (masked A0 h) v t) (fresh h1)).
      - apply (sim_enrich_one clock A0 h1 (A0_old h1 Hlt)).
        eapply rep_sub_view; [|exact Hc]. now apply full_masked.
      - apply HeapFacts.keeps_enrich_one. }
    intros v t. apply sim_fix. intros h2 (Hv & Hp2 & _).
    eapply (sim_left _ _ _ _ (fun _ h' => enriching (acc ++ [t])%list h')).
    { intros s Hs.
      assert (Hl2 : heap s !! a0 = Some (OList refs)).
      { rewrite Hs. eapply prefix_lookup_Some; eassumption. }
      eexists tt, _. split; [apply (HeapFacts.append_at _ _ _ _ Hl2)|].
      split; [reflexivity|]. cbn [heap]. rewrite Hs. split.
      - apply HeapFacts.prefix_insert; [|reflexivity]. now transitivity h1.
      - exists (refs ++ [v])%list. split.
        + apply list_lookup_insert_eq. apply prefix_length in Hp2. lia.
        + apply Forall2_app; [|constructor; [|constructor]].
          * eapply Forall2_impl; [exact Hrefs|]. intros x y Hxy.
            eapply rep_sub_view; [apply masked_store|].
            eapply rep_sub_view; [apply masked_prefix, Hp2 | exact Hxy].
          * eapply rep_sub_view; [apply masked_store | exact Hv]. }
    intros _. apply IH.
Qed.

(** The whole enrichment: the heap model does what the model on values
    does, on the value the list of conferences stands for. *)
Lemma sim_enrich conferences tconferences :
  rep (full h0) conferences tconferences ->
  sim (fun h => h = h0) (Heap.enrich_conference_data clock conferences)
    (Main.enrich_conference_data clock tconferences)
    (fun v t h => rep (full h) v t /\ h0 `prefix_of` h).
Proof.
  intros Hr. unfold Heap.enrich_conference_data, Main.enrich_conference_data.
  eapply (sim_left _ _ _ _ (fun a h' => a = a0 /\ h' = (h0 ++ [OList []])%list)).
  { intros s Hs. eexists _, _. split; [apply alloc_at|]. cbn [heap ticks].
    rewrite Hs. auto. }
  intros a. apply sim_fix. intros h (-> & ->).
  set (h1 := (h0 ++ [OList []])%list).
  assert (Hp1 : h0 `prefix_of` h1) by now apply prefix_app_r.
  eapply sim_bind; [apply (sim_now (fun h => h = h1))|].
  intros today today'. apply sim_fix. intros h (-> & _).
  eapply sim_bind.
  { apply (sim_read (fun h => h = h1) _ _ (Forall2 (rep (full h0)))).
    intros s Hs. apply iterate_rep; [exact Hr|]. rewrite Hs.
    intros b o E. unfold full in *. eapply prefix_lookup_Some; eassumption. }
  intros confs tconfs. apply sim_fix. intros h (-> & Hconfs).
  eapply sim_bind.
  { eapply sim_conseq; [apply (sim_enrich_loop confs tconfs Hconfs []) | |].
    - intros h ->. split; [exact Hp1|]. exists []. split; [|constructor].
      unfold h1, a0. now rewrite list_lookup_middle.
    - intros ? ? ? H. exact H. }
  intros [] out. apply sim_fix. intros h2 (Hp2 & refs & Hl & Hrefs).
  eapply (sim_bind _ _ _
            (fun _ out' h => h0 `prefix_of` h
               /\ exists refs', h !! a0 = Some (OList refs')
                                /\ Forall2 (rep (masked A0 h)) refs' out')).
  { intros s Hs. unfold Heap.sort, lift, list_sort.
    rewrite <- Hs in Hl. rewrite (bind_ok _ _ _ _ _ (load_at _ _ _ Hl)).
    destruct (decorate_rep (masked A0 h2) Heap.sort_key Main.sort_key refs out s)
      as [D1 D2]; [|exact Hrefs|].
    { intros x t Hx. apply (sort_key_rep (masked A0 h2)); [exact Hx|].
      rewrite Hs. apply masked_full. }
    unfold bind.
    destruct (Heap.decorate Heap.sort_key refs s) as [[kl|e] s1];
      simpl in D1, D2; subst s1;
      destruct (ListSort.decorate Main.sort_key out) as [klt|e'];
      try contradiction.
    - split; [reflexivity|]. cbn. rewrite Hs. split.
      + apply HeapFacts.prefix_insert; [exact Hp2 | reflexivity].
      + exists (map snd (sort_keyed skey_lt kl)). split.
        * apply list_lookup_insert_eq. rewrite <- Hs. eapply lookup_lt_Some, Hl.
        * eapply Forall2_impl; [apply sort_keyed_rel, D2|].
          intros x y Hxy. eapply rep_sub_view; [apply masked_store | exact Hxy].
    - split; [reflexivity | exact D2]. }
  intros [] out'. apply sim_ret. intros h3 (Hp3 & refs' & Hl' & Hrefs').
  split; [|exact Hp3]. eapply rep_list_intro; [exact Hl'|].
  eapply Forall2_impl; [exact Hrefs'|]. intros x y Hxy.
  eapply rep_sub_view; [apply masked_full | exact Hxy].
Qed.

End Whole.
End HeapWhole.

(** The heap model refines the model on values: on a list of conferences
    that stands for the value [t], it reads the clock as often as the model
    on values on [t], and returns a list that stands for the value that one
    returns, or raises the same exception. *)
Lemma heap_enrich_refines clock s conferences t :
  HeapSpec.rep (HeapSpec.full (Heap.heap s)) conferences t ->
  Heap.ticks (snd (Heap.enrich_conference_data clock conferences s))
  = snd (enrich_conference_data clock t (Heap.ticks s))
  /\ HeapSpec.sim_res
       (fun v tv =>
          HeapSpec.rep
            (HeapSpec.full
               (Heap.heap (snd (Heap.enrich_conference_data clock conferences s))))
            v tv)
       (fst (Heap.enrich_conference_data clock conferences s))
       (fst (enrich_conference_data clock t (Heap.ticks s))).
Proof.
  intros Hr.
  destruct (HeapWhole.sim_enrich clock (Heap.heap s) conferences t Hr s eq_refl)
    as [H1 H2].
  split; [exact H1|].
  destruct (fst (Heap.enrich_conference_data clock conferences s)),
           (fst (enrich_conference_data clock t (Heap.ticks s)));
    simpl in *; tauto.
Qed.

(** ** C8: a fixed moment *)

Lemma enrich_twice_same now s conferences t :
  HeapSpec.rep (HeapSpec.full (Heap.heap s)) conferences t ->
  HeapSpec.same_output
    (Heap.enrich_conference_data (fixed_clock now) conferences s)
    (Heap.enrich_conference_data (fixed_clock now) conferences
       (snd (Heap.enrich_conference_data (fixed_clock now) conferences s))).
Proof.
  intros Hr. unfold HeapSpec.same_output.
  destruct (enrich_frame (fixed_clock now) conferences s) as [[Hp _] _].
  destruct (heap_enrich_refines (fixed_clock now) s conferences t Hr) as [_ R1].
  set (r1 := Heap.enrich_conference_data (fixed_clock now) conferences s) in *.
  assert (Hr1 : HeapSpec.rep (HeapSpec.full (Heap.heap (snd r1))) conferences t).
  { eapply HeapRep.rep_sub_view; [|exact Hr].
    intros a o E. unfold HeapSpec.full in *. eapply prefix_lookup_Some; eassumption. }
  destruct (enrich_frame (fixed_clock now) conferences (snd r1)) as [[Hp2 _] _].
  destruct (heap_enrich_refines (fixed_clock now) (snd r1) conferences t Hr1)
    as [_ R2].
  set (r2 := Heap.enrich_conference_data (fixed_clock now) conferences (snd r1)) in *.
  rewrite (steady_enrich now t (Heap.ticks (snd r1)) (Heap.ticks s)) in R2.
  destruct (fst r1) as [v1|e1], (fst r2) as [v2|e2],
           (fst (enrich_conference_data (fixed_clock now) t (Heap.ticks s))) as [tv|e];
    simpl in *; try contradiction; try congruence.
  exists tv. split; [|exact R2].
  eapply HeapRep.rep_sub_view; [|exact R1].
  intros a o E. unfold HeapSpec.full in *. eapply prefix_lookup_Some; eassumption.
Qed.

(** C8: with the current moment fixed, the enrichment of a list returns the
    same value (or raises the same exception) however often the clock was
    read before, and so does the handler that loads the file and enriches
    what it holds: a second run gives what the first gave.  On the heap, the
    same list object enriched a second time, after the first enrichment has
    allocated its copies, gives a list that stands for the same value. *)
Theorem enrich_deterministic now :
  (forall conferences n1 n2,
      fst (enrich_conference_data (fixed_clock now) conferences n1)
      = fst (enrich_conference_data (fixed_clock now) conferences n2))
  /\ (forall app_dir fs safe_load n1 n2,
      fst (get_conferences app_dir fs safe_load (fixed_clock now) n1)
      = fst (get_conferences app_dir fs safe_load (fixed_clock now) n2))
  /\ (forall s conferences t,
      HeapSpec.rep (HeapSpec.full (Heap.heap s)) conferences t ->
      HeapSpec.same_output
        (Heap.enrich_conference_data (fixed_clock now) conferences s)
        (Heap.enrich_conference_data (fixed_clock now) conferences
           (snd (Heap.enrich_conference_data (fixed_clock now) conferences s)))).
Proof.
  split; [|split].
  - intros conferences. apply steady_enrich.
  - intros app_dir fs safe_load. unfold get_conferences.
    apply steady_bind; [apply steady_lift|]. intros c. apply steady_enrich.
  - intros s conferences t. apply enrich_twice_same.
Qed.

Lemma enrich_deterministic_witness :
  HeapSpec.same_output
    (Heap.enrich_conference_data (fixed_clock now_2026) (Heap.HRef 0%nat)
       (Heap.mkstate HeapSpec.scenario_heap 0%nat))
    (Heap.enrich_conference_data (fixed_clock now_2026) (Heap.HRef 0%nat)
       (snd (Heap.enrich_conference_data (fixed_clock now_2026) (Heap.HRef 0%nat)
               (Heap.mkstate HeapSpec.scenario_heap 0%nat)))).
Proof.
  apply (proj2 (proj2 (enrich_deterministic now_2026))
           (Heap.mkstate HeapSpec.scenario_heap 0%nat) (Heap.HRef 0%nat)
           (VList [conf_A; conf_B; conf_C])).
  exists 4%nat. vm_compute. reflexivity.
Defined.

(** * Further properties of [main.py] *)

(** ** [parse_date] and [days_until] *)

Lemma strptime_ymd_midnight s d :
  strptime_ymd s = Ok d ->
  check_date_fields (year d) (month d) (day d) = true
  /\ hour d = 0 /\ minute d = 0 /\ second d = 0 /\ microsecond d = 0.
Proof.
  unfold strptime_ymd. destruct (format_regex s) as [|[[[y m] dd] rest] ?]; [discriminate|].
  destruct (negb _); [discriminate|].
  destruct (check_date_fields y m dd) eqn:E; [|discriminate].
  intros [= <-]. simpl. auto.
Qed.

Lemma total_us_midnight d :
  hour d = 0 -> minute d = 0 -> second d = 0 -> microsecond d = 0 ->
  total_us d = toordinal d * us_per_day.
Proof.
  intros H1 H2 H3 H4. unfold total_us, seconds_of_day, us_per_day.
  rewrite H1, H2, H3, H4. lia.
Qed.

Lemma total_us_split t : total_us t = toordinal t * us_per_day + time_of_day_us t.
Proof. unfold total_us, time_of_day_us, us_per_day. lia. Qed.

Lemma time_of_day_range t :
  valid t = true -> 0 <= time_of_day_us t < us_per_day.
Proof.
  unfold valid, check_time_fields, time_of_day_us, seconds_of_day, us_per_day.
  intros H. repeat (apply andb_prop in H as [H ?]).
  repeat match goal with H : (_ <=? _) = true |- _ => apply Z.leb_le in H end.
  lia.
Qed.

(** X1: the days-remaining of a date that parses is the floor of the time
    from the current moment to the date's midnight, in days; it is negative
    exactly when that midnight lies before the current moment, by however
    little. *)
Theorem days_until_passed clock s d n :
  strptime_ymd s = Ok d ->
  let floor_days := (total_us d - total_us (clock n)) / us_per_day in
  fst (days_until clock (VStr s) n) = Ok (Some floor_days)
  /\ (floor_days < 0 <-> total_us d < total_us (clock n)).
Proof.
  intros E fd. split.
  - rewrite days_until_spec. rewrite (strptime_ymd_nonempty s d E). simpl.
    rewrite E. simpl. rewrite days_sub_floor. reflexivity.
  - unfold fd, us_per_day. split; intros H.
    + destruct (Z_lt_le_dec (total_us d) (total_us (clock n))) as [L|L]; [exact L|].
      pose proof (Z.div_pos (total_us d - total_us (clock n)) (86400 * 1000000)).
      lia.
    + apply Z.div_lt_upper_bound; lia.
Qed.

Lemma days_until_passed_witness :
  fst (days_until (fixed_clock now_2026) (VStr "2000-01-01") 0%nat)
  = Ok (Some (-9805))
  /\ (-9805 < 0
      <-> total_us (mkdatetime 2000 1 1 0 0 0 0) < total_us now_2026).
Proof.
  apply (days_until_passed (fixed_clock now_2026) "2000-01-01"
           (mkdatetime 2000 1 1 0 0 0 0) 0%nat).
  reflexivity.
Defined.

(** X2: at a current moment the [datetime] type can hold, the
    days-remaining of a date is the number of calendar days from the current
    day to the date, less one unless the current moment is midnight sharp:
    a deadline of the current day counts [-1] from the first microsecond of
    the day on, a deadline of the next day counts [0]. *)
Theorem days_until_calendar clock s d n :
  strptime_ymd s = Ok d ->
  valid (clock n) = true ->
  fst (days_until clock (VStr s) n)
  = Ok (Some (toordinal d - toordinal (clock n)
              - (if time_of_day_us (clock n) =? 0 then 0 else 1))).
Proof.
  intros E V.
  rewrite days_until_spec. rewrite (strptime_ymd_nonempty s d E). simpl.
  rewrite E. simpl. rewrite days_sub_floor. do 2 f_equal.
  destruct (strptime_ymd_midnight s d E) as (_ & H1 & H2 & H3 & H4).
  rewrite (total_us_midnight d H1 H2 H3 H4), (total_us_split (clock n)).
  pose proof (time_of_day_range _ V) as R. unfold us_per_day in *.
  destruct (Z.eqb_spec (time_of_day_us (clock n)) 0) as [Z0|NZ].
  - rewrite Z0. replace (_ - _) with ((toordinal d - toordinal (clock n)) * (86400 * 1000000)) by lia.
    rewrite Z.div_mul; lia.
  - symmetry. apply Z.div_unique with (r := 86400 * 1000000 - time_of_day_us (clock n)); lia.
Qed.

Lemma days_until_calendar_witness :
  fst (days_until (fixed_clock now_2026) (VStr "2026-11-04") 0%nat)
  = Ok (Some (-1)).
Proof.
  apply (days_until_calendar (fixed_clock now_2026) "2026-11-04"
           (mkdatetime 2026 11 4 0 0 0 0) 0%nat); reflexivity.
Defined.

(** *** The dates [strptime] accepts *)

Lemma digit_char_spec k :
  0 <= k <= 9 -> is_digit (digit_char k) = true /\ digit (digit_char k) = k.
Proof.
  intros H.
  assert (k = 0 \/ k = 1 \/ k = 2 \/ k = 3 \/ k = 4 \/ k = 5 \/ k = 6 \/ k = 7
          \/ k = 8 \/ k = 9) as D by lia.
  repeat destruct D as [->|D]; try subst k; split; reflexivity.
Qed.

Lemma re_Y_pad4 y r :
  0 <= y <= 9999 -> re_Y (pad4 y ++ r) = [(y, r)].
Proof.
  intros H. unfold pad4. cbn [append re_Y].
  destruct (digit_char_spec (y / 1000)) as [-> ->];
    [Z.to_euclidean_division_equations; lia|].
  destruct (digit_char_spec (y / 100 mod 10)) as [-> ->];
    [pose proof (Z.mod_pos_bound (y / 100) 10); lia|].
  destruct (digit_char_spec (y / 10 mod 10)) as [-> ->];
    [pose proof (Z.mod_pos_bound (y / 10) 10); lia|].
  destruct (digit_char_spec (y mod 10)) as [-> ->];
    [pose proof (Z.mod_pos_bound y 10); lia|].
  cbn [andb]. do 2 f_equal.
  Z.to_euclidean_division_equations. lia.
Qed.

Lemma re_m_pad2 m r :
  1 <= m <= 12 -> exists t, re_m (pad2 m ++ r) = (m, r) :: t.
Proof.
  intros H.
  assert (m = 1 \/ m = 2 \/ m = 3 \/ m = 4 \/ m = 5 \/ m = 6 \/ m = 7 \/ m = 8
          \/ m = 9 \/ m = 10 \/ m = 11 \/ m = 12) as D by lia.
  repeat destruct D as [->|D]; try subst m; eexists; reflexivity.
Qed.

Lemma re_d_pad2 d r :
  1 <= d <= 31 -> exists t, re_d (pad2 d ++ r) = (d, r) :: t.
Proof.
  intros H.
  assert (d = 1 \/ d = 2 \/ d = 3 \/ d = 4 \/ d = 5 \/ d = 6 \/ d = 7 \/ d = 8
          \/ d = 9 \/ d = 10 \/ d = 11 \/ d = 12 \/ d = 13 \/ d = 14 \/ d = 15
          \/ d = 16 \/ d = 17 \/ d = 18 \/ d = 19 \/ d = 20 \/ d = 21 \/ d = 22
          \/ d = 23 \/ d = 24 \/ d = 25 \/ d = 26 \/ d = 27 \/ d = 28 \/ d = 29
          \/ d = 30 \/ d = 31) as D by lia.
  repeat destruct D as [->|D]; try subst d; eexists; reflexivity.
Qed.

Lemma days_in_month_le y m : days_in_month y m <= 31.
Proof.
  unfold days_in_month. destruct (_ && _); [lia|].
  unfold DAYS_IN_MONTH.
  destruct (Z.to_nat m) as [|[|[|[|[|[|[|[|[|[|[|[|[|[|k]]]]]]]]]]]]]]; simpl; try lia.
Qed.

Lemma check_date_fields_range y m d :
  check_date_fields y m d = true ->
  1 <= y <= 9999 /\ 1 <= m <= 12 /\ 1 <= d <= days_in_month y m.
Proof.
  unfold check_date_fields. intros H.
  repeat (apply andb_prop in H as [H ?]).
  repeat match goal with H : (_ <=? _) = true |- _ => apply Z.leb_le in H end.
  lia.
Qed.

Lemma format_regex_isoformat y m d :
  check_date_fields y m d = true ->
  exists t, format_regex (isoformat y m d) = ((y, m, d), "") :: t.
Proof.
  intros H. apply check_date_fields_range in H as (Hy & Hm & Hd).
  pose proof (days_in_month_le y m).
  unfold isoformat, format_regex, seq.
  rewrite re_Y_pad4 by lia. cbn [flat_map fst snd append dash Ascii.eqb Bool.eqb].
  match goal with |- context [re_m (pad2 m ++ ?r)] =>
    destruct (re_m_pad2 m r) as [tm ->]; [lia|] end.
  cbn [flat_map fst snd append dash Ascii.eqb Bool.eqb app].
  destruct (re_d_pad2 d "") as [td Ed]; [lia|].
  change (re_d (pad2 d)) with (re_d (pad2 d ++ "")).
  rewrite Ed. cbn [flat_map fst snd app]. eexists. reflexivity.
Qed.

(** X5: [parse_date] accepts every date of the calendar written as
    [YYYY-MM-DD] with leading zeros, and returns that date at midnight. *)
Theorem parse_date_isoformat y m d :
  check_date_fields y m d = true ->
  parse_date (VStr (isoformat y m d)) = Ok (Some (mkdatetime y m d 0 0 0 0)).
Proof.
  intros H. unfold parse_date, strptime, strptime_ymd.
  destruct (format_regex_isoformat y m d H) as [t ->].
  rewrite H. reflexivity.
Qed.

Lemma parse_date_isoformat_witness :
  parse_date (VStr "2024-02-29") = Ok (Some (mkdatetime 2024 2 29 0 0 0 0)).
Proof. apply (parse_date_isoformat 2024 2 29). reflexivity. Defined.

Lemma consumes_weaken {A} lo hi lo' hi' (p : parser A) :
  (lo' <= lo)%nat -> (hi <= hi')%nat -> consumes lo hi p -> consumes lo' hi' p.
Proof. intros H1 H2 C s a r I. specialize (C s a r I). lia. Qed.

Lemma consumes_re_Y : consumes 4 4 re_Y.
Proof.
  intros s a r. unfold re_Y.
  destruct s as [|c1 [|c2 [|c3 [|c4 s]]]]; try (intros []).
  destruct (_ && _); [|intros []].
  intros [[= _ <-]|[]]. simpl. lia.
Qed.

Lemma consumes_two a1 b1 a2 b2 : consumes 2 2 (two a1 b1 a2 b2).
Proof.
  intros s a r. unfold two.
  destruct s as [|c1 [|c2 s]]; try (intros []).
  destruct (_ && _); [|intros []].
  intros [[= _ <-]|[]]. simpl. lia.
Qed.

Lemma consumes_one lo hi : consumes 1 1 (one lo hi).
Proof.
  intros s a r. unfold one.
  destruct s as [|c1 s]; try (intros []).
  destruct (in_range _ _ _); [|intros []].
  intros [[= _ <-]|[]]. simpl. lia.
Qed.

Lemma consumes_space_one lo hi : consumes 2 2 (space_one lo hi).
Proof.
  intros s a r. unfold space_one.
  destruct s as [|c1 s]; try (intros []).
  destruct (Ascii.eqb _ _); [|intros []].
  intros I. apply consumes_one in I. simpl. lia.
Qed.

Lemma consumes_dash : consumes 1 1 dash.
Proof.
  intros s a r. unfold dash.
  destruct s as [|c1 s]; try (intros []).
  destruct (Ascii.eqb _ _); [|intros []].
  intros [[= _ <-]|[]]. simpl. lia.
Qed.

Lemma consumes_alt {A} lo hi (p q : parser A) :
  consumes lo hi p -> consumes lo hi q -> consumes lo hi (alt p q).
Proof.
  intros P Q s a r I. unfold alt in I. apply in_app_or in I as [I|I]; eauto.
Qed.

Lemma consumes_seq {A B} l1 h1 l2 h2 (p : parser A) (k : A -> parser B) :
  consumes l1 h1 p -> (forall a, consumes l2 h2 (k a)) ->
  consumes (l1 + l2) (h1 + h2) (seq p k).
Proof.
  intros P K s b r I. unfold seq in I.
  apply in_flat_map in I as ([a r1] & I1 & I2). simpl in I2.
  specialize (P s a r1 I1). specialize (K a r1 b r I2). lia.
Qed.

Lemma consumes_re_m : consumes 1 2 re_m.
Proof.
  unfold re_m. repeat apply consumes_alt;
    (eapply consumes_weaken; [| |apply consumes_two || apply consumes_one]; lia).
Qed.

Lemma consumes_re_d : consumes 1 2 re_d.
Proof.
  unfold re_d. repeat apply consumes_alt;
    (eapply consumes_weaken;
     [| |apply consumes_two || apply consumes_one || apply consumes_space_one]; lia).
Qed.

Lemma consumes_format_regex : consumes 8 10 format_regex.
Proof.
  unfold format_regex.
  apply (consumes_seq 4 4 4 6); [apply consumes_re_Y|]. intros y.
  apply (consumes_seq 1 1 3 5); [apply consumes_dash|]. intros _.
  apply (consumes_seq 1 2 2 3); [apply consumes_re_m|]. intros m.
  apply (consumes_seq 1 1 1 2); [apply consumes_dash|]. intros _.
  apply (consumes_seq 1 2 0 0); [apply consumes_re_d|]. intros d.
  intros s a r [[= _ <-]|[]]. lia.
Qed.

Lemma strptime_ymd_length s d :
  strptime_ymd s = Ok d -> (8 <= String.length s <= 10)%nat.
Proof.
  unfold strptime_ymd.
  destruct (format_regex s) as [|[[[y m] dd] rest] t] eqn:E; [discriminate|].
  destruct (String.eqb_spec rest ""); [|discriminate]. intros _. subst rest.
  pose proof (consumes_format_regex s (y, m, dd) "") as C.
  rewrite E in C. specialize (C (or_introl eq_refl)). simpl in C. lia.
Qed.

(** X4: [parse_date] returns [None] exactly on a value that is false
    ([None], the empty string); what it returns otherwise comes from a
    string of 8 to 10 characters, is a date of the calendar (year 1 to 9999,
    a month, a day the month has) and has the time 00:00:00. *)
Theorem parse_date_accepts_only_dates v :
  (parse_date v = Ok None <-> truthy v = false)
  /\ (forall d, parse_date v = Ok (Some d) ->
        exists s, v = VStr s
          /\ (8 <= String.length s <= 10)%nat
          /\ valid d = true
          /\ time_of_day_us d = 0).
Proof.
  unfold parse_date. split.
  - destruct (truthy v); simpl; [|tauto].
    split; [|discriminate]. destruct (strptime v); discriminate.
  - intros d. destruct (truthy v); simpl; [|discriminate].
    destruct v; simpl; try discriminate.
    destruct (strptime_ymd s) as [d'|] eqn:E; [|discriminate].
    intros [= <-]. exists s. split; [reflexivity|].
    split; [eapply strptime_ymd_length; eauto|].
    destruct (strptime_ymd_midnight s d' E) as (C & H1 & H2 & H3 & H4).
    unfold valid, time_of_day_us, seconds_of_day.
    rewrite C, H1, H2, H3, H4. split; reflexivity.
Qed.

Lemma parse_date_accepts_only_dates_witness :
  exists s, VStr "2099-01-01" = VStr s
    /\ (8 <= String.length s <= 10)%nat
    /\ valid (mkdatetime 2099 1 1 0 0 0 0) = true
    /\ time_of_day_us (mkdatetime 2099 1 1 0 0 0 0) = 0.
Proof.
  apply (proj2 (parse_date_accepts_only_dates (VStr "2099-01-01"))
           (mkdatetime 2099 1 1 0 0 0 0)).
  reflexivity.
Defined.

(** X3: the days-remaining of a date never grows as the clock moves
    on, and a moment exactly 24 hours later gives exactly one day less. *)
Theorem days_until_over_time clock1 clock2 s d n1 n2 :
  strptime_ymd s = Ok d ->
  exists k1 k2,
    fst (days_until clock1 (VStr s) n1) = Ok (Some k1)
    /\ fst (days_until clock2 (VStr s) n2) = Ok (Some k2)
    /\ (total_us (clock1 n1) <= total_us (clock2 n2) -> k2 <= k1)
    /\ (total_us (clock2 n2) = total_us (clock1 n1) + us_per_day -> k2 = k1 - 1).
Proof.
  intros E.
  exists (days (sub d (clock1 n1))), (days (sub d (clock2 n2))).
  rewrite !days_until_spec. rewrite (strptime_ymd_nonempty s d E). simpl.
  rewrite E. simpl. split; [reflexivity|]. split; [reflexivity|].
  rewrite !days_sub_floor. unfold us_per_day. split; intros H.
  - apply Z.div_le_mono; lia.
  - rewrite H.
    replace (total_us d - (total_us (clock1 n1) + 86400 * 1000000))
      with (total_us d - total_us (clock1 n1) + (-1) * (86400 * 1000000)) by lia.
    rewrite Z.div_add by lia. lia.
Qed.

Lemma days_until_over_time_witness :
  exists k1 k2,
    fst (days_until (fixed_clock now_2026) (VStr "2099-01-01") 0%nat)
    = Ok (Some k1)
    /\ fst (days_until (fixed_clock (mkdatetime 2026 11 5 9 30 0 0))
              (VStr "2099-01-01") 0%nat) = Ok (Some k2)
    /\ (total_us now_2026 <= total_us (mkdatetime 2026 11 5 9 30 0 0) -> k2 <= k1)
    /\ (total_us (mkdatetime 2026 11 5 9 30 0 0) = total_us now_2026 + us_per_day
        -> k2 = k1 - 1).
Proof.
  apply (days_until_over_time (fixed_clock now_2026)
           (fixed_clock (mkdatetime 2026 11 5 9 30 0 0))
           "2099-01-01" (mkdatetime 2099 1 1 0 0 0 0) 0%nat 0%nat).
  reflexivity.
Defined.

(** ** The order of the calendar *)














(** ** The sorts are stable *)

Section Stable.
Context {A K : Type}.
Variable lt : K -> K -> bool.
Variable eqb : K -> K -> bool.
Hypothesis eqb_eq : forall a b, eqb a b = true -> a = b.
Hypothesis lt_irrefl : forall a, lt a a = false.

Lemma insert_keyed_filter (x : K * A) l k :
  List.filter (fun y => eqb (fst y) k) (insert_keyed lt x l)
  = List.filter (fun y => eqb (fst y) k) (x :: l).
Proof using eqb_eq lt_irrefl.
  induction l as [|y l IH]; [reflexivity|].
  cbn [insert_keyed]. destruct (lt (fst y) (fst x)) eqn:L; [|reflexivity].
  cbn [List.filter] in *. rewrite IH.
  destruct (eqb (fst y) k) eqn:Ey, (eqb (fst x) k) eqn:Ex; try reflexivity.
  apply eqb_eq in Ey, Ex. rewrite Ey, Ex, lt_irrefl in L. discriminate.
Qed.

Lemma sort_keyed_filter (l : list (K * A)) k :
  List.filter (fun y => eqb (fst y) k) (sort_keyed lt l)
  = List.filter (fun y => eqb (fst y) k) l.
Proof using eqb_eq lt_irrefl.
  induction l as [|x l IH]; [reflexivity|].
  cbn [sort_keyed fold_right]. fold (sort_keyed lt l).
  rewrite insert_keyed_filter. cbn [List.filter]. now rewrite IH.
Qed.

Definition has_key (key : A -> result K) (k : K) (x : A) : bool :=
  match key x with Ok k' => eqb k' k | Raise _ => false end.

Lemma filter_decorated (key : A -> result K) (kl : list (K * A)) k :
  Forall (fun kx => key (snd kx) = Ok (fst kx)) kl ->
  List.filter (has_key key k) (map snd kl)
  = map snd (List.filter (fun y => eqb (fst y) k) kl).
Proof.
  induction 1 as [|[k' x] kl H _ IH]; [reflexivity|].
  cbn [map List.filter snd fst] in *. unfold has_key at 1. rewrite H.
  destruct (eqb k' k); cbn [map snd]; now rewrite IH.
Qed.

Lemma list_sort_stable (key : A -> result K) (l l' : list A) k :
  list_sort lt key l = Ok l' ->
  List.filter (has_key key k) l' = List.filter (has_key key k) l.
Proof using eqb_eq lt_irrefl.
  unfold list_sort. destruct (decorate key l) as [kl|] eqn:D; [|discriminate].
  intros [= <-]. apply decorate_inv in D as [<- F].
  rewrite !filter_decorated; [now rewrite sort_keyed_filter|exact F|].
  rewrite (sort_keyed_perm lt kl). exact F.
Qed.
End Stable.

Lemma skey_eqb_eq a b : skey_eqb a b = true -> a = b.
Proof.
  destruct a, b; simpl; try discriminate; [|reflexivity].
  intros H. apply Z.eqb_eq in H. now subst.
Qed.

Lemma skey_lt_irrefl a : skey_lt a a = false.
Proof. destruct a; simpl; [apply Z.ltb_irrefl|reflexivity]. Qed.

Lemma with_key_enriched k l :
  Forall is_enriched l ->
  with_key k l = List.filter (has_key skey_eqb sort_key k) l.
Proof.
  intros F. unfold with_key. apply filter_ext_in. intros r I.
  rewrite List.Forall_forall in F. unfold has_key.
  destruct (sort_key_enriched r (F r I)) as [-> _]. reflexivity.
Qed.

Lemma enriched_rs clock confs rs :
  Forall2 (fun conf r => exists m m', enrich_one clock conf m = (Ok r, m')) confs rs ->
  Forall is_enriched rs.
Proof.
  induction 1 as [|conf r confs rs (m & m' & E) _ IH]; constructor; auto.
  eapply enrich_one_enriched, E.
Qed.

(** X8: the sort of the records is stable: the enriched records with
    the same key of [sort_key], among them all the records without a dated
    deadline, stand in the order of the input list. *)
Theorem equal_keys_keep_input_order clock conferences n out n' :
  enrich_conference_data clock conferences n = (Ok (VList out), n') ->
  exists confs rs,
    iterate conferences = Ok confs
    /\ Forall2 (fun conf r => exists m m', enrich_one clock conf m = (Ok r, m'))
         confs rs
    /\ forall k, with_key k out = with_key k rs.
Proof.
  intros E. pose proof (enrich_records _ _ _ _ _ E) as [_ Fo].
  apply enrich_ok in E as (confs & rs & out' & Ei & F2 & Es & [= <-]).
  exists confs, rs. split; [exact Ei|]. split; [exact F2|].
  intros k. rewrite !with_key_enriched.
  - eapply list_sort_stable; eauto using skey_eqb_eq, skey_lt_irrefl.
  - eapply enriched_rs, F2.
  - eapply Forall_impl; [exact Fo|]. now intros r [H _].
Qed.

Lemma equal_keys_keep_input_order_witness :
  exists out confs rs,
    enrich_conference_data (fixed_clock now_2026)
      (VList [conf_C; conf_A; conf_E]) 0%nat = (Ok (VList out), 2%nat)
    /\ iterate (VList [conf_C; conf_A; conf_E]) = Ok confs
    /\ Forall2 (fun conf r => exists m m',
                  enrich_one (fixed_clock now_2026) conf m = (Ok r, m')) confs rs
    /\ forall k, with_key k out = with_key k rs.
Proof.
  eexists.
  destruct (equal_keys_keep_input_order (fixed_clock now_2026)
              (VList [conf_C; conf_A; conf_E]) 0%nat _ 2%nat
              ltac:(vm_compute; reflexivity)) as (confs & rs & H).
  exists confs, rs. split; [vm_compute; reflexivity|exact H].
Defined.

Lemma Zeqb_eq' a b : (a =? b) = true -> a = b.
Proof. apply Z.eqb_eq. Qed.

Lemma with_days_entries k l :
  Forall is_entry l ->
  with_days k l = List.filter (has_key Z.eqb days_key k) l.
Proof.
  intros F. unfold with_days. apply filter_ext_in. intros e I.
  rewrite List.Forall_forall in F. unfold has_key.
  destruct (days_key_entry e (F e I)) as (x & -> & ->). reflexivity.
Qed.

(** X7: the sort of [all_deadlines] is stable: with the current moment
    fixed, the entries with the same days-remaining stand in the order of the
    [deadlines] mapping. *)
Theorem equal_days_keep_mapping_order now conferences n out n' :
  enrich_conference_data (fixed_clock now) conferences n = (Ok (VList out), n') ->
  Forall (fun r => exists entries,
            subscript r "all_deadlines" = Ok (VList entries)
            /\ forall k, with_days k entries
                         = with_days k (dated_entries now (deadlines_of r))) out.
Proof.
  intros E. apply enrich_records in E as [_ E].
  eapply Forall_impl; [exact E|]. clear E.
  intros r (_ & conf & m & m' & Hr).
  apply enrich_one_ok in Hr as (d & entries & c & -> & Es & -> & Hok).
  rewrite entries_from_fixed in Es.
  exists entries. split; [apply enriched_all_deadlines|].
  intros k. rewrite enriched_deadlines.
  assert (He0 : Forall is_entry (dated_entries now (deadlines_of (VDict d)))).
  { rewrite <- (entries_from_fixed now 0). apply entries_from_shape. }
  rewrite !with_days_entries; [|exact He0|].
  - eapply list_sort_stable; eauto using Zeqb_eq', Z.ltb_irrefl.
  - rewrite (list_sort_perm _ _ _ _ Es). exact He0.
Qed.

Lemma equal_days_keep_mapping_order_witness :
  exists out,
    enrich_conference_data (fixed_clock now_2026) (VList [conf_same_day]) 0%nat
    = (Ok (VList out), 4%nat)
    /\ Forall (fun r => exists entries,
                 subscript r "all_deadlines" = Ok (VList entries)
                 /\ forall k, with_days k entries
                              = with_days k (dated_entries now_2026 (deadlines_of r)))
         out.
Proof.
  eexists. split; [vm_compute; reflexivity|].
  apply (equal_days_keep_mapping_order now_2026 (VList [conf_same_day])
           0%nat _ 4%nat).
  vm_compute. reflexivity.
Defined.

(** ** The fields of an enriched record *)

Lemma enriched_record_keeps d entries c k :
  derived_key k = false ->
  match enriched_record d entries c with
  | VDict d' => dict_get k d' = dict_get k d
  | _ => False
  end.
Proof.
  unfold derived_key, enriched_record. intros H.
  apply orb_false_elim in H as [H H3]. apply orb_false_elim in H as [H1 H2].
  apply String.eqb_neq in H1, H2, H3.
  rewrite !dict_get_set_ne by assumption. reflexivity.
Qed.

(** X9: the output holds one record for each record of the input, in some
    order, and each is a mapping that has, under every key but
    [all_deadlines], [next_deadline] and [conference_days], what the input
    record has under it. *)
Theorem enrich_keeps_fields clock conferences n out n' :
  enrich_conference_data clock conferences n = (Ok (VList out), n') ->
  exists confs rs,
    iterate conferences = Ok confs
    /\ Permutation out rs
    /\ Forall2 keeps_fields confs rs.
Proof.
  intros E.
  apply enrich_ok in E as (confs & rs & out' & Ei & F2 & Es & [= <-]).
  exists confs, rs. split; [exact Ei|].
  split; [eapply list_sort_perm, Es|].
  eapply Forall2_impl; [exact F2|].
  intros conf r (m & m' & H).
  apply enrich_one_ok in H as (d & entries & c & -> & _ & -> & _).
  exists d, (dict_set "conference_days" c
               (dict_set "next_deadline" (hd VNone entries)
                  (dict_set "all_deadlines" (VList entries) d))).
  split; [reflexivity|]. split; [reflexivity|].
  intros k Hk. apply (enriched_record_keeps d entries c k Hk).
Qed.

Lemma enrich_keeps_fields_witness :
  exists out confs rs,
    enrich_conference_data (fixed_clock now_2026)
      (VList [conf_C; conf_near; conf_B]) 0%nat = (Ok (VList out), 4%nat)
    /\ iterate (VList [conf_C; conf_near; conf_B]) = Ok confs
    /\ Permutation out rs
    /\ Forall2 keeps_fields confs rs.
Proof.
  eexists.
  destruct (enrich_keeps_fields (fixed_clock now_2026)
              (VList [conf_C; conf_near; conf_B]) 0%nat _ 4%nat
              ltac:(vm_compute; reflexivity)) as (confs & rs & H).
  exists confs, rs. split; [vm_compute; reflexivity|exact H].
Defined.

Lemma enrich_one_conference_days now conf n r n' :
  enrich_one (fixed_clock now) conf n = (Ok r, n') ->
  subscript r "conference_days" = Ok (conference_days_at now conf).
Proof.
  unfold enrich_one. intros E.
  step_lift E conf_copy Ecopy.
  step_lift E dl Eget.
  step_lift E its Eits.
  step_ok E l Ecoll.
  step_lift E entries Esort.
  step_lift E copy1 Eset1.
  step_lift E copy2 Eset2.
  step_lift E cd Ecd.
  step_ok E cdays Edays.
  step_lift E copy3 Eset3.
  apply ret_ok_inv in E as [-> ->].
  destruct conf as [| | | | |d]; try discriminate.
  simpl in Ecopy, Ecd. inversion Ecopy; subst conf_copy. inversion Ecd; subst cd.
  simpl in Eset1. inversion Eset1; subst copy1.
  simpl in Eset2. inversion Eset2; subst copy2.
  simpl in Eset3. inversion Eset3; subst copy3.
  cbn [subscript]. rewrite dict_get_set_eq. f_equal.
  rewrite days_until_spec in Edays. cbn [conference_days_at].
  destruct (dict_get "conference_date" d) as [c|].
  - destruct (truthy c); cbn [negb] in Edays.
    + destruct (strptime c); [|discriminate]. now inversion Edays.
    + now inversion Edays.
  - cbn in Edays. now inversion Edays.
Qed.

Lemma conference_days_enriched now d entries c :
  conference_days_at now (enriched_record d entries c)
  = conference_days_at now (VDict d).
Proof.
  unfold conference_days_at, enriched_record.
  rewrite !dict_get_set_ne by discriminate. reflexivity.
Qed.

(** X10: with the current moment fixed, [conference_days] of an enriched
    record is [None] when the record has no [conference_date] or a false one
    ([None], the empty string), and else the days-remaining of that date. *)
Theorem conference_days_value now conferences n out n' :
  enrich_conference_data (fixed_clock now) conferences n = (Ok (VList out), n') ->
  Forall (fun r => subscript r "conference_days" = Ok (conference_days_at now r)) out.
Proof.
  intros E. apply enrich_records in E as [_ E].
  eapply Forall_impl; [exact E|]. clear E.
  intros r (_ & conf & m & m' & Hr).
  pose proof (enrich_one_conference_days _ _ _ _ _ Hr) as H.
  apply enrich_one_ok in Hr as (d & entries & c & -> & _ & -> & _).
  now rewrite conference_days_enriched.
Qed.

Lemma conference_days_value_witness :
  exists out,
    enrich_conference_data (fixed_clock now_2026) (VList [conf_near; conf_C]) 0%nat
    = (Ok (VList out), 3%nat)
    /\ Forall (fun r => subscript r "conference_days"
                        = Ok (conference_days_at now_2026 r)) out.
Proof.
  eexists. split; [vm_compute; reflexivity|].
  apply (conference_days_value now_2026 (VList [conf_near; conf_C]) 0%nat _ 3%nat).
  vm_compute. reflexivity.
Defined.

(** ** The tiers, and what is not a list of records *)

Lemma undated_tier_last_witness :
  names_of (fst (enrich_conference_data (fixed_clock now_2026)
                   (VList [conf_C; conf_A]) 0%nat))
  = Ok [VStr "A"; VStr "C"]
  /\ (0 < 1)%nat.
Proof.
  split; [vm_compute; reflexivity|].
  eapply (undated_tier_last (fixed_clock now_2026) (VList [conf_C; conf_A])
            0%nat _ _ 0%nat 1%nat _ _ 26355).
  - vm_compute. reflexivity.
  - reflexivity.
  - reflexivity.
  - vm_compute. reflexivity.
  - vm_compute. reflexivity.
Defined.

Lemma upcoming_tier_ascending_witness :
  names_of (fst (enrich_conference_data (fixed_clock now_2026)
                   (VList [conf_A; conf_near]) 0%nat))
  = Ok [VStr "N"; VStr "A"]
  /\ (0 < 1)%nat.
Proof.
  split; [vm_compute; reflexivity|].
  eapply (upcoming_tier_ascending (fixed_clock now_2026) (VList [conf_A; conf_near])
            0%nat _ _ 0%nat 1%nat _ _ 71 26355).
  - vm_compute. reflexivity.
  - reflexivity.
  - reflexivity.
  - vm_compute. reflexivity.
  - vm_compute. reflexivity.
  - lia.
  - lia.
Defined.

(** X13: of a record whose nearest deadline is upcoming, [d1] days away,
    and a record whose nearest deadline has passed, [d2] days away, the
    upcoming one stands first when [d1] is below [10000 + abs d2], and the
    passed one stands first when [d1] is above it. *)
Theorem upcoming_and_passed_by_offset
    clock conferences n out n' i j r1 r2 d1 d2 :
  enrich_conference_data clock conferences n = (Ok (VList out), n') ->
  out !! i = Some r1 -> out !! j = Some r2 ->
  next_days r1 = Some d1 -> next_days r2 = Some d2 ->
  0 <= d1 -> d2 < 0 ->
  (d1 < 10000 + Z.abs d2 -> (i < j)%nat)
  /\ (10000 + Z.abs d2 < d1 -> (j < i)%nat).
Proof.
  intros E Hi Hj H1 H2 Hd1 Hd2.
  assert (E1 : (d1 <? 0) = false) by (apply Z.ltb_ge; lia).
  assert (E2 : (d2 <? 0) = true) by (apply Z.ltb_lt; lia).
  split; intros Hoff; eapply enrich_key_order; eauto;
    rewrite H1, H2; simpl; rewrite E1, E2; simpl; apply Z.ltb_lt; lia.
Qed.

Lemma upcoming_and_passed_by_offset_witness :
  names_of (fst (enrich_conference_data (fixed_clock now_2026)
                   (VList [conf_A; conf_B; conf_near]) 0%nat))
  = Ok [VStr "N"; VStr "B"; VStr "A"]
  /\ (0 < 1)%nat /\ (1 < 2)%nat.
Proof.
  split; [vm_compute; reflexivity|]. split.
  - eapply (proj1 (upcoming_and_passed_by_offset (fixed_clock now_2026)
                     (VList [conf_A; conf_B; conf_near]) 0%nat _ _
                     0%nat 1%nat _ _ 71 (-9805)
                     ltac:(vm_compute; reflexivity) eq_refl eq_refl
                     ltac:(vm_compute; reflexivity) ltac:(vm_compute; reflexivity)
                     ltac:(lia) ltac:(lia))).
    simpl. lia.
  - eapply (proj2 (upcoming_and_passed_by_offset (fixed_clock now_2026)
                     (VList [conf_A; conf_B; conf_near]) 0%nat _ _
                     2%nat 1%nat _ _ 26355 (-9805)
                     ltac:(vm_compute; reflexivity) eq_refl eq_refl
                     ltac:(vm_compute; reflexivity) ltac:(vm_compute; reflexivity)
                     ltac:(lia) ltac:(lia))).
    simpl. lia.
Defined.





(** X15: the handler of [/api/conferences] returns the empty list on a
    document without the key [conferences], raises [TypeError] on a document
    whose [conferences] is [null], and raises what the loader raises, without
    reading the clock. *)
Theorem get_conferences_edge_documents app_dir fs safe_load clock n :
  let config_path := (app_dir ++ ["data"; "conferences.yaml"])%list in
  (forall text d,
      fs config_path = Some text -> safe_load text = Ok (VDict d) ->
      dict_get "conferences" d = None ->
      get_conferences app_dir fs safe_load clock n = (Ok (VList []), S n))
  /\ (forall text d,
      fs config_path = Some text -> safe_load text = Ok (VDict d) ->
      dict_get "conferences" d = Some VNone ->
      get_conferences app_dir fs safe_load clock n = (Raise TypeError, S n))
  /\ (forall e,
      load_conferences app_dir fs safe_load = Raise e ->
      get_conferences app_dir fs safe_load clock n = (Raise e, n)).
Proof.
  intros config_path. unfold get_conferences. rewrite bind_lift.
  split; [|split].
  - intros text d Hf Hl Hk. rewrite load_conferences_unfold.
    fold config_path. rewrite Hf, Hl. simpl. rewrite Hk. reflexivity.
  - intros text d Hf Hl Hk. rewrite load_conferences_unfold.
    fold config_path. rewrite Hf, Hl. simpl. rewrite Hk. reflexivity.
  - intros e ->. reflexivity.
Qed.

Lemma get_conferences_edge_documents_witness :
  get_conferences demo_dir (demo_fs "title: none") demo_safe_load
    (fixed_clock now_2026) 0%nat = (Ok (VList []), 1%nat)
  /\ get_conferences demo_dir (demo_fs "conferences:") null_safe_load
       (fixed_clock now_2026) 0%nat = (Raise TypeError, 1%nat)
  /\ get_conferences demo_dir (fun _ => None) demo_safe_load
       (fixed_clock now_2026) 0%nat = (Raise OSError, 0%nat).
Proof.
  split; [|split].
  - eapply (proj1 (get_conferences_edge_documents demo_dir (demo_fs "title: none")
                     demo_safe_load (fixed_clock now_2026) 0%nat)); reflexivity.
  - eapply (proj1 (proj2 (get_conferences_edge_documents demo_dir
                            (demo_fs "conferences:") null_safe_load
                            (fixed_clock now_2026) 0%nat))); reflexivity.
  - apply (proj2 (proj2 (get_conferences_edge_documents demo_dir (fun _ => None)
                           demo_safe_load (fixed_clock now_2026) 0%nat))).
    reflexivity.
Defined.

(** X16: the path the loader builds lies under the directory of the
    application, whatever that directory is, so the loader's own
    [ValueError] is never raised: a [ValueError] of the loader comes from
    the parser. *)
Theorem path_check_never_fires app_dir fs safe_load :
  is_relative_to (app_dir ++ ["data"; "conferences.yaml"])%list app_dir = true
  /\ (load_conferences app_dir fs safe_load = Raise ValueError ->
      exists text,
        fs (app_dir ++ ["data"; "conferences.yaml"])%list = Some text
        /\ safe_load text = Raise ValueError).
Proof.
  split; [apply is_relative_to_app|].
  rewrite load_conferences_unfold.
  destruct (fs _) as [text|]; [|discriminate].
  destruct (safe_load text) as [data|e] eqn:E.
  - destruct data; simpl; discriminate.
  - intros [= ->]. eauto.
Qed.

Lemma path_check_never_fires_witness :
  exists text,
    demo_fs "conferences: 1 2" (demo_dir ++ ["data"; "conferences.yaml"])%list
    = Some text
    /\ null_safe_load text = Raise ValueError.
Proof.
  apply (proj2 (path_check_never_fires demo_dir (demo_fs "conferences: 1 2")
                  null_safe_load)).
  reflexivity.
Defined.

(** ** The middleware *)

Module StarletteFacts.
Import Str Starlette.

Lemma filter_remove_name_eq k l :
  List.filter (fun kv => (fst kv =? k)%string) (remove_name k l) = [].
Proof.
  induction l as [|[k' v'] l IH]; [reflexivity|]. cbn [remove_name].
  destruct (String.eqb_spec k' k) as [->|N]; [exact IH|].
  cbn [List.filter fst]. apply String.eqb_neq in N. now rewrite N.
Qed.

Lemma filter_remove_name_ne (p : string -> bool) k l :
  p k = false ->
  List.filter (fun kv => p (fst kv)) (remove_name k l)
  = List.filter (fun kv => p (fst kv)) l.
Proof.
  intros Hp. induction l as [|[k' v'] l IH]; [reflexivity|]. cbn [remove_name].
  destruct (String.eqb_spec k' k) as [->|N]; cbn [List.filter fst].
  - now rewrite Hp.
  - now rewrite IH.
Qed.

Lemma replace_name_none k v l :
  replace_name k v l = None ->
  List.filter (fun kv => (fst kv =? k)%string) l = [].
Proof.
  induction l as [|[k' v'] l IH]; [reflexivity|]. cbn [replace_name].
  destruct (k' =? k)%string eqn:E; [discriminate|].
  destruct (replace_name k v l); [discriminate|].
  intros _. cbn [List.filter fst]. rewrite E. now apply IH.
Qed.

Lemma replace_name_eq k v l l' :
  replace_name k v l = Some l' ->
  List.filter (fun kv => (fst kv =? k)%string) l' = [(k, v)].
Proof.
  revert l'. induction l as [|[k' v'] l IH]; intros l'; [discriminate|].
  cbn [replace_name]. destruct (k' =? k)%string eqn:E.
  - intros [= <-]. cbn [List.filter fst]. rewrite String.eqb_refl.
    now rewrite filter_remove_name_eq.
  - destruct (replace_name k v l) as [r|]; [|discriminate].
    intros [= <-]. cbn [List.filter fst]. rewrite E. now apply IH.
Qed.

Lemma replace_name_ne (p : string -> bool) k v l l' :
  p k = false ->
  replace_name k v l = Some l' ->
  List.filter (fun kv => p (fst kv)) l' = List.filter (fun kv => p (fst kv)) l.
Proof.
  intros Hp. revert l'. induction l as [|[k' v'] l IH]; intros l'; [discriminate|].
  cbn [replace_name]. destruct (String.eqb_spec k' k) as [->|N].
  - intros [= <-]. cbn [List.filter fst]. rewrite Hp.
    now apply filter_remove_name_ne.
  - destruct (replace_name k v l) as [r|]; [|discriminate].
    intros [= <-]. cbn [List.filter fst]. now rewrite (IH r).
Qed.

(** After [headers[key] = value] the name has one entry, with the value. *)
Lemma setitem_eq key value l :
  entries_of (lower key) (headers_setitem key value l) = [(lower key, value)].
Proof.
  unfold entries_of, headers_setitem.
  destruct (replace_name (lower key) value l) as [l'|] eqn:E.
  - eapply replace_name_eq, E.
  - rewrite List.filter_app, (replace_name_none _ _ _ E).
    cbn [List.filter fst app]. now rewrite String.eqb_refl.
Qed.

(** The entries of the other names stay, in their order. *)
Lemma setitem_ne (p : string -> bool) key value l :
  p (lower key) = false ->
  List.filter (fun kv => p (fst kv)) (headers_setitem key value l)
  = List.filter (fun kv => p (fst kv)) l.
Proof.
  intros Hp. unfold headers_setitem.
  destruct (replace_name (lower key) value l) as [l'|] eqn:E.
  - eapply replace_name_ne; eauto.
  - rewrite List.filter_app. cbn [List.filter fst]. rewrite Hp. apply app_nil_r.
Qed.

Lemma setitem_other k key value l :
  (lower key =? k)%string = false ->
  entries_of k (headers_setitem key value l) = entries_of k l.
Proof.
  intros H. unfold entries_of.
  apply (setitem_ne (fun k' => (k' =? k)%string)). exact H.
Qed.

Lemma remove_name_absent k l :
  List.filter (fun kv => (fst kv =? k)%string) l = [] -> remove_name k l = l.
Proof.
  induction l as [|[k' v'] l IH]; [reflexivity|].
  cbn [List.filter fst remove_name]. destruct (k' =? k)%string; [discriminate|].
  intros H. now rewrite IH.
Qed.

(** Storing the value a name already has, as its only entry, changes
    nothing. *)
Lemma setitem_same key value l :
  entries_of (lower key) l = [(lower key, value)] ->
  headers_setitem key value l = l.
Proof.
  unfold entries_of, headers_setitem. set (k := lower key). clearbody k.
  intros H.
  assert (R : replace_name k value l = Some l); [|now rewrite R].
  induction l as [|[k' v'] l IH]; [discriminate|].
  cbn [List.filter fst replace_name] in *.
  destruct (String.eqb_spec k' k) as [->|N].
  - injection H as -> H. now rewrite remove_name_absent.
  - now rewrite IH.
Qed.

Definition set_all {Body} (r : response Body) : response Body :=
  set_header "Content-Security-Policy"
    "default-src 'self'; style-src 'unsafe-inline' 'self'; script-src 'self'"
    (set_header "Referrer-Policy" "strict-origin-when-cross-origin"
       (set_header "X-XSS-Protection" "1; mode=block"
          (set_header "X-Frame-Options" "DENY"
             (set_header "X-Content-Type-Options" "nosniff" r)))).

Lemma add_security_headers_unfold {S Request Body} (request : Request)
    (call_next : Request -> ST S (response Body)) s :
  add_security_headers request call_next s
  = match call_next request s with
    | (Ok r, s') => (Ok (set_all r), s')
    | (Raise e, s') => (Raise e, s')
    end.
Proof. reflexivity. Qed.

Lemma set_all_entries {Body} (r : response Body) k v :
  In (k, v) security_headers -> entries_of k (headers (set_all r)) = [(k, v)].
Proof.
  unfold set_all, set_header. cbn [headers status_code body].
  intros I. cbn [security_headers In] in I.
  destruct I as [I|[I|[I|[I|[I|[]]]]]]; injection I as <- <-;
    repeat first
      [ apply (setitem_eq "X-Content-Type-Options")
      | apply (setitem_eq "X-Frame-Options")
      | apply (setitem_eq "X-XSS-Protection")
      | apply (setitem_eq "Referrer-Policy")
      | apply (setitem_eq "Content-Security-Policy")
      | rewrite setitem_other by reflexivity ].
Qed.

Lemma set_all_others {Body} (r : response Body) :
  other_headers (headers (set_all r)) = other_headers (headers r)
  /\ status_code (set_all r) = status_code r /\ body (set_all r) = body r.
Proof.
  split; [|split; reflexivity].
  unfold set_all, set_header, other_headers. cbn [headers status_code body].
  rewrite !(setitem_ne (fun k => negb (security_name k))) by reflexivity.
  reflexivity.
Qed.

Lemma set_all_idempotent {Body} (r : response Body) : set_all (set_all r) = set_all r.
Proof.
  set (r1 := set_all r).
  assert (H : forall k v, In (k, v) security_headers ->
                entries_of k (headers r1) = [(k, v)])
    by (intros k v; apply set_all_entries).
  clearbody r1. destruct r1 as [st h b]. cbn [headers] in H.
  unfold set_all, set_header. cbn [headers status_code body]. f_equal.
  rewrite (setitem_same "X-Content-Type-Options" _ h)
    by (apply (H "x-content-type-options"); cbn; tauto).
  rewrite (setitem_same "X-Frame-Options" _ h)
    by (apply (H "x-frame-options"); cbn; tauto).
  rewrite (setitem_same "X-XSS-Protection" _ h)
    by (apply (H "x-xss-protection"); cbn; tauto).
  rewrite (setitem_same "Referrer-Policy" _ h)
    by (apply (H "referrer-policy"); cbn; tauto).
  apply setitem_same. apply (H "content-security-policy"). cbn. tauto.
Qed.

End StarletteFacts.

(** X17: a response that passes the middleware carries each of the
    five security headers exactly once, with the value of [main.py], also
    when the handler had set the header itself, once or more; the headers of
    other names, the status and the body are those of the handler's response,
    and an exception of the handler passes. *)
Theorem security_headers_on_every_response {S Request Body} (request : Request)
    (call_next : Request -> ST S (Starlette.response Body)) s :
  match call_next request s with
  | (Ok r0, s') =>
      exists r,
        Starlette.add_security_headers request call_next s = (Ok r, s')
        /\ (forall k v, In (k, v) security_headers ->
              entries_of k (Starlette.headers r) = [(k, v)])
        /\ other_headers (Starlette.headers r) = other_headers (Starlette.headers r0)
        /\ Starlette.status_code r = Starlette.status_code r0
        /\ Starlette.body r = Starlette.body r0
  | (Raise e, s') =>
      Starlette.add_security_headers request call_next s = (Raise e, s')
  end.
Proof.
  rewrite StarletteFacts.add_security_headers_unfold.
  destruct (call_next request s) as [[r0|e] s']; [|reflexivity].
  exists (StarletteFacts.set_all r0). split; [reflexivity|].
  split; [intros k v; apply StarletteFacts.set_all_entries|].
  apply StarletteFacts.set_all_others.
Qed.

Lemma security_headers_on_every_response_witness :
  exists r,
    Starlette.add_security_headers tt demo_call_next 0%nat = (Ok r, 0%nat)
    /\ entries_of "x-frame-options" (Starlette.headers r)
       = [("x-frame-options", "DENY")]
    /\ other_headers (Starlette.headers r)
       = [("content-type", "application/json");
          ("set-cookie", "a=1"); ("set-cookie", "b=2")].
Proof.
  destruct (security_headers_on_every_response tt demo_call_next 0%nat)
    as (r & E & H & O & _).
  exists r. split; [exact E|]. split; [|exact O].
  apply H. simpl. tauto.
Defined.

(** X18: the middleware applied twice does what it does applied
    once. *)
Theorem security_headers_idempotent {S Request Body} (request : Request)
    (call_next : Request -> ST S (Starlette.response Body)) s :
  Starlette.add_security_headers request
    (fun request => Starlette.add_security_headers request call_next) s
  = Starlette.add_security_headers request call_next s.
Proof.
  rewrite !StarletteFacts.add_security_headers_unfold.
  destruct (call_next request s) as [[r0|e] s']; [|reflexivity].
  now rewrite StarletteFacts.set_all_idempotent.
Qed.

(** ** Enriching twice *)

Lemma dict_set_same {V} k (v : V) d :
  dict_get k d = Some v -> dict_set k v d = d.
Proof.
  induction d as [|[k' v'] d IH]; [discriminate|]. cbn [dict_get dict_set].
  destruct (String.eqb_spec k k') as [->|N].
  - now intros [= ->].
  - intros H. now rewrite IH.
Qed.

(** What a run of [enrich_one] that returns has gone through. *)
Lemma enrich_one_steps clock conf n r n' :
  enrich_one clock conf n = (Ok r, n') ->
  exists d its entries n1 cdays,
    conf = VDict d
    /\ items (match dict_get "deadlines" d with Some v => v | None => VDict [] end)
       = Ok its
    /\ forallb (fun kv => date_ok (snd kv)) its = true
    /\ list_sort Z.ltb days_key (entries_from clock n its) = Ok entries
    /\ days_until clock
         (match dict_get "conference_date" d with Some v => v | None => VNone end)
         n1 = (Ok cdays, n')
    /\ r = enriched_record d entries (opt_int cdays).
Proof.
  unfold enrich_one. intros E.
  step_lift E conf_copy Ecopy.
  step_lift E dl Eget.
  step_lift E its Eits.
  step_ok E l Ecoll. apply collect_deadlines_ok in Ecoll as [-> Hok].
  step_lift E entries Esort.
  step_lift E copy1 Eset1.
  step_lift E copy2 Eset2.
  step_lift E cd Ecd.
  step_ok E cdays Edays.
  step_lift E copy3 Eset3.
  apply ret_ok_inv in E as [-> ->].
  destruct conf as [| | | | |d]; try discriminate.
  simpl in Ecopy, Eget, Ecd.
  inversion Ecopy; subst conf_copy. inversion Eget; subst dl.
  inversion Ecd; subst cd. clear Ecopy Eget Ecd.
  simpl in Eset1. inversion Eset1; subst copy1. clear Eset1.
  simpl in Eset2. inversion Eset2; subst copy2. clear Eset2.
  simpl in Eset3. inversion Eset3; subst copy3. clear Eset3.
  exists d, its, entries, s, cdays.
  split; [reflexivity|]. split; [exact Eits|]. split; [exact Hok|].
  split; [exact Esort|]. split; [exact Edays|].
  unfold enriched_record. now rewrite hd_match.
Qed.

(** The run of [enrich_one] on a mapping whose dates parse. *)
Lemma enrich_one_run now d its entries cdays n :
  items (match dict_get "deadlines" d with Some v => v | None => VDict [] end)
  = Ok its ->
  forallb (fun kv => date_ok (snd kv)) its = true ->
  list_sort Z.ltb days_key (dated_entries now its) = Ok entries ->
  (forall m, fst (days_until (fixed_clock now)
                    (match dict_get "conference_date" d with
                     | Some v => v | None => VNone end) m) = Ok cdays) ->
  fst (enrich_one (fixed_clock now) (VDict d) n)
  = Ok (enriched_record d entries (opt_int cdays)).
Proof.
  intros Hits Hok Es Hcd.
  unfold enrich_one. run_lift. cbn [copy]. cbn beta iota.
  run_lift. cbn [get_default]. cbn beta iota.
  run_lift. rewrite Hits.
  destruct (collect_deadlines_total (fixed_clock now) its [] n Hok) as [n1 Ec].
  rewrite (bind_ok _ _ _ _ _ Ec). cbn [app].
  rewrite entries_from_fixed.
  run_lift. rewrite Es.
  run_lift. cbn [setitem]. cbn beta iota.
  run_lift. cbn [setitem]. cbn beta iota.
  run_lift. cbn [get_default]. cbn beta iota.
  specialize (Hcd n1).
  destruct (days_until (fixed_clock now) _ n1) as [rc n2] eqn:Ed.
  simpl in Hcd. subst rc.
  rewrite (bind_ok _ _ _ _ _ Ed).
  run_lift. cbn [setitem]. cbn beta iota. unfold ret. cbn [fst].
  unfold enriched_record. now rewrite hd_match.
Qed.

Lemma enriched_record_fixed_point d entries c :
  enriched_record
    (dict_set "conference_days" c
       (dict_set "next_deadline" (hd VNone entries)
          (dict_set "all_deadlines" (VList entries) d)))
    entries c
  = enriched_record d entries c.
Proof.
  unfold enriched_record. f_equal.
  set (d3 := dict_set "conference_days" c
               (dict_set "next_deadline" (hd VNone entries)
                  (dict_set "all_deadlines" (VList entries) d))).
  assert (H1 : dict_set "all_deadlines" (VList entries) d3 = d3).
  { apply dict_set_same. unfold d3.
    rewrite !dict_get_set_ne by discriminate. apply dict_get_set_eq. }
  rewrite H1.
  assert (H2 : dict_set "next_deadline" (hd VNone entries) d3 = d3).
  { apply dict_set_same. unfold d3.
    rewrite dict_get_set_ne by discriminate. apply dict_get_set_eq. }
  rewrite H2.
  apply dict_set_same. unfold d3. apply dict_get_set_eq.
Qed.

Lemma enrich_one_again now conf n r n' m :
  enrich_one (fixed_clock now) conf n = (Ok r, n') ->
  fst (enrich_one (fixed_clock now) r m) = Ok r.
Proof.
  intros E.
  apply enrich_one_steps in E
    as (d & its & entries & n1 & cdays & -> & Hits & Hok & Es & Ed & ->).
  rewrite entries_from_fixed in Es.
  unfold enriched_record at 1.
  rewrite <- (enriched_record_fixed_point d entries (opt_int cdays)).
  apply (enrich_one_run now _ its entries cdays m).
  - rewrite !dict_get_set_ne by discriminate. exact Hits.
  - exact Hok.
  - exact Es.
  - intros k. rewrite !dict_get_set_ne by discriminate.
    rewrite (steady_days_until now _ k n1). now rewrite Ed.
Qed.

Lemma enrich_loop_again now rs :
  Forall (fun r => forall m, fst (enrich_one (fixed_clock now) r m) = Ok r) rs ->
  forall acc n, fst (enrich_loop (fixed_clock now) rs acc n) = Ok (acc ++ rs)%list.
Proof.
  induction 1 as [|r rs H _ IH]; intros acc n.
  - cbn. now rewrite app_nil_r.
  - cbn [enrich_loop].
    specialize (H n).
    destruct (enrich_one (fixed_clock now) r n) as [x n1] eqn:E.
    simpl in H. subst x.
    rewrite (bind_ok _ _ _ _ _ E). rewrite IH. now rewrite <- app_assoc.
Qed.

Section SortedId.
Context {A K : Type}.
Variable lt : K -> K -> bool.

Lemma insert_keyed_least (x : K * A) l :
  Forall (fun y => lt (fst y) (fst x) = false) l -> insert_keyed lt x l = x :: l.
Proof.
  destruct 1 as [|y l H _]; [reflexivity|]. cbn [insert_keyed]. now rewrite H.
Qed.

Lemma sort_keyed_sorted_id (l : list (K * A)) :
  StronglySorted (fun x y => lt (fst y) (fst x) = false) l -> sort_keyed lt l = l.
Proof.
  induction 1 as [|x l S IH F]; [reflexivity|].
  cbn [sort_keyed fold_right]. fold (sort_keyed lt l). rewrite IH.
  now apply insert_keyed_least.
Qed.

Lemma list_sort_sorted_id (key : A -> result K) (l : list A) :
  Forall (fun x => exists k, key x = Ok k) l ->
  StronglySorted (sorted_by lt key) l -> list_sort lt key l = Ok l.
Proof.
  intros HK S. unfold list_sort.
  assert (D : exists kl, decorate key l = Ok kl
                /\ map snd kl = l
                /\ Forall (fun kx => key (snd kx) = Ok (fst kx)) kl
                /\ sort_keyed lt kl = kl).
  { induction S as [|x l S IH F].
    - exists []. repeat split; constructor.
    - inversion HK as [|? ? [kx Kx] HK']; subst.
      destruct (IH HK') as (kl & D & M & FK & SK).
      exists ((kx, x) :: kl). cbn [decorate]. rewrite Kx, D.
      split; [reflexivity|]. split; [cbn; now rewrite M|].
      split; [constructor; [exact Kx|exact FK]|].
      cbn [sort_keyed fold_right]. fold (sort_keyed lt kl). rewrite SK.
      apply insert_keyed_least. cbn [fst].
      rewrite List.Forall_forall in F, FK. apply List.Forall_forall.
      intros [ky y] I. cbn [fst].
      assert (Iy : In y l) by (rewrite <- M; now apply (in_map snd) in I).
      destruct (F y Iy) as (kx' & ky' & E1 & E2 & L).
      specialize (FK _ I). cbn [fst snd] in FK. congruence. }
  destruct D as (kl & -> & M & _ & ->). now rewrite M.
Qed.
End SortedId.


(** X23: with the current moment fixed, the enrichment of an enriched list
    returns that list as it is: the records are not changed and are left in
    their order. *)
Theorem enrich_idempotent now conferences n out n' m :
  enrich_conference_data (fixed_clock now) conferences n = (Ok (VList out), n') ->
  fst (enrich_conference_data (fixed_clock now) (VList out) m) = Ok (VList out).
Proof.
  intros E.
  pose proof (enrich_records _ _ _ _ _ E) as [Hs Hf].
  assert (Hagain : Forall (fun r => forall k,
                     fst (enrich_one (fixed_clock now) r k) = Ok r) out).
  { eapply Forall_impl; [exact Hf|]. intros r (_ & conf & a & b & Hr) k.
    eapply enrich_one_again, Hr. }
  assert (Hkeys : Forall (fun r => exists k, sort_key r = Ok k) out).
  { eapply Forall_impl; [exact Hf|]. intros r (Hr & _).
    destruct (sort_key_enriched r Hr) as [K _]. eauto. }
  unfold enrich_conference_data.
  rewrite (bind_ok _ _ m (fixed_clock now m) (S m)) by reflexivity.
  run_lift. cbn [iterate]. cbn beta iota.
  pose proof (enrich_loop_again now out Hagain [] (S m)) as L.
  destruct (enrich_loop (fixed_clock now) out [] (S m)) as [x m1] eqn:EL.
  simpl in L. subst x. rewrite (bind_ok _ _ _ _ _ EL).
  run_lift. rewrite (list_sort_sorted_id skey_lt sort_key out Hkeys Hs).
  reflexivity.
Qed.

Lemma enrich_idempotent_witness :
  exists out,
    enrich_conference_data (fixed_clock now_2026)
      (VList [conf_A; conf_B; conf_near; conf_C]) 0%nat = (Ok (VList out), 5%nat)
    /\ fst (enrich_conference_data (fixed_clock now_2026) (VList out) 0%nat)
       = Ok (VList out).
Proof.
  eexists. split; [vm_compute; reflexivity|].
  apply (enrich_idempotent now_2026 (VList [conf_A; conf_B; conf_near; conf_C])
           0%nat _ 5%nat 0%nat).
  vm_compute. reflexivity.
Defined.

(** ** The order of the input *)

Lemma sorted_permutation_unique {A} (R : A -> A -> Prop) (l1 l2 : list A) :
  (forall x y, In x l1 -> In y l1 -> R x y -> R y x -> x = y) ->
  Permutation l1 l2 -> StronglySorted R l1 -> StronglySorted R l2 -> l1 = l2.
Proof.
  revert l2. induction l1 as [|x1 t1 IH]; intros l2 AS P S1 S2.
  - apply Permutation_nil in P. now subst.
  - destruct l2 as [|x2 t2].
    { apply Permutation_sym, Permutation_nil in P. discriminate. }
    inversion S1 as [|? ? S1' F1]; subst. inversion S2 as [|? ? S2' F2]; subst.
    rewrite List.Forall_forall in F1, F2.
    assert (E : x1 = x2).
    { assert (I2 : In x2 (x1 :: t1))
        by (eapply Permutation_in; [apply Permutation_sym, P|now left]).
      assert (I1 : In x1 (x2 :: t2))
        by (eapply Permutation_in; [exact P|now left]).
      destruct I2 as [E|I2]; [exact E|].
      destruct I1 as [E|I1]; [now symmetry|].
      apply AS; [now left|now right|apply F1, I2|apply F2, I1]. }
    subst x2. f_equal. apply IH; auto.
    + intros x y Ix Iy. apply AS; now right.
    + eapply Permutation_cons_inv, P.
Qed.

(** With the clock fixed, the enriched record is a function of the record. *)
Lemma enriched_list_map now confs rs :
  Forall2 (fun conf r => exists m m',
             enrich_one (fixed_clock now) conf m = (Ok r, m')) confs rs ->
  map Ok rs = map (fun conf => fst (enrich_one (fixed_clock now) conf 0%nat)) confs.
Proof.
  induction 1 as [|conf r confs rs (m & m' & E) _ IH]; [reflexivity|].
  cbn [map]. rewrite IH. f_equal.
  rewrite (steady_enrich_one now conf 0%nat m). now rewrite E.
Qed.

Lemma enriched_lists_permutation now confs1 confs2 rs1 rs2 :
  Permutation confs1 confs2 ->
  Forall2 (fun conf r => exists m m',
             enrich_one (fixed_clock now) conf m = (Ok r, m')) confs1 rs1 ->
  Forall2 (fun conf r => exists m m',
             enrich_one (fixed_clock now) conf m = (Ok r, m')) confs2 rs2 ->
  Permutation rs1 rs2.
Proof.
  intros P F1 F2.
  apply enriched_list_map in F1, F2.
  pose proof (Permutation_map
                (fun conf => fst (enrich_one (fixed_clock now) conf 0%nat)) P) as PM.
  rewrite <- F1, <- F2 in PM.
  apply Permutation_map_inv in PM as (l3 & E & P3).
  assert (rs1 = l3); [|subst; now symmetry].
  clear -E. revert l3 E. induction rs1 as [|r rs IH]; intros [|x l3] E;
    try discriminate; [reflexivity|].
  cbn in E. injection E as -> E. f_equal. auto.
Qed.

(** X25: with the current moment fixed, two input lists with the same
    records in different orders give the same output, as long as no two
    enriched records have the same key: the order of the input decides
    between records of equal keys and nothing else. *)
Theorem order_of_input_breaks_ties_only now confs1 confs2 n1 n2 out1 out2 n1' n2' :
  enrich_conference_data (fixed_clock now) (VList confs1) n1
  = (Ok (VList out1), n1') ->
  enrich_conference_data (fixed_clock now) (VList confs2) n2
  = (Ok (VList out2), n2') ->
  Permutation confs1 confs2 ->
  (forall r r', In r out1 -> In r' out1 ->
     key_of_days (next_days r) = key_of_days (next_days r') -> r = r') ->
  out1 = out2.
Proof.
  intros E1 E2 P ND.
  pose proof (enrich_records _ _ _ _ _ E1) as [S1 F1].
  pose proof (enrich_records _ _ _ _ _ E2) as [S2 _].
  apply enrich_ok in E1 as (c1 & rs1 & o1 & I1 & R1 & L1 & [= <-]).
  apply enrich_ok in E2 as (c2 & rs2 & o2 & I2 & R2 & L2 & [= <-]).
  cbn in I1, I2. injection I1 as <-. injection I2 as <-.
  apply (sorted_permutation_unique (sorted_by skey_lt sort_key)); auto.
  - intros x y Ix Iy (kx & ky & Kx & Ky & Lxy) (ky' & kx' & Ky' & Kx' & Lyx).
    apply ND; auto.
    rewrite List.Forall_forall in F1.
    destruct (F1 x Ix) as [Hx _]. destruct (F1 y Iy) as [Hy _].
    destruct (sort_key_enriched x Hx) as [Sx _].
    destruct (sort_key_enriched y Hy) as [Sy _].
    rewrite Sx in Kx, Kx'. rewrite Sy in Ky, Ky'.
    injection Kx as <-. injection Ky as <-. injection Kx' as <-. injection Ky' as <-.
    destruct (key_of_days (next_days x)) as [a|], (key_of_days (next_days y)) as [b|];
      cbn in Lxy, Lyx; try discriminate; [|reflexivity].
    apply Z.ltb_ge in Lxy, Lyx. f_equal. lia.
  - rewrite (list_sort_perm _ _ _ _ L1), (list_sort_perm _ _ _ _ L2).
    eapply enriched_lists_permutation; eauto.
Qed.

Lemma order_of_input_breaks_ties_only_witness :
  exists out1 out2,
    enrich_conference_data (fixed_clock now_2026)
      (VList [conf_A; conf_B; conf_near]) 0%nat = (Ok (VList out1), 5%nat)
    /\ enrich_conference_data (fixed_clock now_2026)
         (VList [conf_near; conf_A; conf_B]) 0%nat = (Ok (VList out2), 5%nat)
    /\ out1 = out2.
Proof.
  eexists. eexists. split; [vm_compute; reflexivity|].
  split; [vm_compute; reflexivity|].
  apply (order_of_input_breaks_ties_only now_2026
           [conf_A; conf_B; conf_near] [conf_near; conf_A; conf_B]
           0%nat 0%nat _ _ 5%nat 5%nat).
  - vm_compute. reflexivity.
  - vm_compute. reflexivity.
  - symmetry. apply (Permutation_cons_app [conf_A; conf_B] [] conf_near).
    reflexivity.
  - intros r r' [<-|[<-|[<-|[]]]] [<-|[<-|[<-|[]]]]; vm_compute; intros H;
      first [reflexivity | discriminate H].
Defined.

(** * Properties of [update_deadlines.py] *)

Module StrFacts.
Import Str.

Lemma string_length_ind (P : string -> Prop) :
  (forall s, (forall t, (String.length t < String.length s)%nat -> P t) -> P s) ->
  forall s, P s.
Proof.
  intros H s. remember (String.length s) as n eqn:E.
  revert s E. induction n as [n IH] using lt_wf_ind. intros s ->.
  apply H. intros t L. eapply IH; eauto.
Qed.

Lemma linebreak_is_space c : is_linebreak c = true -> is_space c = true.
Proof.
  unfold is_linebreak, is_space. set (n := nat_of_ascii c). clearbody n.
  intros H. apply orb_true_iff in H as [H|H]; [apply orb_true_iff in H as [H|H]|].
  - apply andb_true_iff in H as [H1 H2].
    apply Nat.leb_le in H1, H2.
    assert (E : (9 <=? n)%nat && (n <=? 13)%nat = true)
      by (apply andb_true_iff; split; apply Nat.leb_le; lia).
    now rewrite E.
  - apply andb_true_iff in H as [H1 H2].
    apply Nat.leb_le in H1, H2.
    assert (E : (28 <=? n)%nat && (n <=? 32)%nat = true)
      by (apply andb_true_iff; split; apply Nat.leb_le; lia).
    rewrite E. now rewrite orb_true_r.
  - rewrite H. now rewrite orb_true_r.
Qed.

Lemma space_is_space : is_space " " = true.
Proof. reflexivity. Qed.

(** *** [strip] *)

Lemma head_ok_lstrip s : head_ok (lstrip s) = true.
Proof.
  induction s as [|c s IH]; [reflexivity|]. cbn [lstrip].
  destruct (is_space c) eqn:E; [exact IH|]. cbn. now rewrite E.
Qed.

Lemma rstrip_cons c s :
  rstrip (String c s)
  = match rstrip s with
    | EmptyString => if is_space c then EmptyString else String c EmptyString
    | r => String c r
    end.
Proof. reflexivity. Qed.

Lemma last_ok_rstrip s : last_ok (rstrip s) = true.
Proof.
  induction s as [|c s IH]; [reflexivity|]. rewrite rstrip_cons.
  destruct (rstrip s) as [|c' r].
  - destruct (is_space c) eqn:E; [reflexivity|]. cbn. now rewrite E.
  - exact IH.
Qed.

Lemma last_ok_lstrip s : last_ok s = true -> last_ok (lstrip s) = true.
Proof.
  induction s as [|c s IH]; [reflexivity|]. cbn [lstrip].
  destruct (is_space c) eqn:E; [|auto].
  intros H. apply IH. destruct s; [reflexivity|exact H].
Qed.

Lemma single_spaced_tail c s : single_spaced (String c s) = true -> single_spaced s = true.
Proof. cbn [single_spaced]. intros H. now apply andb_true_iff in H as [_ H]. Qed.

Lemma single_spaced_lstrip s : single_spaced s = true -> single_spaced (lstrip s) = true.
Proof.
  induction s as [|c s IH]; [reflexivity|]. cbn [lstrip].
  destruct (is_space c); [|auto]. intros H. eapply IH, single_spaced_tail, H.
Qed.

Lemma single_spaced_rstrip s : single_spaced s = true -> single_spaced (rstrip s) = true.
Proof.
  induction s as [|c s IH]; [reflexivity|]. intros H. rewrite rstrip_cons.
  pose proof (IH (single_spaced_tail _ _ H)) as IH'.
  destruct (rstrip s) as [|c' r] eqn:R.
  - now destruct (is_space c).
  - cbn [single_spaced] in *. rewrite IH'. rewrite andb_true_r.
    destruct s as [|c2 s2]; [discriminate|].
    apply andb_true_iff in H as [H _].
    rewrite rstrip_cons in R.
    destruct (rstrip s2); [destruct (is_space c2)|]; inversion R; subst; exact H.
Qed.

Lemma no_linebreak_lstrip s : no_linebreak s = true -> no_linebreak (lstrip s) = true.
Proof.
  induction s as [|c s IH]; [reflexivity|]. cbn [lstrip].
  destruct (is_space c); [|auto]. cbn [no_linebreak]. intros H.
  apply andb_true_iff in H as [_ H]. auto.
Qed.

Lemma no_linebreak_rstrip s : no_linebreak s = true -> no_linebreak (rstrip s) = true.
Proof.
  induction s as [|c s IH]; [reflexivity|]. rewrite rstrip_cons.
  cbn [no_linebreak]. intros H. apply andb_true_iff in H as [H1 H2].
  specialize (IH H2).
  destruct (rstrip s) as [|c' r].
  - destruct (is_space c); [reflexivity|]. cbn. now rewrite H1.
  - cbn [no_linebreak] in *. now rewrite H1, IH.
Qed.

Lemma non_space_lstrip s : non_space (lstrip s) = non_space s.
Proof.
  induction s as [|c s IH]; [reflexivity|]. cbn [lstrip non_space].
  destruct (is_space c) eqn:E; [exact IH|]. cbn [non_space]. now rewrite E.
Qed.

Lemma non_space_rstrip s : non_space (rstrip s) = non_space s.
Proof.
  induction s as [|c s IH]; [reflexivity|]. rewrite rstrip_cons.
  cbn [non_space]. rewrite <- IH.
  destruct (rstrip s) as [|c' r].
  - destruct (is_space c) eqn:E; [reflexivity|]. cbn [non_space]. now rewrite E.
  - reflexivity.
Qed.

Record tidy (s : string) : Prop := {
  tidy_head : head_ok s = true;
  tidy_last : last_ok s = true;
  tidy_spaced : single_spaced s = true;
  tidy_lines : no_linebreak s = true }.

Lemma strip_tidy s :
  single_spaced s = true -> no_linebreak s = true -> tidy (strip s).
Proof.
  intros H1 H2. unfold strip. split.
  - apply head_ok_lstrip.
  - apply last_ok_lstrip, last_ok_rstrip.
  - now apply single_spaced_lstrip, single_spaced_rstrip.
  - now apply no_linebreak_lstrip, no_linebreak_rstrip.
Qed.

Lemma non_space_strip s : non_space (strip s) = non_space s.
Proof. unfold strip. now rewrite non_space_lstrip, non_space_rstrip. Qed.

Lemma no_linebreak_strip s : no_linebreak s = true -> no_linebreak (strip s) = true.
Proof. intros H. now apply no_linebreak_lstrip, no_linebreak_rstrip. Qed.

(** *** [splitlines] *)

Lemma splitlines_facts s :
  Forall (fun line => no_linebreak line = true) (splitlines s)
  /\ concat (map non_space (splitlines s)) = non_space s.
Proof.
  induction s as [s IH] using string_length_ind.
  destruct s as [|c s']; [split; [constructor|reflexivity]|].
  cbn [splitlines non_space].
  destruct (is_linebreak c) eqn:B.
  - rewrite (linebreak_is_space c B).
    destruct s' as [|c' s''].
    + cbn. split; [repeat constructor|reflexivity].
    + destruct (Ascii.eqb c CR && Ascii.eqb c' LF) eqn:E.
      * destruct (IH s'') as [F N]; [cbn; lia|].
        split; [constructor; [reflexivity|exact F]|].
        cbn [map concat app non_space]. rewrite N.
        apply andb_true_iff in E as [_ E]. apply Ascii.eqb_eq in E. subst c'.
        reflexivity.
      * destruct (IH (String c' s'')) as [F N]; [cbn; lia|].
        split; [constructor; [reflexivity|exact F]|].
        cbn [map concat app]. exact N.
  - destruct (IH s') as [F N]; [cbn; lia|].
    destruct (splitlines s') as [|line lines].
    + split; [repeat constructor; cbn; now rewrite B|].
      cbn in N. cbn [map concat non_space]. rewrite <- N.
      destruct (is_space c); reflexivity.
    + inversion F as [|? ? F1 F2]; subst.
      split; [constructor; [cbn; now rewrite B, F1|exact F2]|].
      cbn [map concat non_space] in *. rewrite <- N.
      destruct (is_space c); reflexivity.
Qed.

(** *** [split] on two spaces *)

Lemma split_two_spaces_cons c s :
  split_two_spaces (String c s)
  = let keep :=
      match split_two_spaces s with
      | [] => [String c EmptyString]
      | piece :: pieces => String c piece :: pieces
      end in
    match s with
    | String c' s'' =>
        if Ascii.eqb c " " && Ascii.eqb c' " "
        then EmptyString :: split_two_spaces s''
        else keep
    | EmptyString => keep
    end.
Proof. reflexivity. Qed.

Lemma split_nonempty s : split_two_spaces s <> [].
Proof.
  induction s as [s IH] using string_length_ind.
  destruct s as [|c s]; [discriminate|]. rewrite split_two_spaces_cons.
  cbv zeta. destruct s as [|c' s''].
  - cbn. discriminate.
  - destruct (_ && _); [discriminate|].
    destruct (split_two_spaces (String c' s'')); discriminate.
Qed.

(** The first piece starts as the text does, unless the text starts with
    two spaces. *)
Lemma split_head c s :
  match split_two_spaces (String c s) with
  | [] => False
  | piece :: _ =>
      piece = EmptyString
      \/ exists r, piece = String c r
           /\ match r, s with
              | String a _, String b _ => a = b
              | String _ _, EmptyString => False
              | EmptyString, String b s' => b = " "%char /\ exists s'', s' = String " " s''
              | EmptyString, EmptyString => True
              end
  end.
Proof.
  rewrite split_two_spaces_cons. cbv zeta.
  destruct s as [|c' s''].
  - cbn. right. exists EmptyString. auto.
  - destruct (Ascii.eqb c " " && Ascii.eqb c' " ") eqn:E; [now left|].
    rewrite split_two_spaces_cons. cbv zeta.
    destruct s'' as [|c2 s3].
    + cbn. right. exists (String c' EmptyString). auto.
    + destruct (Ascii.eqb c' " " && Ascii.eqb c2 " ") eqn:E2.
      * right. exists EmptyString. split; [reflexivity|].
        apply andb_true_iff in E2 as [E2 E3].
        apply Ascii.eqb_eq in E2, E3. subst. split; [reflexivity|]. eauto.
      * pose proof (split_nonempty (String c2 s3)) as NE.
        destruct (split_two_spaces (String c2 s3)) as [|p ps]; [contradiction|].
        right. exists (String c' p). auto.
Qed.

Lemma split_facts s :
  no_linebreak s = true ->
  Forall (fun piece => single_spaced piece = true /\ no_linebreak piece = true)
    (split_two_spaces s)
  /\ concat (map non_space (split_two_spaces s)) = non_space s.
Proof.
  induction s as [s IH] using string_length_ind. intros NL.
  destruct s as [|c s]; [split; [repeat constructor|reflexivity]|].
  cbn [no_linebreak] in NL. apply andb_true_iff in NL as [NLc NL].
  pose proof (split_head c s) as HD.
  rewrite split_two_spaces_cons in *. cbv zeta in *.
  assert (KEEP :
    let keep := match split_two_spaces s with
                | [] => [String c EmptyString]
                | piece :: pieces => String c piece :: pieces
                end in
    (match s with
     | String c' _ => Ascii.eqb c " " && Ascii.eqb c' " " = false
     | EmptyString => True
     end) ->
    Forall (fun piece => single_spaced piece = true /\ no_linebreak piece = true) keep
    /\ concat (map non_space keep) = non_space (String c s)).
  { cbv zeta. intros NS.
    destruct (IH s) as [F N]; [cbn; lia|exact NL|].
    pose proof (split_nonempty s) as NE.
    destruct (split_two_spaces s) as [|p ps] eqn:SP; [contradiction|].
    inversion F as [|? ? [F1 F1'] F2]; subst.
    split.
    - constructor; [|exact F2]. split; [|cbn; now rewrite NLc, F1'].
      cbn [single_spaced]. rewrite F1, andb_true_r.
      destruct p as [|a p']; [reflexivity|].
      destruct s as [|b s']; [cbn in SP; inversion SP|].
      pose proof (split_head b s') as HB. rewrite SP in HB.
      destruct HB as [HB|(r & HB & _)]; [discriminate|].
      inversion HB; subst. now rewrite NS.
    - cbn [map concat non_space] in *. rewrite <- N.
      destruct (is_space c); reflexivity. }
  cbv zeta in KEEP.
  destruct s as [|c' s''].
  - apply KEEP. exact I.
  - destruct (Ascii.eqb c " " && Ascii.eqb c' " ") eqn:E.
    + cbn [no_linebreak] in NL. apply andb_true_iff in NL as [_ NL].
      destruct (IH s'') as [F N]; [cbn; lia|exact NL|].
      split; [constructor; [split; reflexivity|exact F]|].
      cbn [map concat app non_space]. rewrite N.
      apply andb_true_iff in E as [E1 E2]. apply Ascii.eqb_eq in E1, E2. subst.
      reflexivity.
    + apply KEEP. reflexivity.
Qed.
End StrFacts.

Module CleanFacts.
Import Str StrFacts.

Lemma single_spaced_app a b :
  single_spaced a = true -> last_ok a = true -> a <> EmptyString ->
  head_ok b = true -> single_spaced b = true ->
  single_spaced (a ++ " " ++ b) = true.
Proof.
  intros Sa La Na Hb Sb.
  induction a as [|c a IH]; [contradiction|]. clear Na.
  destruct a as [|c' a'].
  - cbn in La. cbn [append single_spaced].
    assert (Ec : Ascii.eqb c " " = false).
    { destruct (Ascii.eqb_spec c " "); [subst; discriminate|reflexivity]. }
    rewrite Ec. cbn [andb negb].
    destruct b as [|d b']; [reflexivity|].
    cbn [head_ok] in Hb.
    assert (Ed : Ascii.eqb d " " = false).
    { destruct (Ascii.eqb_spec d " "); [subst; discriminate|reflexivity]. }
    rewrite Ed, andb_false_r. cbn [negb andb]. exact Sb.
  - cbn [single_spaced] in Sa. apply andb_true_iff in Sa as [S1 S2].
    change (String c (String c' a') ++ " " ++ b)
      with (String c (String c' a' ++ " " ++ b)).
    cbn [single_spaced]. cbn [append]. rewrite S1. cbn [andb].
    apply IH; [exact S2|exact La|discriminate].
Qed.

Lemma last_ok_app a b :
  b <> EmptyString -> last_ok b = true -> last_ok (a ++ b) = true.
Proof.
  intros Nb Lb. induction a as [|c a IH]; [exact Lb|].
  cbn [append last_ok]. destruct (a ++ b) eqn:E; [|exact IH].
  destruct a; [cbn in E; contradiction|discriminate].
Qed.

Lemma no_linebreak_app a b :
  no_linebreak a = true -> no_linebreak b = true -> no_linebreak (a ++ b) = true.
Proof.
  intros Ha Hb. induction a as [|c a IH]; [exact Hb|].
  cbn [append no_linebreak] in *. apply andb_true_iff in Ha as [H1 H2].
  now rewrite H1, IH.
Qed.

Lemma non_space_app a b : non_space (a ++ b) = (non_space a ++ non_space b)%list.
Proof.
  induction a as [|c a IH]; [reflexivity|]. cbn [append non_space].
  destruct (is_space c); [exact IH|]. now rewrite IH.
Qed.

Lemma head_ok_app a b : a <> EmptyString -> head_ok (a ++ b) = head_ok a.
Proof. destruct a; [contradiction|reflexivity]. Qed.

Lemma join_tidy (l : list string) :
  Forall (fun chunk => chunk <> EmptyString /\ tidy chunk) l ->
  tidy (join " " l) /\ (l <> [] -> join " " l <> EmptyString).
Proof.
  induction 1 as [|x l [Nx Tx] F IH].
  - split; [split; reflexivity|contradiction].
  - destruct l as [|y l'].
    + cbn [join]. split; [exact Tx|intros _; exact Nx].
    + destruct IH as [[Jh Jl Js Jn] Jne].
      specialize (Jne ltac:(discriminate)).
      change (join " " (x :: y :: l')) with (x ++ " " ++ join " " (y :: l')).
      destruct Tx as [Xh Xl Xs Xn].
      split.
      * split.
        -- now rewrite head_ok_app.
        -- apply last_ok_app; [discriminate|].
           change (" " ++ join " " (y :: l')) with (String " " (join " " (y :: l'))).
           cbn [last_ok]. destruct (join " " (y :: l')); [contradiction|exact Jl].
        -- now apply single_spaced_app.
        -- apply no_linebreak_app; [exact Xn|]. exact Jn.
      * destruct x; [contradiction|discriminate].
Qed.

Lemma non_space_join (l : list string) :
  non_space (join " " l) = concat (map non_space l).
Proof.
  induction l as [|x l IH]; [reflexivity|].
  destruct l as [|y l'].
  - cbn. now rewrite app_nil_r.
  - change (join " " (x :: y :: l')) with (x ++ " " ++ join " " (y :: l')).
    rewrite non_space_app.
    change (non_space (" " ++ join " " (y :: l')))
      with (non_space (join " " (y :: l'))).
    now rewrite IH.
Qed.

Lemma take_facts n s :
  (String.length (take n s) <= n)%nat
  /\ (head_ok s = true -> head_ok (take n s) = true)
  /\ (single_spaced s = true -> single_spaced (take n s) = true)
  /\ (no_linebreak s = true -> no_linebreak (take n s) = true)
  /\ exists rest, non_space s = (non_space (take n s) ++ rest)%list.
Proof.
  revert s. induction n as [|n IH]; intros s.
  - cbn. repeat split; try lia; eauto.
  - destruct s as [|c s]; [cbn; repeat split; try lia; eauto|].
    destruct (IH s) as (L & _ & S1 & N1 & rest & R).
    cbn [take]. repeat split.
    + cbn. lia.
    + auto.
    + cbn [single_spaced]. intros H. apply andb_true_iff in H as [H1 H2].
      rewrite (S1 H2), andb_true_r.
      destruct s as [|c' s']; [now destruct n|].
      destruct n; [reflexivity|exact H1].
    + cbn [no_linebreak]. intros H. apply andb_true_iff in H as [H1 H2].
      now rewrite H1, N1.
    + exists rest. cbn [non_space]. rewrite R. now destruct (is_space c).
Qed.

Lemma non_space_nonempty (l : list string) :
  concat (map non_space (List.filter (fun chunk => negb (chunk =? "")%string) l))
  = concat (map non_space l).
Proof.
  induction l as [|x l IH]; [reflexivity|]. cbn [List.filter].
  destruct (String.eqb_spec x ""); cbn [negb map concat].
  - subst. exact IH.
  - now rewrite IH.
Qed.

Lemma concat_flat_map {A B C} (f : A -> list B) (g : B -> list C) (l : list A) :
  concat (map g (flat_map f l)) = concat (map (fun a => concat (map g (f a))) l).
Proof.
  induction l as [|a l IH]; [reflexivity|].
  cbn [flat_map map concat]. now rewrite map_app, concat_app, IH.
Qed.
End CleanFacts.

Module ScriptFacts.
Import Str StrFacts CleanFacts Script.

Lemma chunks_tidy (lines : list string) :
  Forall (fun line => no_linebreak line = true) lines ->
  Forall tidy (flat_map (fun line => map strip (split_two_spaces line)) lines)
  /\ concat (map non_space
               (flat_map (fun line => map strip (split_two_spaces line)) lines))
     = concat (map non_space lines).
Proof.
  induction 1 as [|line lines NL _ [IH1 IH2]]; [split; [constructor|reflexivity]|].
  destruct (split_facts line NL) as [F N].
  cbn [flat_map map concat]. split.
  - apply Forall_app. split; [|exact IH1].
    apply Forall_map. eapply Forall_impl; [exact F|].
    intros piece [S1 S2]. now apply strip_tidy.
  - rewrite map_app, concat_app, IH2. f_equal.
    rewrite <- N. rewrite map_map. f_equal. apply map_ext.
    intros piece. apply non_space_strip.
Qed.

Lemma clean_text_facts text :
  (String.length (clean_text text) <= 3000)%nat
  /\ head_ok (clean_text text) = true
  /\ single_spaced (clean_text text) = true
  /\ no_linebreak (clean_text text) = true
  /\ exists rest, non_space text = (non_space (clean_text text) ++ rest)%list.
Proof.
  unfold clean_text.
  destruct (splitlines_facts text) as [F0 N0].
  assert (F1 : Forall (fun line => no_linebreak line = true)
                 (map strip (splitlines text))).
  { apply Forall_map. eapply Forall_impl; [exact F0|].
    intros line. apply no_linebreak_strip. }
  destruct (chunks_tidy _ F1) as [T N].
  set (chunks := flat_map (fun line => map strip (split_two_spaces line))
                   (map strip (splitlines text))) in *.
  assert (T' : Forall (fun chunk => chunk <> EmptyString /\ tidy chunk)
                 (List.filter (fun chunk => negb (chunk =? "")%string) chunks)).
  { apply List.Forall_forall. intros chunk I. apply filter_In in I as [I NE].
    split; [intros ->; discriminate|].
    rewrite List.Forall_forall in T. now apply T. }
  destruct (join_tidy _ T') as [[Jh Jl Js Jn] _].
  set (joined := join " " _) in *.
  destruct (take_facts 3000 joined) as (L & H1 & H2 & H3 & rest & R).
  split; [exact L|]. split; [auto|]. split; [auto|]. split; [auto|].
  exists rest. rewrite <- R. unfold joined.
  rewrite non_space_join, non_space_nonempty, N.
  rewrite map_map. rewrite <- N0. f_equal. apply map_ext.
  intros line. symmetry. apply non_space_strip.
Qed.
End ScriptFacts.

(** X20: the text [fetch_webpage] returns has at most 3000 characters, no
    line boundary, no two spaces in a row and no white space at its start,
    and its characters other than white space are the first ones of the
    page's text: only white space is removed or put in, and the end cut. *)
Theorem fetch_webpage_text HAS_SCRAPING page_text url w t w' :
  Script.fetch_webpage HAS_SCRAPING page_text url w = (Script.Return t, w') ->
  (String.length t <= 3000)%nat
  /\ head_ok t = true
  /\ single_spaced t = true
  /\ no_linebreak t = true
  /\ exists text rest,
       page_text url = inl text
       /\ non_space text = (non_space t ++ rest)%list.
Proof.
  unfold Script.fetch_webpage.
  destruct (negb HAS_SCRAPING); [discriminate|].
  destruct (negb _); [discriminate|].
  destruct (existsb _ _); [discriminate|].
  unfold Script.bind, Script.print, Script.requests_get, Script.ret. cbn [Script.stdout Script.requests].
  destruct (page_text url) as [text|e]; [|discriminate].
  intros [= <- _].
  destruct (ScriptFacts.clean_text_facts text) as (L & H1 & H2 & H3 & rest & R).
  repeat (split; [assumption|]). eauto.
Qed.

Lemma fetch_webpage_text_witness :
  (String.length "Call for papers Deadline: 2027-01-01" <= 3000)%nat
  /\ head_ok "Call for papers Deadline: 2027-01-01" = true
  /\ single_spaced "Call for papers Deadline: 2027-01-01" = true
  /\ no_linebreak "Call for papers Deadline: 2027-01-01" = true
  /\ exists text rest,
       demo_page "https://example.org/cfp" = inl text
       /\ non_space text
          = (non_space "Call for papers Deadline: 2027-01-01" ++ rest)%list.
Proof.
  apply (fetch_webpage_text true demo_page "https://example.org/cfp" demo_world
           "Call for papers Deadline: 2027-01-01"
           (Script.mkworld ["Fetching webpage..."] ["https://example.org/cfp"])).
  vm_compute. reflexivity.
Defined.

Module GuardFacts.
Import Str Script.

Lemma prefix_iff p s : String.prefix p s = true <-> exists r, s = p ++ r.
Proof.
  revert s. induction p as [|c p IH]; intros s.
  - cbn. destruct s; split; eauto.
  - destruct s as [|d s]; cbn [String.prefix].
    + split; [discriminate|]. intros [r Hr]. discriminate.
    + destruct (ascii_dec c d) as [->|N].
      * rewrite IH. split; intros [r Hr]; exists r; cbn [append] in *; congruence.
      * split; [discriminate|]. intros [r Hr]. cbn [append] in Hr. congruence.
Qed.

Lemma contains_iff sub s : contains sub s = true <-> occurs_in sub s.
Proof.
  unfold occurs_in. induction s as [|c s IH].
  - cbn [contains]. rewrite orb_false_r, prefix_iff. split.
    + intros [r Hr]. exists EmptyString, r. exact Hr.
    + intros (a & b & H). destruct a; [eauto|discriminate].
  - cbn [contains]. rewrite orb_true_iff, prefix_iff, IH. split.
    + intros [[r Hr]|(a & b & H)].
      * exists EmptyString, r. exact Hr.
      * exists (String c a), b. cbn [append]. now rewrite H.
    + intros (a & b & H). destruct a as [|c' a].
      * left. exists b. exact H.
      * right. exists a, b. cbn [append] in H. congruence.
Qed.

Lemma startswith_false url :
  startswith url ["http://"; "https://"] = false <->
  forall rest, url <> "http://" ++ rest /\ url <> "https://" ++ rest.
Proof.
  unfold startswith. cbn [existsb]. rewrite orb_false_r, orb_false_iff. split.
  - intros [H1 H2] rest. split; intros E.
    + assert (P : String.prefix "http://" url = true) by (apply prefix_iff; eauto).
      congruence.
    + assert (P : String.prefix "https://" url = true) by (apply prefix_iff; eauto).
      congruence.
  - intros H. split.
    + destruct (String.prefix "http://" url) eqn:P; [|reflexivity].
      apply prefix_iff in P as [r P]. now destruct (H r).
    + destruct (String.prefix "https://" url) eqn:P; [|reflexivity].
      apply prefix_iff in P as [r P]. now destruct (H r).
Qed.

Lemma blocked_iff url :
  existsb (fun blocked => contains blocked (Str.lower url)) blocked_hosts = true
  <-> exists blocked, In blocked blocked_hosts /\ occurs_in blocked (Str.lower url).
Proof.
  rewrite existsb_exists. split; intros (b & I & H); exists b; split; auto;
    now apply contains_iff.
Qed.

(** The guard as the code computes it. *)
Definition guard (url : string) : bool :=
  startswith url ["http://"; "https://"]
  && negb (existsb (fun blocked => contains blocked (Str.lower url)) blocked_hosts).

Lemma guard_refused url : guard url = false <-> refused url.
Proof.
  unfold guard, refused. rewrite andb_false_iff, negb_false_iff.
  now rewrite startswith_false, blocked_iff.
Qed.

Lemma fetch_webpage_refused HAS_SCRAPING page_text url w :
  guard url = false ->
  exists out,
    fetch_webpage HAS_SCRAPING page_text url w
    = (Fail (SystemExit 1), mkworld out (requests w)).
Proof.
  unfold guard, fetch_webpage. intros G.
  destruct HAS_SCRAPING; cbn [negb]; [|eexists; reflexivity].
  destruct (startswith url _); cbn [negb andb] in *; [|eexists; reflexivity].
  apply negb_false_iff in G. rewrite G. eexists; reflexivity.
Qed.

Lemma fetch_webpage_passed HAS_SCRAPING page_text url w :
  guard url = true ->
  HAS_SCRAPING = true ->
  fetch_webpage HAS_SCRAPING page_text url w
  = (match page_text url with
     | inl text => Return (clean_text text)
     | inr e => Fail (Exception e)
     end,
     mkworld (stdout w ++ ["Fetching webpage..."]) (requests w ++ [url])).
Proof.
  unfold guard, fetch_webpage. intros G ->. apply andb_true_iff in G as [G1 G2].
  apply negb_true_iff in G2. rewrite G1, G2. cbn [negb].
  unfold bind, print, requests_get, ret. cbn [stdout requests].
  now destruct (page_text url).
Qed.
End GuardFacts.

(** X19: [fetch_webpage] leaves by [sys.exit(1)], without a request, on
    every URL that does not start with [http://] or [https://], or in which
    one of the blocked texts occurs anywhere, in any case of the letters;
    every other URL is requested, once, when the packages are installed. *)
Theorem fetch_webpage_guard HAS_SCRAPING page_text url w :
  (refused url ->
   exists out,
     Script.fetch_webpage HAS_SCRAPING page_text url w
     = (Script.Fail (Script.SystemExit 1), Script.mkworld out (Script.requests w)))
  /\ (~ refused url ->
      Script.requests (snd (Script.fetch_webpage HAS_SCRAPING page_text url w))
      = if HAS_SCRAPING then (Script.requests w ++ [url])%list
        else Script.requests w).
Proof.
  split.
  - intros R. apply GuardFacts.fetch_webpage_refused.
    now apply GuardFacts.guard_refused.
  - intros NR. destruct (GuardFacts.guard url) eqn:G.
    + destruct HAS_SCRAPING; [now rewrite GuardFacts.fetch_webpage_passed|reflexivity].
    + now apply GuardFacts.guard_refused in G.
Qed.

Lemma fetch_webpage_guard_witness :
  (exists out,
     Script.fetch_webpage true demo_page "https://example.org/v10.2/cfp" demo_world
     = (Script.Fail (Script.SystemExit 1), Script.mkworld out []))
  /\ (exists out,
        Script.fetch_webpage true demo_page "ftp://example.org/cfp" demo_world
        = (Script.Fail (Script.SystemExit 1), Script.mkworld out []))
  /\ Script.requests
       (snd (Script.fetch_webpage true demo_page "https://neurips.cc" demo_world))
     = ["https://neurips.cc"].
Proof.
  split; [|split].
  - apply (proj1 (fetch_webpage_guard true demo_page
                    "https://example.org/v10.2/cfp" demo_world)).
    right. exists "10.". split; [simpl; tauto|].
    exists "https://example.org/v", "2/cfp". reflexivity.
  - apply (proj1 (fetch_webpage_guard true demo_page
                    "ftp://example.org/cfp" demo_world)).
    left. intros rest. split; discriminate.
  - apply (proj2 (fetch_webpage_guard true demo_page "https://neurips.cc"
                    demo_world)).
    intros R. apply GuardFacts.guard_refused in R. discriminate R.
Defined.

Module MainFacts.
Import Str Script.

Section Program.
Variable HAS_SCRAPING : bool.
Variable page_text : string -> string + string.
Variable path_exists : string -> bool.
Variable glob_gguf : string -> list string.
Variable cache_dir : string.
Variable extract_with_llama : string -> string -> string -> IO string.
Variable argv : list string.

Local Abbreviation main :=
  (Script.main HAS_SCRAPING page_text path_exists glob_gguf cache_dir
     extract_with_llama argv).

Lemma in_argv_iff x : in_argv argv x = true <-> In x argv.
Proof.
  unfold in_argv. rewrite existsb_exists. split.
  - intros (y & I & E). apply String.eqb_eq in E. now subst.
  - intros I. exists x. split; [exact I|apply String.eqb_refl].
Qed.

Lemma no_model_exits w :
  exits 1 w
    ((print "Error: No GGUF model found." ;;
      print (nl ++ "Run: python update_deadlines.py --download-model") ;;
      print "to see download instructions." ;;
      exit 1)%script w).
Proof. split; reflexivity. Qed.

Lemma index_app_not_in x pre post :
  ~ In x pre -> index x (pre ++ x :: post)%list = length pre.
Proof.
  induction pre as [|y pre IH]; intros N; cbn [app index length].
  - now rewrite String.eqb_refl.
  - destruct (String.eqb_spec y x) as [->|_]; [destruct N; now left|].
    rewrite IH; [reflexivity|]. intros I. apply N. now right.
Qed.

Lemma main_download w :
  In "--download-model" argv -> exits 0 w (main w).
Proof.
  intros I. apply in_argv_iff in I. unfold Script.main. rewrite I.
  split; reflexivity.
Qed.

Lemma main_usage w :
  ~ In "--download-model" argv ->
  (length argv < 2)%nat \/ (exists rest, nth 1 argv "" = "--" ++ rest) ->
  exits 1 w (main w).
Proof.
  intros N U. unfold Script.main.
  destruct (in_argv argv "--download-model") eqn:D;
    [apply in_argv_iff in D; contradiction|].
  assert (E : (length argv <? 2)%nat || startswith (nth 1 argv "") ["--"] = true).
  { apply orb_true_iff. destruct U as [U|U].
    - left. now apply Nat.ltb_lt.
    - right. unfold startswith. cbn [existsb]. rewrite orb_false_r.
      now apply GuardFacts.prefix_iff. }
  rewrite E. split; reflexivity.
Qed.

End Program.

Lemma main_model_path_last HAS_SCRAPING page_text path_exists glob_gguf
    cache_dir extract_with_llama argv w pre :
  ~ In "--download-model" argv ->
  argv = (pre ++ ["--model-path"])%list ->
  ~ In "--model-path" pre ->
  exits 1 w
    (Script.main HAS_SCRAPING page_text path_exists glob_gguf cache_dir
       extract_with_llama argv w).
Proof.
  intros N -> NP. unfold Script.main.
  destruct (in_argv _ "--download-model") eqn:D;
    [apply in_argv_iff in D; contradiction|].
  destruct (_ || _); [split; reflexivity|].
  assert (M : in_argv (pre ++ ["--model-path"])%list "--model-path" = true).
  { apply in_argv_iff. apply in_or_app. right. now left. }
  rewrite M. rewrite index_app_not_in by exact NP.
  rewrite length_app. cbn [length].
  assert (L : (length pre + 1 <? length pre + 1)%nat = false)
    by apply Nat.ltb_irrefl.
  rewrite L. apply no_model_exits.
Qed.

Lemma main_model_path_unusable HAS_SCRAPING page_text path_exists glob_gguf
    cache_dir extract_with_llama argv w pre p post :
  ~ In "--download-model" argv ->
  argv = (pre ++ "--model-path" :: p :: post)%list ->
  ~ In "--model-path" pre ->
  p = EmptyString \/ path_exists p = false ->
  exits 1 w
    (Script.main HAS_SCRAPING page_text path_exists glob_gguf cache_dir
       extract_with_llama argv w).
Proof.
  intros N -> NP U. unfold Script.main.
  destruct (in_argv _ "--download-model") eqn:D;
    [apply in_argv_iff in D; contradiction|].
  destruct (_ || _); [split; reflexivity|].
  assert (M : in_argv (pre ++ "--model-path" :: p :: post)%list "--model-path"
              = true).
  { apply in_argv_iff. apply in_or_app. right. now left. }
  rewrite M. rewrite index_app_not_in by exact NP.
  assert (L : (length pre + 1
               <? length (pre ++ "--model-path" :: p :: post)%list)%nat = true).
  { apply Nat.ltb_lt. rewrite length_app. cbn [length]. lia. }
  rewrite L.
  assert (E : nth (length pre + 1) (pre ++ "--model-path" :: p :: post)%list ""
              = p).
  { rewrite app_nth2 by lia.
    replace (length pre + 1 - length pre)%nat with 1%nat by lia. reflexivity. }
  rewrite E.
  assert (F : negb (p =? "")%string && path_exists p = false).
  { destruct U as [->|U]; [reflexivity|]. rewrite U. apply andb_false_r. }
  rewrite F. apply no_model_exits.
Qed.
End MainFacts.

(** X21: the script leaves with code 0, without a request, when
    [--download-model] is anywhere among the arguments; else with code 1,
    without a request, when there is no first argument or it starts with
    [--], when [--model-path] is the last argument, and when the path that
    follows [--model-path] is empty or no file of the machine, whatever
    models the machine has in the places [find_model] looks at. *)
Theorem main_argument_errors HAS_SCRAPING page_text path_exists glob_gguf
    cache_dir extract_with_llama argv w :
  let run := Script.main HAS_SCRAPING page_text path_exists glob_gguf cache_dir
               extract_with_llama argv w in
  (In "--download-model" argv -> exits 0 w run)
  /\ (~ In "--download-model" argv ->
      (length argv < 2)%nat \/ (exists rest, nth 1 argv "" = "--" ++ rest) ->
      exits 1 w run)
  /\ (~ In "--download-model" argv ->
      forall pre, argv = (pre ++ ["--model-path"])%list ->
                  ~ In "--model-path" pre ->
                  exits 1 w run)
  /\ (~ In "--download-model" argv ->
      forall pre p post,
        argv = (pre ++ "--model-path" :: p :: post)%list ->
        ~ In "--model-path" pre ->
        p = EmptyString \/ path_exists p = false ->
        exits 1 w run).
Proof.
  intros run. split; [|split; [|split]].
  - apply MainFacts.main_download.
  - apply MainFacts.main_usage.
  - intros N pre E NP. eapply MainFacts.main_model_path_last; eauto.
  - intros N pre p post E NP U.
    eapply MainFacts.main_model_path_unusable; eauto.
Qed.

Lemma main_argument_errors_witness :
  exits 0 demo_world
    (Script.main true demo_page (fun _ => true) (fun _ => ["models/m.gguf"])
       "cache" demo_llama
       ["update_deadlines.py"; "https://neurips.cc"; "--download-model"]
       demo_world)
  /\ exits 1 demo_world
       (Script.main true demo_page (fun _ => true) (fun _ => ["models/m.gguf"])
          "cache" demo_llama
          ["update_deadlines.py"; "--model-path"; "m.gguf"; "https://neurips.cc"]
          demo_world)
  /\ exits 1 demo_world
       (Script.main true demo_page (fun _ => true) (fun _ => ["models/m.gguf"])
          "cache" demo_llama
          ["update_deadlines.py"; "https://neurips.cc"; "--model-path"]
          demo_world)
  /\ exits 1 demo_world
       (Script.main true demo_page (fun p => (p =? "models/m.gguf")%string)
          (fun _ => ["models/m.gguf"]) "cache" demo_llama
          ["update_deadlines.py"; "https://neurips.cc"; "--model-path"; "m.gguf"]
          demo_world).
Proof.
  split; [|split; [|split]].
  - apply (proj1 (main_argument_errors true demo_page (fun _ => true)
                    (fun _ => ["models/m.gguf"]) "cache" demo_llama
                    ["update_deadlines.py"; "https://neurips.cc"; "--download-model"]
                    demo_world)).
    simpl. tauto.
  - apply (proj1 (proj2 (main_argument_errors true demo_page (fun _ => true)
                    (fun _ => ["models/m.gguf"]) "cache" demo_llama
                    ["update_deadlines.py"; "--model-path"; "m.gguf";
                     "https://neurips.cc"]
                    demo_world))).
    + simpl. intros [H|[H|[H|[H|[]]]]]; discriminate.
    + right. exists "model-path". reflexivity.
  - apply (proj1 (proj2 (proj2 (main_argument_errors true demo_page
                    (fun _ => true)
                    (fun _ => ["models/m.gguf"]) "cache" demo_llama
                    ["update_deadlines.py"; "https://neurips.cc"; "--model-path"]
                    demo_world)))
             ltac:(simpl; intros [H|[H|[H|[]]]]; discriminate)
             ["update_deadlines.py"; "https://neurips.cc"]).
    + reflexivity.
    + simpl. intros [H|[H|[]]]; discriminate.
  - apply (proj2 (proj2 (proj2 (main_argument_errors true demo_page
                    (fun p => (p =? "models/m.gguf")%string)
                    (fun _ => ["models/m.gguf"]) "cache" demo_llama
                    ["update_deadlines.py"; "https://neurips.cc"; "--model-path";
                     "m.gguf"]
                    demo_world)))
             ltac:(simpl; intros [H|[H|[H|[H|[]]]]]; discriminate)
             ["update_deadlines.py"; "https://neurips.cc"] "m.gguf" []).
    + reflexivity.
    + simpl. intros [H|[H|[]]]; discriminate.
    + right. reflexivity.
Defined.

(** X22: when the guard refuses the URL given to the script, the run
    ends by [sys.exit] with code 0 or 1 and requests nothing, whatever the
    other arguments, the files and the model are. *)
Theorem main_never_requests_refused_url HAS_SCRAPING page_text path_exists
    glob_gguf cache_dir extract_with_llama argv w :
  refused (nth 1 argv "") ->
  exists code,
    (code = 0 \/ code = 1)
    /\ exits code w
         (Script.main HAS_SCRAPING page_text path_exists glob_gguf cache_dir
            extract_with_llama argv w).
Proof.
  intros R. apply GuardFacts.guard_refused in R. unfold Script.main.
  destruct (Script.in_argv argv "--download-model").
  { exists 0. split; [now left|split; reflexivity]. }
  exists 1. split; [now right|].
  destruct (_ || _); [split; reflexivity|].
  match goal with
  | |- exits _ _ (match ?mp with _ => _ end _) => destruct mp as [p|]
  end; [|apply MainFacts.no_model_exits].
  destruct (negb (p =? "")%string && path_exists p);
    [|apply MainFacts.no_model_exits].
  destruct (GuardFacts.fetch_webpage_refused HAS_SCRAPING page_text
              (nth 1 argv "") w R) as [out F].
  unfold Script.bind at 1, Script.try_except at 1. rewrite F. split; reflexivity.
Qed.

Lemma main_never_requests_refused_url_witness :
  exists code,
    (code = 0 \/ code = 1)
    /\ exits code demo_world
         (Script.main true demo_page (fun _ => true) (fun _ => ["models/m.gguf"])
            "cache" demo_llama
            ["update_deadlines.py"; "http://LocalHost:8000/admin"] demo_world).
Proof.
  apply (main_never_requests_refused_url true demo_page (fun _ => true)
           (fun _ => ["models/m.gguf"]) "cache" demo_llama
           ["update_deadlines.py"; "http://LocalHost:8000/admin"] demo_world).
  right. exists "localhost". split; [simpl; tauto|].
  exists "http://", ":8000/admin". reflexivity.
Defined.
